(** * pub-sub-go: a shallow embedding of the in-memory publish/subscribe broker

    The development follows the Go sources:
    - [ringbuffer.go]: [RingBuffer], [NewRingBuffer], [Add], [LastN];
    - [topics.go]: [TopicsManager], [Topic], [Subscriber], [CreateTopic],
      [GetTopic], [DeleteTopic], [CloseAll], [CloseAllGracefully],
      [CloseGracefully];
    - [ws.go]: the frame dispatch of [wsHandler], [publishToTopic],
      [Close], [CloseWithError], [subscriberQueueSize];
    - [router.go] / [util.go]: [topicsCollectionHandler],
      [topicsItemHandler], [setupRouter], [corsMiddleware], [requireAPIKey],
      [getEnv].

    Go pointers ([*Subscriber], the socket of a session) are indices into a
    heap kept in the [World]; Go maps are [gmap]s, and a [range] loop over a
    map takes the order in which the keys are visited as an argument, since
    Go leaves that order unspecified.  Run-time faults (a send on a closed
    channel, closing a closed channel, an index out of range, a channel
    size that [make] refuses) are the [Panic] results of the [Result]
    monad. *)

From Stdlib Require Import ZArith String Ascii List Lia.
From stdpp Require Import base option list gmap strings fin_maps.

Open Scope string_scope.
Open Scope list_scope.
Open Scope stdpp_scope.
Open Scope Z_scope.

(** ** Results: a value or a Go run-time panic *)

Inductive PanicKind : Type :=
| SendOnClosedChannel
| CloseOfClosedChannel
| IndexOutOfRange
| DivideByZero
| NegativeLen
| NilDereference
| MakechanSizeOutOfRange.

Inductive Result (A : Type) : Type :=
| Ok (a : A)
| Panic (e : PanicKind).
Arguments Ok {A} a.
Arguments Panic {A} e.

#[global] Instance Result_ret : MRet Result := fun _ a => Ok a.
#[global] Instance Result_bind : MBind Result := fun _ _ f r =>
  match r with
  | Ok a => f a
  | Panic e => Panic e
  end.

(** ** types.go *)

(** [Payload] is an arbitrary JSON value ([interface{}]); the broker never
    looks inside it, so it is kept as its JSON text. *)
Record Message : Type := mkMessage { ID : string; Payload : string }.

(** The zero value [Message{}] that [make] fills a fresh slice with. *)
Definition zeroMessage : Message := mkMessage "" "".

#[global] Instance Message_eq_dec : EqDecision Message.
Proof. solve_decision. Defined.

(** ** ringbuffer.go *)

Module Ring.

Record RingBuffer : Type := mkRing {
  data : list Message;
  size : Z;
  next : Z;
  full : bool
}.

(** [make([]Message, size)] panics for a negative length. *)
Definition NewRingBuffer (sz : Z) : Result RingBuffer :=
  if sz <? 0 then Panic NegativeLen
  else Ok (mkRing (replicate (Z.to_nat sz) zeroMessage) sz 0 false).

(** [r.data[i]] as a read. *)
Definition index (d : list Message) (i : Z) : Result Message :=
  if i <? 0 then Panic IndexOutOfRange
  else match d !! Z.to_nat i with
       | Some m => Ok m
       | None => Panic IndexOutOfRange
       end.

(** [r.data[i] = m]. *)
Definition assign (d : list Message) (i : Z) (m : Message) : Result (list Message) :=
  if (i <? 0) || (Z.of_nat (length d) <=? i) then Panic IndexOutOfRange
  else Ok (<[Z.to_nat i := m]> d).

(** Go's [%] on [int]: truncated remainder, a panic for a zero divisor. *)
Definition goRem (a b : Z) : Result Z :=
  if b =? 0 then Panic DivideByZero else Ok (Z.rem a b).

Definition Add (m : Message) (r : RingBuffer) : Result RingBuffer :=
  d ← assign (data r) (next r) m;
  nx ← goRem (next r + 1) (size r);
  Ok (mkRing d (size r) nx (if nx =? 0 then true else full r)).

(** [for i := from; i < from + cnt; i++ { out = append(out, r.data[i]) }] *)
Fixpoint copyRange (d : list Message) (from : Z) (cnt : nat) (out : list Message)
  : Result (list Message) :=
  match cnt with
  | O => Ok out
  | S cnt' =>
      m ← index d from;
      copyRange d (from + 1) cnt' (out ++ [m])
  end.

(** [for i := 0; i < n; i++ { idx := (start + i) % r.size; out = append(out, r.data[idx]) }],
    entered at [i] with [cnt] iterations left. *)
Fixpoint copyWrapped (d : list Message) (sz start i : Z) (cnt : nat) (out : list Message)
  : Result (list Message) :=
  match cnt with
  | O => Ok out
  | S cnt' =>
      idx ← goRem (start + i) sz;
      m ← index d idx;
      copyWrapped d sz start (i + 1) cnt' (out ++ [m])
  end.

Definition LastN (n : Z) (r : RingBuffer) : Result (list Message) :=
  if (n <=? 0) || (size r =? 0) then Ok []
  else if negb (full r) then
    let n := if n >? next r then next r else n in
    copyRange (data r) (next r - n) (Z.to_nat n) []
  else
    let n := if n >? size r then size r else n in
    start ← goRem (next r - n + size r) (size r);
    copyWrapped (data r) (size r) start 0 (Z.to_nat n) [].

(** A run of [Add] calls, oldest message first. *)
Fixpoint AddAll (ms : list Message) (r : RingBuffer) : Result RingBuffer :=
  match ms with
  | [] => Ok r
  | m :: ms' => r' ← Add m r; AddAll ms' r'
  end.

End Ring.

(** ** Channels

    A buffered Go channel: the queued values, the capacity given to [make],
    and whether [close] has been called on it. *)

Record Chan (A : Type) : Type := mkChan {
  buf : list A;
  cap : nat;
  isClosed : bool
}.
Arguments mkChan {A} buf cap isClosed.
Arguments buf {A} c.
Arguments cap {A} c.
Arguments isClosed {A} c.

(** [make(chan A, n)] *)
Definition makeChan {A : Type} (n : nat) : Chan A := mkChan [] n false.

(** [select { case ch <- x: ... default: ... }]: [Some] is the channel after
    the send, [None] the [default] branch.  A send on a closed channel
    panics, inside a [select] too. *)
Definition trySend {A : Type} (x : A) (ch : Chan A) : Result (option (Chan A)) :=
  if isClosed ch then Panic SendOnClosedChannel
  else if (length (buf ch) <? cap ch)%nat
       then Ok (Some (mkChan (buf ch ++ [x]) (cap ch) false))
       else Ok None.

Inductive Recv (A : Type) : Type :=
| Received (x : A) (ch : Chan A)   (* a queued value *)
| ClosedEmpty                      (* closed and drained: the zero value, ok = false *)
| WouldBlock.                      (* the [default] branch *)
Arguments Received {A} x ch.
Arguments ClosedEmpty {A}.
Arguments WouldBlock {A}.

(** [select { case v, ok := <-ch: ... default: ... }] *)
Definition tryRecv {A : Type} (ch : Chan A) : Recv A :=
  match buf ch with
  | x :: rest => Received x (mkChan rest (cap ch) (isClosed ch))
  | [] => if isClosed ch then ClosedEmpty else WouldBlock
  end.

(** [close(ch)] *)
Definition closeChan {A : Type} (ch : Chan A) : Result (Chan A) :=
  if isClosed ch then Panic CloseOfClosedChannel
  else Ok (mkChan (buf ch) (cap ch) true).

(** The queue has no free slot. *)
Definition atCapacity {A : Type} (ch : Chan A) : bool :=
  negb (length (buf ch) <? cap ch)%nat.

(** ** Wire frames (types.go) *)

Record ErrObj : Type := mkErrObj { Code : string; ErrMessage : string }.

Module In.
Record ClientToServer : Type := mkClientToServer {
  Type_ : string;
  Topic : string;
  Message : option Message;
  ClientID : string;
  LastN : Z;
  RequestID : string
}.
End In.

(** The [TS] field (the wall-clock time of the reply) is left out. *)
Module Out.
Record ServerToClient : Type := mkServerToClient {
  Type_ : string;
  RequestID : string;
  Topic : string;
  Message : option Message;
  Error : option ErrObj;
  Status : string;
  Msg : string
}.
End Out.

Definition pongFrame (rid : string) : Out.ServerToClient :=
  Out.mkServerToClient "pong" rid "" None None "" "".
Definition errorFrame (rid code reason : string) : Out.ServerToClient :=
  Out.mkServerToClient "error" rid "" None (Some (mkErrObj code reason)) "" "".
Definition ackFrame (rid topic : string) : Out.ServerToClient :=
  Out.mkServerToClient "ack" rid topic None None "ok" "".
Definition eventFrame (topic : string) (m : Message) : Out.ServerToClient :=
  Out.mkServerToClient "event" "" topic (Some m) None "" "".

(** ** The socket of a session (the [WSConn] interface)

    A connection is the log of the calls made on it, oldest first. *)

Inductive ConnEvent : Type :=
| EvWrite (f : Out.ServerToClient)
| EvClose (status : Z) (reason : string).

Definition StatusNormalClosure : Z := 1000.

(** ** topics.go: the data *)

Module Sub.
(** [conn] is the index of the session's socket in [conns]; [closed] is the
    [chan struct{}] that only ever gets closed. *)
Record Subscriber : Type := mkSubscriber {
  id : string;
  send : Chan Message;
  conn : nat;
  closed : Chan unit
}.
End Sub.

(** [subscribers] maps a client id to the address of its [*Subscriber]. *)
Record Topic : Type := mkTopic {
  name : string;
  subscribers : gmap string nat;
  history : Ring.RingBuffer;
  msgCount : Z
}.

Record TopicsManager : Type := mkTopicsManager {
  topics : gmap string Topic;
  start : Z
}.

Inductive error : Type := ErrTopicExists | ErrTopicNotFound.

Definition errorText (e : error) : string :=
  match e with
  | ErrTopicExists => "topic already exists"
  | ErrTopicNotFound => "topic not found"
  end.

(** The process: its environment variables, the package variable
    [subscriberQueueSize], the subscribers allocated so far, the sockets
    accepted so far, and [globalTopics]. *)
Record World : Type := mkWorld {
  environ : gmap string string;
  subscriberQueueSize : Z;
  heap : list Sub.Subscriber;
  conns : list (list ConnEvent);
  globalTopics : TopicsManager
}.

Definition setHeap (h : list Sub.Subscriber) (w : World) : World :=
  mkWorld (environ w) (subscriberQueueSize w) h (conns w) (globalTopics w).
Definition setConns (cs : list (list ConnEvent)) (w : World) : World :=
  mkWorld (environ w) (subscriberQueueSize w) (heap w) cs (globalTopics w).
Definition setTopics (ts : gmap string Topic) (w : World) : World :=
  mkWorld (environ w) (subscriberQueueSize w) (heap w) (conns w)
          (mkTopicsManager ts (start (globalTopics w))).

(** [*p] and [*p = s] on the subscriber heap. *)
Definition deref (p : nat) (w : World) : Result Sub.Subscriber :=
  match heap w !! p with
  | Some s => Ok s
  | None => Panic NilDereference
  end.
Definition store (p : nat) (s : Sub.Subscriber) (w : World) : World :=
  setHeap (<[p := s]> (heap w)) w.

(** [conn.Write(ctx, f)] and [conn.Close(status, reason)]; the error either
    returns is looked at by the writer loop only. *)
Definition connWrite (c : nat) (f : Out.ServerToClient) (w : World) : World :=
  setConns (alter (fun tr => tr ++ [EvWrite f]) c (conns w)) w.
Definition connClose (c : nat) (status : Z) (reason : string) (w : World) : World :=
  setConns (alter (fun tr => tr ++ [EvClose status reason]) c (conns w)) w.
Definition connLog (c : nat) (w : World) : list ConnEvent :=
  default [] (conns w !! c).

(** ** util.go and the configuration read at start-up *)

(** [os.Getenv]: the empty string for an unset variable. *)
Definition Getenv (env : gmap string string) (key : string) : string :=
  default "" (env !! key).

Definition getEnv (env : gmap string string) (key def : string) : string :=
  let v := Getenv env key in
  if String.eqb v "" then def else v.

(** [strconv.Atoi] with its error dropped ([n, _ := strconv.Atoi(v)]): an
    optional sign and decimal digits; 0 for anything else; a value outside
    [int] is clamped to the nearest bound. *)
Definition digitVal (a : ascii) : option Z :=
  let n := Z.of_nat (nat_of_ascii a) in
  if (48 <=? n) && (n <=? 57) then Some (n - 48) else None.

Fixpoint parseDigits (s : string) (acc : Z) : option Z :=
  match s with
  | EmptyString => Some acc
  | String a rest =>
      match digitVal a with
      | Some d => parseDigits rest (10 * acc + d)
      | None => None
      end
  end.

Definition clampInt (z : Z) : Z :=
  if z >? 2 ^ 63 - 1 then 2 ^ 63 - 1
  else if z <? - 2 ^ 63 then - 2 ^ 63 else z.

Definition Atoi (s : string) : Z :=
  let '(neg, body) :=
    match s with
    | String "-"%char rest => (true, rest)
    | String "+"%char rest => (false, rest)
    | _ => (false, s)
    end in
  match body with
  | EmptyString => 0
  | _ => match parseDigits body 0 with
         | Some v => clampInt (if neg then - v else v)
         | None => 0
         end
  end.

(** The initialiser of [var subscriberQueueSize] (ws.go). *)
Definition initSubscriberQueueSize (env : gmap string string) : Z :=
  let v := Getenv env "SUBSCRIBER_QUEUE_SIZE" in
  if negb (String.eqb v "") && (Atoi v >? 0) then Atoi v else 100.

Definition NewTopicsManager (now : Z) : TopicsManager :=
  mkTopicsManager ∅ now.

(** The process right after start-up. *)
Definition initWorld (env : gmap string string) (now : Z) : World :=
  mkWorld env (initSubscriberQueueSize env) [] [] (NewTopicsManager now).

(** ** topics.go: the registry *)

Definition CreateTopic (nm : string) (tm : TopicsManager)
  : Result (option error * TopicsManager) :=
  match topics tm !! nm with
  | Some _ => Ok (Some ErrTopicExists, tm)
  | None =>
      h ← Ring.NewRingBuffer 100;
      Ok (None, mkTopicsManager (<[nm := mkTopic nm ∅ h 0]> (topics tm)) (start tm))
  end.

Definition GetTopic (nm : string) (tm : TopicsManager) : Topic + error :=
  match topics tm !! nm with
  | Some t => inl t
  | None => inr ErrTopicNotFound
  end.

(** ** ws.go: closing a subscriber *)

Definition Close (p : nat) (w : World) : Result World :=
  s ← deref p w;
  match tryRecv (Sub.closed s) with
  | WouldBlock =>
      cl ← closeChan (Sub.closed s);
      sd ← closeChan (Sub.send s);
      Ok (connClose (Sub.conn s) StatusNormalClosure "subscriber closed"
            (store p (Sub.mkSubscriber (Sub.id s) sd (Sub.conn s) cl) w))
  | _ => Ok w
  end.

Definition CloseWithError (p : nat) (code reason : string) (w : World) : Result World :=
  s ← deref p w;
  Close p (connWrite (Sub.conn s) (errorFrame "" code reason) w).

(** The drain loop of [CloseGracefully].  [expiry] is the number of readings
    of the clock that still fall before [drainUntil]. *)
Fixpoint drain (expiry : nat) (ch : Chan Message) : Chan Message :=
  match tryRecv ch with
  | WouldBlock => ch
  | r =>
      let ch' := match r with Received _ c => c | _ => ch end in
      match expiry with
      | O => ch'
      | S e => drain e ch'
      end
  end.

Definition CloseGracefully (expiry : nat) (p : nat) (w : World) : Result World :=
  s ← deref p w;
  cl ← closeChan (Sub.closed s);
  Ok (store p (Sub.mkSubscriber (Sub.id s) (drain expiry (Sub.send s)) (Sub.conn s) cl) w).

(** ** topics.go: loops over the registry

    [ks] is the order in which a [range] loop visits the keys of the map. *)

(** [for _, sub := range subs { sub.Close() }] *)
Fixpoint closeEach (ks : list string) (subs : gmap string nat) (w : World) : Result World :=
  match ks with
  | [] => Ok w
  | k :: ks' =>
      match subs !! k with
      | Some p => w' ← Close p w; closeEach ks' subs w'
      | None => closeEach ks' subs w
      end
  end.

(** [for _, sub := range subs { sub.CloseGracefully(timeout) }] *)
Fixpoint closeEachGracefully (expiry : nat) (ks : list string) (subs : gmap string nat)
    (w : World) : Result World :=
  match ks with
  | [] => Ok w
  | k :: ks' =>
      match subs !! k with
      | Some p => w' ← CloseGracefully expiry p w; closeEachGracefully expiry ks' subs w'
      | None => closeEachGracefully expiry ks' subs w
      end
  end.

Definition DeleteTopic (ks : list string) (nm : string) (w : World)
  : Result (option error * World) :=
  match topics (globalTopics w) !! nm with
  | None => Ok (Some ErrTopicNotFound, w)
  | Some t =>
      w' ← closeEach ks (subscribers t) w;
      Ok (None, setTopics (delete nm (topics (globalTopics w'))) w')
  end.

(** The outer loop of [CloseAll] / [CloseAllGracefully]: [tks] orders the
    topics, [sks nm] the subscribers of topic [nm]. *)
Fixpoint CloseAllFrom (tks : list string) (sks : string -> list string) (w : World)
  : Result World :=
  match tks with
  | [] => Ok w
  | nm :: tks' =>
      match topics (globalTopics w) !! nm with
      | Some t => w' ← closeEach (sks nm) (subscribers t) w; CloseAllFrom tks' sks w'
      | None => CloseAllFrom tks' sks w
      end
  end.

Definition CloseAll (tks : list string) (sks : string -> list string) (w : World)
  : Result World :=
  CloseAllFrom tks sks w.

Fixpoint CloseAllGracefullyFrom (expiry : nat) (tks : list string)
    (sks : string -> list string) (w : World) : Result World :=
  match tks with
  | [] => Ok w
  | nm :: tks' =>
      match topics (globalTopics w) !! nm with
      | Some t =>
          w' ← closeEachGracefully expiry (sks nm) (subscribers t) w;
          CloseAllGracefullyFrom expiry tks' sks w'
      | None => CloseAllGracefullyFrom expiry tks' sks w
      end
  end.

Definition CloseAllGracefully (expiry : nat) (tks : list string)
    (sks : string -> list string) (w : World) : Result World :=
  CloseAllGracefullyFrom expiry tks sks w.

(** ** ws.go: publishing *)

(** [t.msgCount++] on an [int64]. *)
Definition wrap64 (z : Z) : Z := (z + 2 ^ 63) mod 2 ^ 64 - 2 ^ 63.

Definition slowConsumerFrame : Out.ServerToClient :=
  errorFrame "" "SLOW_CONSUMER" "subscriber queue overflow".

(** The fan-out loop of [publishToTopic] over [t.subscribers]; [subs] is the
    map as the loop has left it so far (an evicted subscriber is deleted
    from it while the loop runs). *)
Fixpoint fanout (ks : list string) (m : Message) (subs : gmap string nat) (w : World)
  : Result (gmap string nat * World) :=
  match ks with
  | [] => Ok (subs, w)
  | k :: ks' =>
      match subs !! k with
      | None => fanout ks' m subs w
      | Some p =>
          s ← deref p w;
          r ← trySend m (Sub.send s);
          match r with
          | Some ch =>
              fanout ks' m subs
                (store p (Sub.mkSubscriber (Sub.id s) ch (Sub.conn s) (Sub.closed s)) w)
          | None =>
              w' ← Close p (connWrite (Sub.conn s) slowConsumerFrame w);
              fanout ks' m (delete k subs) w'
          end
      end
  end.

Definition publishToTopic (ks : list string) (topicName : string) (m : Message) (w : World)
  : Result (option error * World) :=
  match GetTopic topicName (globalTopics w) with
  | inr e => Ok (Some e, w)
  | inl t =>
      h ← Ring.Add m (history t);
      '(subs, w') ← fanout ks m (subscribers t) w;
      Ok (None,
          setTopics (<[topicName := mkTopic (name t) subs h (wrap64 (msgCount t + 1))]>
                       (topics (globalTopics w'))) w')
  end.

(** ** ws.go: the session *)

(** The replay loop of the [subscribe] case. *)
Fixpoint replay (p : nat) (ms : list Message) (w : World) : Result World :=
  match ms with
  | [] => Ok w
  | m :: ms' =>
      s ← deref p w;
      r ← trySend m (Sub.send s);
      match r with
      | Some ch =>
          replay p ms' (store p (Sub.mkSubscriber (Sub.id s) ch (Sub.conn s) (Sub.closed s)) w)
      | None =>
          w' ← CloseWithError p "SLOW_CONSUMER" "replay overflow" w;
          replay p ms' w'
      end
  end.

(** The part of the [subscribe] case under [topic.mu]: close the subscriber
    already bound to the client id, if any, then bind the new one. *)
Definition closeOld (topic : Topic) (cid : string) (w : World) : Result World :=
  match subscribers topic !! cid with
  | Some old => Close old w
  | None => Ok w
  end.

Definition bindSubscriber (topicName cid : string) (p : nat) (w : World) : World :=
  setTopics
    (alter (fun t => mkTopic (name t) (<[cid := p]> (subscribers t)) (history t) (msgCount t))
           topicName (topics (globalTopics w))) w.

Definition unbindSubscriber (topicName cid : string) (w : World) : World :=
  setTopics
    (alter (fun t => mkTopic (name t) (delete cid (subscribers t)) (history t) (msgCount t))
           topicName (topics (globalTopics w))) w.

(** [make(chan Message, n)].  The run-time's [makechan] panics with
    "makechan: size out of range" when [n] is negative or the buffer would
    not fit the address space, [elem.size * n > maxAlloc - hchanSize].  The
    numbers are those of the 64-bit platforms that the rest of the model
    assumes (a 64-bit [int]): a [Message] is a string header and an
    interface value of 16 bytes each, the channel header takes 96 bytes
    (Go 1.22; a later release adds a word to it, which lowers the bound by
    one element) and the heap addresses 48 bits.  What is proved below
    depends on the bound only through [makechanLimit].  Running out of
    memory below that bound is not a panic and is outside the model, as
    for every allocation. *)
Definition maxAlloc : Z := 2 ^ 48.
Definition hchanSize : Z := 96.
Definition sizeofMessage : Z := 32.
Definition makechanLimit : Z := (maxAlloc - hchanSize) / sizeofMessage.

Definition makeMessageChan (n : Z) : Result (Chan Message) :=
  if (0 <=? n) && (n <=? makechanLimit) then Ok (makeChan (Z.to_nat n))
  else Panic MakechanSizeOutOfRange.

(** [sub := &Subscriber{...}]: the new subscriber and its address. *)
Definition newSubscriber (cid : string) (c : nat) (w : World) : Result (nat * World) :=
  send ← makeMessageChan (subscriberQueueSize w);
  Ok (length (heap w),
      setHeap (heap w ++ [Sub.mkSubscriber cid send c (makeChan 0)]) w).

(** The block between [topic.mu.Lock()] and [topic.mu.Unlock()]. *)
Definition register (topicName : string) (topic : Topic) (cid : string) (p : nat)
    (w : World) : Result World :=
  w' ← closeOld topic cid w;
  Ok (bindSubscriber topicName cid p w').

(** [if in.LastN > 0 { for _, m := range topic.history.LastN(in.LastN) {...} }] *)
Definition replayLastN (topic : Topic) (n : Z) (p : nat) (w : World) : Result World :=
  if n >? 0 then ms ← Ring.LastN n (history topic); replay p ms w else Ok w.

Definition handleSubscribe (c : nat) (inp : In.ClientToServer) (w : World) : Result World :=
  if String.eqb (In.Topic inp) "" || String.eqb (In.ClientID inp) "" then
    Ok (connWrite c (errorFrame (In.RequestID inp) "BAD_REQUEST" "topic and client_id required") w)
  else
    match GetTopic (In.Topic inp) (globalTopics w) with
    | inr _ =>
        Ok (connWrite c (errorFrame (In.RequestID inp) "TOPIC_NOT_FOUND" "topic not found") w)
    | inl topic =>
        '(p, w1) ← newSubscriber (In.ClientID inp) c w;
        w2 ← register (In.Topic inp) topic (In.ClientID inp) p w1;
        w3 ← replayLastN topic (In.LastN inp) p w2;
        Ok (connWrite c (ackFrame (In.RequestID inp) (name topic)) w3)
    end.

Definition handleUnsubscribe (c : nat) (inp : In.ClientToServer) (w : World) : Result World :=
  if String.eqb (In.Topic inp) "" || String.eqb (In.ClientID inp) "" then
    Ok (connWrite c (errorFrame (In.RequestID inp) "BAD_REQUEST" "topic and client_id required") w)
  else
    w1 ← match GetTopic (In.Topic inp) (globalTopics w) with
         | inl topic =>
             match subscribers topic !! In.ClientID inp with
             | Some p =>
                 w' ← Close p w;
                 Ok (unbindSubscriber (In.Topic inp) (In.ClientID inp) w')
             | None => Ok w
             end
         | inr _ => Ok w
         end;
    Ok (connWrite c (ackFrame (In.RequestID inp) (In.Topic inp)) w1).

Definition handlePublish (ks : list string) (c : nat) (inp : In.ClientToServer) (w : World)
  : Result World :=
  match In.Message inp with
  | Some m =>
      if String.eqb (In.Topic inp) "" then
        Ok (connWrite c (errorFrame (In.RequestID inp) "BAD_REQUEST" "topic and message required") w)
      else
        r ← publishToTopic ks (In.Topic inp) m w;
        match r with
        | (Some e, w') =>
            let code := match e with
                        | ErrTopicNotFound => "TOPIC_NOT_FOUND"
                        | _ => "INTERNAL"
                        end in
            Ok (connWrite c (errorFrame (In.RequestID inp) code (errorText e)) w')
        | (None, w') => Ok (connWrite c (ackFrame (In.RequestID inp) (In.Topic inp)) w')
        end
  | None =>
      Ok (connWrite c (errorFrame (In.RequestID inp) "BAD_REQUEST" "topic and message required") w)
  end.

(** One turn of the read loop of [wsHandler] on the frame [inp] read from
    socket [c]; [ks] orders the fan-out when the frame is a publish. *)
Definition handleFrame (ks : list string) (c : nat) (inp : In.ClientToServer) (w : World)
  : Result World :=
  if String.eqb (In.Type_ inp) "ping" then
    Ok (connWrite c (pongFrame (In.RequestID inp)) w)
  else if String.eqb (In.Type_ inp) "subscribe" then handleSubscribe c inp w
  else if String.eqb (In.Type_ inp) "unsubscribe" then handleUnsubscribe c inp w
  else if String.eqb (In.Type_ inp) "publish" then handlePublish ks c inp w
  else Ok (connWrite c (errorFrame (In.RequestID inp) "BAD_REQUEST" "unknown type") w).

(** The read loop until [conn.Read] fails; [subs] is the session's local
    table, which no case of the loop writes to. *)
Fixpoint readLoop (c : nat) (subs : gmap string nat)
    (frames : list (list string * In.ClientToServer)) (w : World) : Result World :=
  match frames with
  | [] => Ok w
  | (ks, inp) :: rest => w' ← handleFrame ks c inp w; readLoop c subs rest w'
  end.

(** The code after the read loop: close what [subs] holds, close the socket. *)
Definition sessionCleanup (cks : list string) (c : nat) (subs : gmap string nat) (w : World)
  : Result World :=
  w' ← closeEach cks subs w;
  Ok (connClose c StatusNormalClosure "bye" w').

(** [websocket.Accept]: a new socket and its index. *)
Definition accept (w : World) : nat * World :=
  (length (conns w), setConns (conns w ++ [[]]) w).

(** [wsHandler] from [websocket.Accept] on: a new socket, the empty table
    [subs], the read loop over the frames the client sends before the read
    fails, then the cleanup.  The API-key check before the upgrade and the
    heartbeat task are not modelled. *)
Definition wsSession (cks : list string) (frames : list (list string * In.ClientToServer))
    (w : World) : Result World :=
  let '(c, w0) := accept w in
  let subs : gmap string nat := ∅ in
  w1 ← readLoop c subs frames w0;
  sessionCleanup cks c subs w1.

(** One turn of [subscriberWriteLoop] for the subscriber at [p]: [ctxDone]
    says whether the [select] takes the [ctx.Done()] case (it can once the
    session context is cancelled; when a message is ready as well, Go takes
    either case, and the other one is the turn with [ctxDone = false]),
    [writeFails] whether the socket write returns an error.  The boolean
    result says whether the loop goes on. *)
Definition subscriberWriteStep (ctxDone writeFails : bool) (topicName : string) (p : nat)
    (w : World) : Result (bool * World) :=
  if ctxDone then Ok (false, w)
  else
    s ← deref p w;
    match tryRecv (Sub.send s) with
    | Received m ch =>
        let w1 := connWrite (Sub.conn s) (eventFrame topicName m)
                    (store p (Sub.mkSubscriber (Sub.id s) ch (Sub.conn s) (Sub.closed s)) w) in
        if writeFails then w2 ← Close p w1; Ok (false, w2) else Ok (true, w1)
    | ClosedEmpty => Ok (false, w)
    | WouldBlock => Ok (true, w)
    end.

(** ** router.go: POST /topics and GET /topics *)

(** [strings.TrimSpace] on the bytes of a Go string: leading and trailing
    white space is removed, where white space is what [unicode.IsSpace]
    accepts, in its UTF-8 encoding. *)
Definition bytes (l : list nat) : string :=
  fold_right (fun n s => String (ascii_of_nat n) s) EmptyString l.

Definition spaceEncodings : list string :=
  map bytes
    [ [9%nat]; [10%nat]; [11%nat]; [12%nat]; [13%nat]; [32%nat];
      [194; 133]%nat; [194; 160]%nat;
      [225; 154; 128]%nat;
      [226; 128; 128]%nat; [226; 128; 129]%nat; [226; 128; 130]%nat;
      [226; 128; 131]%nat; [226; 128; 132]%nat; [226; 128; 133]%nat;
      [226; 128; 134]%nat; [226; 128; 135]%nat; [226; 128; 136]%nat;
      [226; 128; 137]%nat; [226; 128; 138]%nat;
      [226; 128; 168]%nat; [226; 128; 169]%nat; [226; 128; 175]%nat;
      [226; 129; 159]%nat;
      [227; 128; 128]%nat ].

(** [Some rest] when [s] is [pre] followed by [rest]. *)
Fixpoint stripPrefix (pre s : string) : option string :=
  match pre, s with
  | EmptyString, _ => Some s
  | String a pre', String b s' => if Ascii.eqb a b then stripPrefix pre' s' else None
  | String _ _, EmptyString => None
  end.

Fixpoint stripAny (encs : list string) (s : string) : option string :=
  match encs with
  | [] => None
  | e :: encs' =>
      match stripPrefix e s with
      | Some rest => Some rest
      | None => stripAny encs' s
      end
  end.

Fixpoint trimLeftWith (encs : list string) (fuel : nat) (s : string) : string :=
  match fuel with
  | O => s
  | S fuel' =>
      match stripAny encs s with
      | Some rest => trimLeftWith encs fuel' rest
      | None => s
      end
  end.

Definition revString (s : string) : string :=
  string_of_list_ascii (rev (list_ascii_of_string s)).

Definition TrimSpace (s : string) : string :=
  let l := trimLeftWith spaceEncodings (String.length s) s in
  revString (trimLeftWith (map revString spaceEncodings) (String.length l) (revString l)).

(** The request body after [json.NewDecoder(r.Body).Decode(&req)]. *)
Inductive Decoded : Type :=
| DecodeError
| Body (Name : string).

Inductive ResponseBody : Type :=
| NoBody
| ErrorJSON (code message : string)
| CreatedJSON (topic : string)
| TopicsJSON (l : list (string * nat)).

Record Response : Type := mkResponse { status : Z; body : ResponseBody }.

Definition writeError (st : Z) (code message : string) : Response :=
  mkResponse st (ErrorJSON code message).

(** [ListTopics], visiting the registry in the order [ks]. *)
Definition ListTopics (ks : list string) (tm : TopicsManager) : list (string * nat) :=
  omap (fun k => (fun t => (name t, size (subscribers t))) <$> topics tm !! k) ks.

Definition topicsCollectionHandler (ks : list string) (method : string) (req : Decoded)
    (w : World) : Result (Response * World) :=
  if String.eqb method "POST" then
    match req with
    | DecodeError => Ok (writeError 400 "BAD_REQUEST" "name is required", w)
    | Body nm =>
        if String.eqb (TrimSpace nm) "" then
          Ok (writeError 400 "BAD_REQUEST" "name is required", w)
        else
          r ← CreateTopic nm (globalTopics w);
          match r with
          | (Some ErrTopicExists, _) =>
              Ok (writeError 409 "CONFLICT" "topic already exists", w)
          | (Some e, _) => Ok (writeError 500 "INTERNAL" (errorText e), w)
          | (None, tm) =>
              Ok (mkResponse 201 (CreatedJSON nm), setTopics (topics tm) w)
          end
    end
  else if String.eqb method "GET" then
    Ok (mkResponse 200 (TopicsJSON (ListTopics ks (globalTopics w))), w)
  else Ok (mkResponse 405 NoBody, w).


(** ** router.go: DELETE /topics/{name} *)

(** [strings.TrimPrefix(s, pre)] *)
Definition TrimPrefix (s pre : string) : string :=
  match stripPrefix pre s with
  | Some rest => rest
  | None => s
  end.

(** [strings.Split(s, sep)] for a separator of one byte: the pieces of [s]
    between the separators, at least one piece. *)
Fixpoint Split (s : string) (sep : ascii) : list string :=
  match s with
  | EmptyString => [EmptyString]
  | String a rest =>
      if Ascii.eqb a sep then EmptyString :: Split rest sep
      else match Split rest sep with
           | seg :: segs => String a seg :: segs
           | [] => [String a EmptyString]
           end
  end.

Inductive ItemBody : Type :=
| ItemNoBody
| ItemErrorJSON (code message : string)
| DeletedJSON (topic : string).

Record ItemResponse : Type := mkItemResponse { itemStatus : Z; itemBody : ItemBody }.

(** [topicsItemHandler] on a request with method [method] and URL path
    [path]; [ks] orders the closing of the topic's subscribers. *)
Definition topicsItemHandler (ks : list string) (method path : string) (w : World)
  : Result (ItemResponse * World) :=
  if negb (String.eqb method "DELETE") then Ok (mkItemResponse 405 ItemNoBody, w)
  else
    match Split (TrimPrefix path "/topics/") "/"%char with
    | [] => Ok (mkItemResponse 400 (ItemErrorJSON "BAD_REQUEST" "topic name required"), w)
    | nm :: _ =>
        if String.eqb nm "" then
          Ok (mkItemResponse 400 (ItemErrorJSON "BAD_REQUEST" "topic name required"), w)
        else
          r ← DeleteTopic ks nm w;
          match r with
          | (Some ErrTopicNotFound, _) =>
              Ok (mkItemResponse 404 (ItemErrorJSON "TOPIC_NOT_FOUND" "topic not found"), w)
          | (Some e, _) => Ok (mkItemResponse 500 (ItemErrorJSON "INTERNAL" (errorText e)), w)
          | (None, w') => Ok (mkItemResponse 200 (DeletedJSON nm), w')
          end
    end.

(** ** router.go and util.go: the middleware in front of the router *)

(** What the middleware looks at in a request; [XAPIKey] is
    [r.Header.Get("X-API-Key")], empty when the header is absent. *)
Record Request : Type := mkRequest {
  Method : string;
  Path : string;
  XAPIKey : string
}.

(** A middleware either answers with a status itself or calls [next]. *)
Inductive Gate : Type :=
| Answered (code : Z)
| CallsNext.

Definition corsMiddleware (r : Request) : Gate :=
  if String.eqb (Method r) "OPTIONS" then Answered 204 else CallsNext.

Definition requireAPIKey (env : gmap string string) (r : Request) : Gate :=
  if String.eqb (Path r) "/health" || String.eqb (Path r) "/" then CallsNext
  else
    let expected := getEnv env "API_KEY" "" in
    if negb (String.eqb expected "") && negb (String.eqb (XAPIKey r) expected)
    then Answered 401
    else CallsNext.

(** [loggingMiddleware(corsMiddleware(requireAPIKey(mux)))] up to the call
    of [mux]; the logging middleware always calls on. *)
Definition setupRouter (env : gmap string string) (r : Request) : Gate :=
  match corsMiddleware r with
  | Answered code => Answered code
  | CallsNext => requireAPIKey env r
  end.

(** The check at the head of [wsHandler]: [true] when the upgrade goes
    ahead, [false] when the request is answered 401. *)
Definition wsHandlerAuthorized (env : gmap string string) (r : Request) : bool :=
  let expected := getEnv env "API_KEY" "" in
  if negb (String.eqb expected "") then String.eqb (XAPIKey r) expected else true.

(** ** The writer loop, run for several turns *)

(** [subscriberWriteLoop] for at most [n] turns with the session context
    live and every socket write succeeding; it stops early when the loop
    returns. *)
Fixpoint subscriberWriteLoop (n : nat) (topicName : string) (p : nat) (w : World)
  : Result World :=
  match n with
  | O => Ok w
  | S n' =>
      '(goesOn, w') ← subscriberWriteStep false false topicName p w;
      if goesOn : bool then subscriberWriteLoop n' topicName p w' else Ok w'
  end.
(** * Properties *)

(** ** Definitions used to state them *)

Definition msg (i : string) : Message := mkMessage i "{}".

(** The [c] most recent of the messages [l], oldest first. *)
Definition lastMessages (c : nat) (l : list Message) : list Message :=
  drop (length l - c) l.

(** [r] is a buffer of capacity [N] to which the messages [ms] were added,
    oldest first. *)
Record holds (N : Z) (ms : list Message) (r : Ring.RingBuffer) : Prop := {
  holds_pos : 0 < N;
  holds_size : Ring.size r = N;
  holds_len : Z.of_nat (length (Ring.data r)) = N;
  holds_next : Ring.next r = Z.of_nat (length ms) mod N;
  holds_full : Ring.full r = (N <=? Z.of_nat (length ms));
  holds_slot : forall i : Z,
      0 <= i -> Z.of_nat (length ms) - N <= i < Z.of_nat (length ms) ->
      Ring.data r !! Z.to_nat (i mod N) = ms !! Z.to_nat i
}.

(** [Close] called [n] times in a row on the subscriber at [p]. *)
Fixpoint CloseTimes (n : nat) (p : nat) (w : World) : Result World :=
  match n with
  | O => Ok w
  | S n' => w' ← Close p w; CloseTimes n' p w'
  end.

(** The subscriber at [p] is as [subscribe] made it: neither its
    closed-signal nor its queue has been closed. *)
Definition live (s : Sub.Subscriber) : Prop :=
  Sub.closed s = makeChan 0 /\ isClosed (Sub.send s) = false.

(** The subscriber at [p] after its first [Close]. *)
Definition closedOnce (s : Sub.Subscriber) : Sub.Subscriber :=
  Sub.mkSubscriber (Sub.id s)
    (mkChan (buf (Sub.send s)) (cap (Sub.send s)) true)
    (Sub.conn s)
    (mkChan [] 0%nat true).

(** The closed-signal of the subscriber at [p] has fired. *)
Definition wasClosed (p : nat) (w : World) : Prop :=
  exists s, heap w !! p = Some s /\ isClosed (Sub.closed s) = true.

(** [ks] is an order in which a [range] loop may visit the map [m]: every
    key once. *)
Definition rangeOrder {V : Type} (ks : list string) (m : gmap string V) : Prop :=
  NoDup ks /\ dom m = list_to_set (C := gset string) ks.

#[global] Instance rangeOrder_dec {V : Type} (ks : list string) (m : gmap string V) :
  Decision (rangeOrder ks m).
Proof. unfold rangeOrder. apply _. Defined.

(** The subscriber at [p] can be served: it exists, its send queue has not
    been closed, nothing was ever sent on its closed-signal, and its socket
    is one of the accepted ones. *)
Definition servable (w : World) (p : nat) : Prop :=
  match heap w !! p with
  | Some s =>
      isClosed (Sub.send s) = false /\ buf (Sub.closed s) = [] /\
      (Sub.conn s < length (conns w))%nat
  | None => False
  end.

#[global] Instance servable_dec (w : World) (p : nat) : Decision (servable w p).
Proof. unfold servable. destruct (heap w !! p); apply _. Defined.

(** Every subscriber registered in [subs] can be served. *)
Definition allServable (subs : gmap string nat) (w : World) : Prop :=
  map_Forall (fun _ p => servable w p) subs.

#[global] Instance allServable_dec (subs : gmap string nat) (w : World) :
  Decision (allServable subs w).
Proof. unfold allServable. apply _. Defined.

(** No subscriber is registered under two client ids. *)
Definition distinctSubscribers (subs : gmap string nat) : Prop :=
  NoDup (snd <$> map_to_list subs).

#[global] Instance distinctSubscribers_dec (subs : gmap string nat) :
  Decision (distinctSubscribers subs).
Proof. unfold distinctSubscribers. apply _. Defined.

(** [Add] on [r] stays within the slice. *)
Definition ringReady (r : Ring.RingBuffer) : Prop :=
  0 <= Ring.next r < Z.of_nat (length (Ring.data r)) /\ Ring.size r <> 0.

(** What [publishToTopic] with message [m] does to the subscriber [s] at
    [p], registered under [k]: [subs'] and [w'] are the subscriber map and
    the state when it returns. *)
Definition served (m : Message) (k : string) (p : nat) (s : Sub.Subscriber)
    (subs' : gmap string nat) (w' : World) : Prop :=
  if atCapacity (Sub.send s) then
    subs' !! k = None /\ wasClosed p w' /\
    EvWrite slowConsumerFrame ∈ connLog (Sub.conn s) w'
  else
    subs' !! k = Some p /\
    exists s', heap w' !! p = Some s' /\
      buf (Sub.send s') = buf (Sub.send s) ++ [m] /\ isClosed (Sub.send s') = false.

(** No address is bound to two keys; the form of [distinctSubscribers] that
    the loops preserve when they delete a key. *)
Definition injective (subs : gmap string nat) : Prop :=
  forall k1 k2 p, subs !! k1 = Some p -> subs !! k2 = Some p -> k1 = k2.

(** ** Scenarios

    Frames, and states of the process reached from start-up by the REST and
    socket handlers. *)

Definition subscribeFrame (topic cid : string) (lastN : Z) (rid : string) : In.ClientToServer :=
  In.mkClientToServer "subscribe" topic None cid lastN rid.
Definition publishFrame (topic : string) (m : Message) (rid : string) : In.ClientToServer :=
  In.mkClientToServer "publish" topic (Some m) "" 0 rid.

(** [POST /topics {"name": nm}] *)
Definition postTopic (nm : string) (w : World) : Result World :=
  r ← topicsCollectionHandler [] "POST" (Body nm) w; Ok r.2.

(** A socket is accepted. *)
Definition connect (w : World) : World := (accept w).2.

(** The state of a run that did not panic. *)
Definition stateOf (r : Result World) : World :=
  match r with
  | Ok w => w
  | Panic _ => initWorld ∅ 0
  end.

(** Queues of one message: [SUBSCRIBER_QUEUE_SIZE=1]. *)
Definition smallQueues : gmap string string := {[ "SUBSCRIBER_QUEUE_SIZE" := "1" ]}.

(** Topic "t" exists; socket 0 has published "1" and "2" on it. *)
Definition twoPublished : Result World :=
  w ← postTopic "t" (initWorld smallQueues 0);
  w ← handleFrame [] 0 (publishFrame "t" (msg "1") "p1") (connect w);
  handleFrame [] 0 (publishFrame "t" (msg "2") "p2") w.

(** Then socket 1 subscribes client "a" with [last_n = 2]. *)
Definition replayOverflow : Result World :=
  w ← twoPublished;
  handleFrame [] 1 (subscribeFrame "t" "a" 2 "r1") (connect w).

(** Then socket 2 subscribes client "b" without replay. *)
Definition closedAndLive : Result World :=
  w ← replayOverflow;
  handleFrame [] 2 (subscribeFrame "t" "b" 0 "r2") (connect w).

(** Topic "t" exists; socket 0 has published "1", "2" and "3" on it. *)
Definition threePublished : Result World :=
  w ← twoPublished;
  handleFrame [] 0 (publishFrame "t" (msg "3") "p3") w.

(** Topic "t" with two subscribers that nobody closed: "a" (socket 0) whose
    queue is full, and "b" (socket 1) whose writer has sent on the one
    message it had. *)
Definition fullAndFree : Result World :=
  w ← postTopic "t" (initWorld smallQueues 0);
  w ← handleFrame [] 0 (subscribeFrame "t" "a" 0 "r1") (connect w);
  w ← handleFrame [] 1 (subscribeFrame "t" "b" 0 "r2") (connect w);
  w ← handleFrame ["a"; "b"] 2 (publishFrame "t" (msg "1") "p1") (connect w);
  r ← subscriberWriteStep false false "t" 1 w;
  Ok r.2.

(** The topic registered under [nm] (an empty one if there is none). *)
Definition topicOf (nm : string) (w : World) : Topic :=
  default (mkTopic "" ∅ (Ring.mkRing [] 0 0 false) 0) (topics (globalTopics w) !! nm).

(** The subscriber [s] with the messages [ms] queued behind what its queue
    already holds. *)
Definition queued (ms : list Message) (s : Sub.Subscriber) : Sub.Subscriber :=
  Sub.mkSubscriber (Sub.id s)
    (mkChan (buf (Sub.send s) ++ ms) (cap (Sub.send s)) false)
    (Sub.conn s) (Sub.closed s).

(** [s'] is a later state of the subscriber [s]: the same client id and
    socket, still nothing sent on the closed-signal, and the closed-signal
    still fired if it had. *)
Definition evolves (s s' : Sub.Subscriber) : Prop :=
  Sub.id s' = Sub.id s /\ Sub.conn s' = Sub.conn s /\
  buf (Sub.closed s') = buf (Sub.closed s) /\
  (isClosed (Sub.closed s) = true -> isClosed (Sub.closed s') = true).

(** [w'] is a later state of the process [w], as far as the session code
    goes: the same topics' registry is not asked for, only that every
    subscriber is still there, evolved, and that none was added. *)
Definition laterHeap (w w' : World) : Prop :=
  length (heap w') = length (heap w) /\
  forall p s, heap w !! p = Some s -> exists s', heap w' !! p = Some s' /\ evolves s s'.

(** Topic "t" with the one subscriber "c", on socket 0. *)
Definition oneSubscriber : Result World :=
  w ← postTopic "t" (initWorld smallQueues 0);
  handleFrame [] 0 (subscribeFrame "t" "c" 0 "r1") (connect w).

(** A queue size that [make(chan Message, n)] accepts. *)
Definition queueFits (w : World) : Prop :=
  0 <= subscriberQueueSize w <= makechanLimit.

#[global] Instance queueFits_dec (w : World) : Decision (queueFits w).
Proof. unfold queueFits. apply _. Defined.

(** The state in which [make] has returned and the new subscriber has been
    allocated, with its queue empty. *)
Definition allocated (cid : string) (c : nat) (w : World) : World :=
  setHeap (heap w ++ [Sub.mkSubscriber cid (makeChan (Z.to_nat (subscriberQueueSize w)))
                        c (makeChan 0)]) w.

(** ** Definitions used to state the further properties *)

(** A ring buffer as [NewRingBuffer] and [Add] leave it: a positive
    capacity, a slice of that length, and [next] inside it. *)
Definition ringWf (r : Ring.RingBuffer) : Prop :=
  0 < Ring.size r /\
  Z.of_nat (length (Ring.data r)) = Ring.size r /\
  0 <= Ring.next r < Ring.size r.

(** The number of messages a ring buffer holds. *)
Definition stored (r : Ring.RingBuffer) : Z :=
  if Ring.full r then Ring.size r else Ring.next r.

(** What holds of every subscriber the code has made: nothing was sent on
    its closed-signal; its send queue is closed only if its closed-signal
    has fired; the queue holds no more than its capacity; its socket is one
    of the accepted ones. *)
Definition subscriberOk (w : World) (s : Sub.Subscriber) : Prop :=
  buf (Sub.closed s) = [] /\
  (isClosed (Sub.send s) = true -> isClosed (Sub.closed s) = true) /\
  (length (buf (Sub.send s)) <= cap (Sub.send s))%nat /\
  (Sub.conn s < length (conns w))%nat.

(** What holds of every registered topic: it is registered under its own
    name, its ring buffer is well formed, and each client id is bound to an
    allocated subscriber that carries this client id. *)
Definition topicOk (w : World) (nm : string) (t : Topic) : Prop :=
  name t = nm /\ ringWf (history t) /\
  forall k p, subscribers t !! k = Some p ->
    exists s, heap w !! p = Some s /\ Sub.id s = k.

Definition consistent (w : World) : Prop :=
  (forall p s, heap w !! p = Some s -> subscriberOk w s) /\
  (forall nm t, topics (globalTopics w) !! nm = Some t -> topicOk w nm t).

(** A run that returned a consistent state, or stopped on a send on a
    closed channel; no other fault. *)
Definition sound (r : Result World) : Prop :=
  match r with
  | Ok w' => consistent w'
  | Panic e => e = SendOnClosedChannel
  end.

(** The states of the process: start-up, then any sequence of accepted
    sockets, REST requests on /topics, frames read from accepted sockets,
    turns of the writer of an allocated subscriber, and cleanups of
    sessions, each of which returned. *)
Inductive reachable : World -> Prop :=
| reach_start (env : gmap string string) (now : Z) :
    reachable (initWorld env now)
| reach_accept (w : World) :
    reachable w -> reachable (accept w).2
| reach_collection (w w' : World) (ks : list string) (method : string) (req : Decoded)
    (resp : Response) :
    reachable w ->
    topicsCollectionHandler ks method req w = Ok (resp, w') -> reachable w'
| reach_item (w w' : World) (ks : list string) (method path : string)
    (resp : ItemResponse) :
    reachable w ->
    topicsItemHandler ks method path w = Ok (resp, w') -> reachable w'
| reach_frame (w w' : World) (ks : list string) (c : nat) (inp : In.ClientToServer) :
    reachable w -> (c < length (conns w))%nat ->
    handleFrame ks c inp w = Ok w' -> reachable w'
| reach_writer (w w' : World) (ctxDone writeFails goesOn : bool) (topicName : string)
    (p : nat) :
    reachable w ->
    subscriberWriteStep ctxDone writeFails topicName p w = Ok (goesOn, w') -> reachable w'
| reach_cleanup (w w' : World) (cks : list string) (c : nat) :
    reachable w -> (c < length (conns w))%nat ->
    sessionCleanup cks c ∅ w = Ok w' -> reachable w'.

(** The byte [a] occurs in [s]. *)
Fixpoint contains (a : ascii) (s : string) : bool :=
  match s with
  | EmptyString => false
  | String b rest => Ascii.eqb b a || contains a rest
  end.

(** The topics "a" and "a/b" have been created. *)
Definition slashTopics : Result World :=
  w ← postTopic "a" (initWorld ∅ 0);
  postTopic "a/b" w.

Definition unsubscribeFrame (topic cid rid : string) : In.ClientToServer :=
  In.mkClientToServer "unsubscribe" topic None cid 0 rid.

(** The frames that answer a request [inp]. *)
Definition ackOf (inp : In.ClientToServer) : Out.ServerToClient :=
  ackFrame (In.RequestID inp) (In.Topic inp).
Definition notFoundOf (inp : In.ClientToServer) : Out.ServerToClient :=
  errorFrame (In.RequestID inp) "TOPIC_NOT_FOUND" "topic not found".

(** The subscriber [s] with the queue [q] in place of its own, capacity and
    closedness kept. *)
Definition withQueue (q : list Message) (s : Sub.Subscriber) : Sub.Subscriber :=
  Sub.mkSubscriber (Sub.id s)
    (mkChan q (cap (Sub.send s)) (isClosed (Sub.send s)))
    (Sub.conn s) (Sub.closed s).

(** The writes of the event frames for the messages [ms] of topic [nm]. *)
Definition eventsOf (nm : string) (ms : list Message) : list ConnEvent :=
  (fun m => EvWrite (eventFrame nm m)) <$> ms.

(** SUBSCRIBER_QUEUE_SIZE set to the largest [int]: topic "t" exists and a
    socket has been accepted. *)
Definition hugeQueues : gmap string string :=
  {[ "SUBSCRIBER_QUEUE_SIZE" := "9223372036854775807" ]}.
Definition hugeQueueTopic : Result World :=
  w ← postTopic "t" (initWorld hugeQueues 0);
  Ok (connect w).

(** Queues of the default size: topic "t" exists, socket 0 has published
    "1" and "2" on it, and socket 1 has been accepted. *)
Definition twoKept : Result World :=
  w ← postTopic "t" (initWorld ∅ 0);
  w ← handleFrame [] 0 (publishFrame "t" (msg "1") "p1") (connect w);
  w ← handleFrame [] 0 (publishFrame "t" (msg "2") "p2") w;
  Ok (connect w).

(** Then socket 1 subscribes client "a" with [last_n = 2]: both messages
    wait in its queue. *)
Definition twoQueued : Result World :=
  w ← twoKept;
  handleFrame [] 1 (subscribeFrame "t" "a" 2 "r1") w.
(** ** Basic facts *)

Lemma bind_Ok {A B} (f : A -> Result B) (r : Result A) (b : B) :
  r ≫= f = Ok b -> exists a, r = Ok a /\ f a = Ok b.
Proof. destruct r as [a|e]; simpl; [eauto | discriminate]. Qed.

Lemma Ok_bind {A B} (f : A -> Result B) (a : A) : Ok a ≫= f = f a.
Proof. reflexivity. Qed.

(** ** The ring buffer *)

Section RingBufferFacts.

Import Ring.

Lemma holds_new (N : Z) :
  0 < N -> exists r, NewRingBuffer N = Ok r /\ holds N [] r.
Proof.
  intros HN. unfold NewRingBuffer.
  destruct (Z.ltb_spec N 0) as [?|_]; [lia|].
  eexists; split; [reflexivity|].
  constructor; simpl; try done.
  - rewrite length_replicate. lia.
  - symmetry. apply Z.leb_gt. lia.
  - intros i Hi [_ Hlt]. lia.
Qed.

Lemma mod_differs (N i k : Z) :
  0 < N -> 0 <= i -> i < k -> k - i < N -> i mod N <> k mod N.
Proof.
  intros HN Hi Hik Hd Heq.
  assert (H : (k - i) mod N = 0).
  { rewrite Zminus_mod, Heq, Z.sub_diag. apply Z.mod_0_l. lia. }
  rewrite Z.mod_small in H by lia. lia.
Qed.

Lemma holds_Add (N : Z) (ms : list Message) (m : Message) (r : RingBuffer) :
  holds N ms r -> exists r', Add m r = Ok r' /\ holds N (ms ++ [m]) r'.
Proof.
  intros [HN Hsz Hlen Hnx Hfull Hslot].
  set (k := Z.of_nat (length ms)) in *.
  assert (Hk : 0 <= k) by (unfold k; lia).
  assert (Hrange : 0 <= k mod N < N) by (apply Z.mod_pos_bound; lia).
  unfold Add, assign, goRem. rewrite Hnx, Hsz, Hlen.
  destruct (Z.ltb_spec (k mod N) 0) as [?|_]; [lia|].
  destruct (Z.leb_spec N (k mod N)) as [?|_]; [lia|].
  destruct (Z.eqb_spec N 0) as [?|_]; [lia|].
  simpl. eexists; split; [reflexivity|].
  assert (Hnext : Z.rem (k mod N + 1) N = (k + 1) mod N).
  { rewrite Z.rem_mod_nonneg by lia. rewrite Zplus_mod_idemp_l. reflexivity. }
  assert (Hk1 : Z.of_nat (length (ms ++ [m])) = k + 1).
  { rewrite length_app. simpl. unfold k. lia. }
  constructor; simpl; try done.
  - rewrite length_insert. exact Hlen.
  - rewrite Hk1. exact Hnext.
  - rewrite Hk1, Hnext.
    destruct (Z.eqb_spec ((k + 1) mod N) 0) as [H0|H0].
    + symmetry. apply Z.leb_le.
      destruct (Z.lt_ge_cases (k + 1) N) as [Hlt|?]; [|lia].
      rewrite Z.mod_small in H0 by lia. lia.
    + rewrite Hfull.
      destruct (Z.leb_spec N k), (Z.leb_spec N (k + 1)); try reflexivity; try lia.
      assert (HkN : N = k + 1) by lia. rewrite HkN, Z_mod_same_full in H0. done.
  - intros i Hi. rewrite Hk1. intros [Hlo Hhi].
    destruct (Z.eq_dec i k) as [->|Hne].
    + rewrite list_lookup_insert_eq by lia.
      rewrite lookup_app_r by (unfold k; lia).
      replace (Z.to_nat k - length ms)%nat with 0%nat by (unfold k; lia). done.
    + rewrite list_lookup_insert_ne.
      * rewrite lookup_app_l by (unfold k in *; lia).
        apply Hslot; lia.
      * intros Heq. apply (mod_differs N i k); try lia.
        apply Z2Nat.inj in Heq; try lia.
        apply Z.mod_pos_bound; lia.
Qed.

Lemma holds_AddAll (N : Z) (ms pre : list Message) (r : RingBuffer) :
  holds N pre r -> exists r', AddAll ms r = Ok r' /\ holds N (pre ++ ms) r'.
Proof.
  revert pre r. induction ms as [|m ms IH]; intros pre r H; simpl.
  - exists r. rewrite app_nil_r. done.
  - destruct (holds_Add N pre m r H) as (r1 & -> & H1). simpl.
    destruct (IH _ _ H1) as (r2 & -> & H2).
    exists r2. rewrite <- app_assoc in H2. done.
Qed.

Lemma copyRange_spec (d : list Message) (cnt : nat) :
  forall (from : Z) (out l : list Message),
    0 <= from -> length l = cnt ->
    (forall j : nat, (j < cnt)%nat -> d !! (Z.to_nat from + j)%nat = l !! j) ->
    copyRange d from cnt out = Ok (out ++ l).
Proof.
  induction cnt as [|cnt IH]; intros from out l Hfrom Hlen Hl; simpl.
  - destruct l; [|done]. by rewrite app_nil_r.
  - destruct l as [|x l]; [done|].
    unfold index. destruct (Z.ltb_spec from 0) as [?|_]; [lia|].
    specialize (Hl 0%nat ltac:(lia)) as H0. rewrite Nat.add_0_r in H0.
    rewrite H0. simpl.
    rewrite (IH (from + 1) (out ++ [x]) l); [|lia|simpl in Hlen; lia|].
    + by rewrite <- app_assoc.
    + intros j Hj. specialize (Hl (S j) ltac:(lia)). simpl in Hl.
      rewrite <- Hl. f_equal. lia.
Qed.

Lemma copyWrapped_spec (d : list Message) (sz start : Z) (cnt : nat) :
  forall (i : Z) (out l : list Message),
    0 < sz -> 0 <= start + i -> length l = cnt ->
    (forall j : nat, (j < cnt)%nat ->
       d !! Z.to_nat ((start + i + Z.of_nat j) mod sz) = l !! j) ->
    copyWrapped d sz start i cnt out = Ok (out ++ l).
Proof.
  induction cnt as [|cnt IH]; intros i out l Hsz Hi Hlen Hl; simpl.
  - destruct l; [|done]. by rewrite app_nil_r.
  - destruct l as [|x l]; [done|].
    unfold goRem. destruct (Z.eqb_spec sz 0) as [?|_]; [lia|]. simpl.
    rewrite Z.rem_mod_nonneg by lia.
    unfold index.
    destruct (Z.ltb_spec ((start + i) mod sz) 0) as [Hneg|_].
    { pose proof (Z.mod_pos_bound (start + i) sz Hsz). lia. }
    specialize (Hl 0%nat ltac:(lia)) as H0. simpl in H0. rewrite Z.add_0_r in H0.
    rewrite H0. simpl.
    rewrite (IH (i + 1) (out ++ [x]) l); [|lia|lia|simpl in Hlen; lia|].
    + by rewrite <- app_assoc.
    + intros j Hj. specialize (Hl (S j) ltac:(lia)). simpl in Hl.
      rewrite <- Hl. do 3 f_equal. lia.
Qed.

Lemma holds_LastN (N : Z) (ms : list Message) (r : RingBuffer) (n : Z) :
  holds N ms r ->
  LastN n r =
    Ok (lastMessages (Z.to_nat (Z.min n (Z.min (Z.of_nat (length ms)) N))) ms).
Proof.
  intros [HN Hsz Hlen Hnx Hfull Hslot].
  set (k := Z.of_nat (length ms)) in *.
  assert (Hk : 0 <= k) by (unfold k; lia).
  unfold LastN, lastMessages. rewrite Hsz.
  destruct (Z.leb_spec n 0) as [Hn|Hn]; simpl.
  { replace (Z.to_nat (n `min` (k `min` N))) with 0%nat by lia.
    rewrite Nat.sub_0_r, drop_all. done. }
  destruct (Z.eqb_spec N 0) as [?|_]; [lia|].
  rewrite Hfull. destruct (Z.leb_spec N k) as [Hfl|Hfl]; simpl.
  - (* the buffer has wrapped *)
    set (c := if n >? N then N else n).
    assert (Hc : c = n `min` (k `min` N)).
    { unfold c. destruct (Z.gtb_spec n N); lia. }
    assert (Hc0 : 0 < c <= N) by lia.
    unfold goRem. destruct (Z.eqb_spec N 0) as [?|_]; [lia|]. simpl.
    rewrite Hnx. rewrite <- Hc.
    assert (Hmod : 0 <= k mod N < N) by (apply Z.mod_pos_bound; lia).
    rewrite Z.rem_mod_nonneg by lia.
    rewrite (copyWrapped_spec _ _ _ _ 0 [] (drop (length ms - Z.to_nat c) ms)); try done.
    + pose proof (Z.mod_pos_bound (k mod N - c + N) N HN). lia.
    + rewrite length_drop. unfold k in *. lia.
    + intros j Hj. rewrite lookup_drop.
      replace ((k mod N - c + N) mod N + 0 + Z.of_nat j)
        with ((k mod N - c + N) mod N + Z.of_nat j) by lia.
      rewrite Zplus_mod_idemp_l.
      replace (k mod N - c + N + Z.of_nat j)
        with (k mod N + (N - c + Z.of_nat j)) by lia.
      rewrite Zplus_mod_idemp_l.
      replace (k + (N - c + Z.of_nat j)) with (k - c + Z.of_nat j + 1 * N) by lia.
      rewrite Z_mod_plus_full.
      rewrite Hslot by (unfold k in *; lia).
      f_equal. unfold k in *. lia.
  - (* not yet wrapped *)
    rewrite Hnx, Z.mod_small by lia.
    set (c := if n >? k then k else n).
    assert (Hc : c = n `min` (k `min` N)).
    { unfold c. destruct (Z.gtb_spec n k); lia. }
    rewrite <- Hc.
    assert (Hc0 : 0 <= c <= k) by lia.
    rewrite (copyRange_spec _ _ _ [] (drop (length ms - Z.to_nat c) ms)); try done.
    + lia.
    + rewrite length_drop. unfold k in *. lia.
    + intros j Hj. rewrite lookup_drop.
      specialize (Hslot (k - c + Z.of_nat j) ltac:(lia) ltac:(lia)).
      rewrite Z.mod_small in Hslot by lia.
      replace (Z.to_nat (k - c) + j)%nat with (Z.to_nat (k - c + Z.of_nat j)) by lia.
      rewrite Hslot. f_equal. unfold k in *. lia.
Qed.

End RingBufferFacts.

(** C4.  After the messages [msgs] have been added, in this order, to a new
    ring buffer of capacity [N], [LastN n] returns the
    [min n (min (length msgs) N)] most recent of them, oldest first, and
    nothing when [n <= 0].  The run of [Add] calls only fails to complete
    for a negative capacity, or for capacity 0 with a message to add. *)
Theorem LastN_after_Adds (N : Z) (msgs : list Message) (n : Z) :
  match Ring.NewRingBuffer N ≫= Ring.AddAll msgs with
  | Ok r =>
      Ring.LastN n r =
        Ok (lastMessages (Z.to_nat (Z.min n (Z.min (Z.of_nat (length msgs)) N))) msgs)
  | Panic _ => N < 0 \/ (N = 0 /\ msgs <> [])
  end.
Proof.
  destruct (Z.lt_trichotomy N 0) as [Hneg|[->|Hpos]].
  - unfold Ring.NewRingBuffer. destruct (Z.ltb_spec N 0); [|lia]. simpl. by left.
  - destruct msgs as [|m msgs]; simpl.
    + unfold Ring.LastN. simpl. rewrite orb_true_r. by destruct (Z.to_nat _).
    + right. done.
  - destruct (holds_new N Hpos) as (r0 & -> & H0). simpl.
    destruct (holds_AddAll N msgs [] r0 H0) as (r & -> & H). simpl in H.
    by apply holds_LastN.
Qed.

(** ** Closing a subscriber *)

Lemma Close_closed (p : nat) (w : World) (s : Sub.Subscriber) :
  heap w !! p = Some s -> tryRecv (Sub.closed s) <> WouldBlock -> Close p w = Ok w.
Proof.
  intros Hp Hr. unfold Close, deref. rewrite Hp. simpl.
  destruct (tryRecv (Sub.closed s)); done.
Qed.

Lemma Close_live (p : nat) (w : World) (s : Sub.Subscriber) :
  heap w !! p = Some s -> live s ->
  Close p w =
    Ok (connClose (Sub.conn s) StatusNormalClosure "subscriber closed"
          (store p (closedOnce s) w)).
Proof.
  intros Hp [Hc Hs]. unfold Close, deref. rewrite Hp. simpl.
  rewrite Hc. simpl. unfold closeChan. rewrite Hs. reflexivity.
Qed.

(** A [Close] that returns leaves a state on which [Close] changes nothing. *)
Lemma Close_again (p : nat) (w w' : World) :
  Close p w = Ok w' -> Close p w' = Ok w'.
Proof.
  unfold Close at 1, deref. destruct (heap w !! p) as [s|] eqn:Hp; [|done]. simpl.
  destruct (tryRecv (Sub.closed s)) eqn:Hr.
  - intros [= <-]. apply (Close_closed p w s Hp). by rewrite Hr.
  - intros [= <-]. apply (Close_closed p w s Hp). by rewrite Hr.
  - unfold closeChan.
    destruct (isClosed (Sub.closed s)) eqn:Hc; [done|]. simpl.
    destruct (isClosed (Sub.send s)) eqn:Hs; [done|]. simpl.
    intros [= <-].
    unfold tryRecv in Hr. destruct (buf (Sub.closed s)) eqn:Hb; [|done].
    eapply Close_closed.
    + simpl. apply list_lookup_insert_eq. by eapply lookup_lt_Some.
    + simpl. unfold tryRecv. simpl. done.
Qed.

Lemma CloseTimes_fixed (n : nat) (p : nat) (w : World) :
  Close p w = Ok w -> CloseTimes n p w = Ok w.
Proof.
  intros H. induction n as [|n IH]; simpl; [done|]. rewrite H. simpl. exact IH.
Qed.

(** C8.  Any number of [Close] calls in a row, at least one, leaves the
    state that a single [Close] leaves; and on a subscriber that has not
    been closed that state is the one in which the closed-signal and the
    send queue have each been closed and the socket has been closed with
    one normal-closure call. *)
Theorem Close_idempotent (n : nat) (p : nat) (w : World) :
  CloseTimes (S n) p w = Close p w /\
  forall s, heap w !! p = Some s -> live s ->
    CloseTimes (S n) p w =
      Ok (connClose (Sub.conn s) StatusNormalClosure "subscriber closed"
            (store p (closedOnce s) w)).
Proof.
  assert (H : CloseTimes (S n) p w = Close p w).
  { simpl. destruct (Close p w) as [w'|e] eqn:Hc; [|done]. simpl.
    apply CloseTimes_fixed. by eapply Close_again. }
  split; [exact H|].
  intros s Hp Hl. rewrite H. by apply Close_live.
Qed.

(** ** Graceful shutdown *)

Lemma CloseGracefully_inv (expiry p : nat) (w w' : World) :
  CloseGracefully expiry p w = Ok w' ->
  exists s, heap w !! p = Some s /\ isClosed (Sub.closed s) = false /\
    w' = store p (Sub.mkSubscriber (Sub.id s) (drain expiry (Sub.send s)) (Sub.conn s)
                    (mkChan (buf (Sub.closed s)) (cap (Sub.closed s)) true)) w.
Proof.
  unfold CloseGracefully, deref. destruct (heap w !! p) as [s|] eqn:Hp; [|done]. simpl.
  unfold closeChan. destruct (isClosed (Sub.closed s)) eqn:Hc; [done|]. simpl.
  intros [= <-]. exists s. done.
Qed.

Lemma CloseGracefully_keeps (expiry p : nat) (w w' : World) :
  CloseGracefully expiry p w = Ok w' ->
  ~ wasClosed p w /\
  (forall q, wasClosed q w -> wasClosed q w') /\
  globalTopics w' = globalTopics w.
Proof.
  intros H. destruct (CloseGracefully_inv _ _ _ _ H) as (s & Hp & Hc & ->).
  split; [|split]; [| |done].
  - intros (s' & Hp' & Hc'). congruence.
  - intros q (s' & Hq & Hc'). unfold wasClosed. simpl.
    destruct (decide (q = p)) as [->|Hne]; [congruence|].
    exists s'. rewrite list_lookup_insert_ne by done. done.
Qed.

Lemma closeEachGracefully_keeps (expiry : nat) (ks : list string) (subs : gmap string nat) :
  forall w w', closeEachGracefully expiry ks subs w = Ok w' ->
  (forall k p, k ∈ ks -> subs !! k = Some p -> ~ wasClosed p w) /\
  (forall q, wasClosed q w -> wasClosed q w') /\
  globalTopics w' = globalTopics w.
Proof.
  induction ks as [|k ks IH]; intros w w' H; simpl in H.
  - injection H as <-. split; [|done]. intros k p Hk. by apply not_elem_of_nil in Hk.
  - destruct (subs !! k) as [p|] eqn:Hk.
    + apply bind_Ok in H as (w1 & H1 & H2).
      destruct (CloseGracefully_keeps _ _ _ _ H1) as (Hp & Hmono & Htop).
      destruct (IH _ _ H2) as (Hrest & Hmono' & Htop').
      split; [|split].
      * intros k' p' Hin Hk'. apply elem_of_cons in Hin as [->|Hin].
        -- congruence.
        -- intros Hcl. by apply (Hrest k' p' Hin Hk'), Hmono.
      * intros q Hq. by apply Hmono', Hmono.
      * congruence.
    + destruct (IH _ _ H) as (Hrest & Hmono' & Htop').
      split; [|done].
      intros k' p' Hin Hk'. apply elem_of_cons in Hin as [->|Hin]; [congruence|].
      by apply (Hrest k' p').
Qed.

Lemma CloseAllGracefullyFrom_keeps (expiry : nat) (sks : string -> list string)
    (tks : list string) :
  forall w w', CloseAllGracefullyFrom expiry tks sks w = Ok w' ->
  forall nm t k p,
    nm ∈ tks -> topics (globalTopics w) !! nm = Some t ->
    k ∈ sks nm -> subscribers t !! k = Some p -> ~ wasClosed p w.
Proof.
  induction tks as [|nm0 tks IH]; intros w w' H nm t k p Hnm Ht Hk Hp; simpl in H.
  - by apply not_elem_of_nil in Hnm.
  - destruct (topics (globalTopics w) !! nm0) as [t0|] eqn:Ht0.
    + apply bind_Ok in H as (w1 & H1 & H2).
      destruct (closeEachGracefully_keeps _ _ _ _ _ H1) as (Hhere & Hmono & Htop).
      apply elem_of_cons in Hnm as [->|Hnm].
      * assert (t0 = t) as -> by congruence. by eapply Hhere.
      * intros Hcl. apply (IH _ _ H2 nm t k p); try done.
        -- by rewrite Htop.
        -- by apply Hmono.
    + apply elem_of_cons in Hnm as [->|Hnm]; [congruence|].
      by eapply IH.
Qed.

(** C10.  Once the closed-signal of a subscriber has fired (which is what
    both [Close] and [CloseGracefully] do first), [CloseGracefully] on it
    panics on closing the closed channel; and [CloseAllGracefully] does not
    return normally when such a subscriber is registered on a topic that
    the shutdown visits. *)
Theorem CloseGracefully_on_closed (expiry : nat) (p : nat) (w : World) :
  wasClosed p w ->
  CloseGracefully expiry p w = Panic CloseOfClosedChannel /\
  forall tks sks nm t k,
    nm ∈ tks -> topics (globalTopics w) !! nm = Some t ->
    k ∈ sks nm -> subscribers t !! k = Some p ->
    exists e, CloseAllGracefully expiry tks sks w = Panic e.
Proof.
  intros Hcl. split.
  - destruct Hcl as (s & Hp & Hc).
    unfold CloseGracefully, deref. rewrite Hp. simpl.
    unfold closeChan. by rewrite Hc.
  - intros tks sks nm t k Hnm Ht Hk Hp. unfold CloseAllGracefully.
    destruct (CloseAllGracefullyFrom expiry tks sks w) as [w'|e] eqn:H; [|by exists e].
    exfalso. by eapply (CloseAllGracefullyFrom_keeps _ _ _ _ _ H nm t k p).
Qed.

(** ** Publishing *)

Lemma connLog_connWrite (c c' : nat) (f : Out.ServerToClient) (w : World) (ev : ConnEvent) :
  ev ∈ connLog c w -> ev ∈ connLog c (connWrite c' f w).
Proof.
  unfold connLog, connWrite. simpl. rewrite list_lookup_alter.
  case_decide as Hc; [subst c'|done].
  destruct (conns w !! c); simpl; [|done]. intros H. apply elem_of_app. by left.
Qed.

Lemma connLog_connClose (c c' : nat) (st : Z) (rs : string) (w : World) (ev : ConnEvent) :
  ev ∈ connLog c w -> ev ∈ connLog c (connClose c' st rs w).
Proof.
  unfold connLog, connClose. simpl. rewrite list_lookup_alter.
  case_decide as Hc; [subst c'|done].
  destruct (conns w !! c); simpl; [|done]. intros H. apply elem_of_app. by left.
Qed.

Lemma connLog_connWrite_new (c : nat) (f : Out.ServerToClient) (w : World) :
  (c < length (conns w))%nat -> EvWrite f ∈ connLog c (connWrite c f w).
Proof.
  intros Hc. unfold connLog, connWrite. simpl. rewrite list_lookup_alter_eq.
  destruct (lookup_lt_is_Some_2 _ _ Hc) as [tr ->]. simpl.
  apply elem_of_app. right. by apply list_elem_of_singleton.
Qed.

(** What a returning [Close] leaves alone. *)
Lemma Close_frame (p : nat) (w w' : World) :
  Close p w = Ok w' ->
  globalTopics w' = globalTopics w /\
  length (heap w') = length (heap w) /\
  length (conns w') = length (conns w) /\
  (forall q, q <> p -> heap w' !! q = heap w !! q) /\
  (forall c ev, ev ∈ connLog c w -> ev ∈ connLog c w').
Proof.
  unfold Close, deref. destruct (heap w !! p) as [s|] eqn:Hp; [|done]. simpl.
  destruct (tryRecv (Sub.closed s)).
  1,2: intros [= <-]; done.
  destruct (closeChan (Sub.closed s)) as [cl|]; [|done]. simpl.
  destruct (closeChan (Sub.send s)) as [sd|]; [|done]. simpl.
  intros [= <-]. simpl. split; [done|]. split; [by rewrite length_insert|].
  split; [by rewrite length_alter|]. split.
  - intros q Hq. by rewrite list_lookup_insert_ne.
  - intros c ev Hev.
    by apply (connLog_connClose c (Sub.conn s) _ _ (store p _ w)).
Qed.

(** [Close] on a subscriber that can be served returns, with the
    closed-signal fired. *)
Lemma Close_servable (p : nat) (w : World) (s : Sub.Subscriber) :
  heap w !! p = Some s -> isClosed (Sub.send s) = false -> buf (Sub.closed s) = [] ->
  exists w', Close p w = Ok w' /\ wasClosed p w'.
Proof.
  intros Hp Hs Hb. unfold Close, deref. rewrite Hp. simpl.
  unfold tryRecv. rewrite Hb.
  destruct (isClosed (Sub.closed s)) eqn:Hc.
  - exists w. split; [done|]. by exists s.
  - unfold closeChan. rewrite Hc, Hs. simpl. eexists; split; [reflexivity|].
    eexists. simpl. split; [apply list_lookup_insert_eq; by eapply lookup_lt_Some|done].
Qed.

Lemma distinctSubscribers_inj (subs : gmap string nat) (k1 k2 : string) (p : nat) :
  distinctSubscribers subs -> subs !! k1 = Some p -> subs !! k2 = Some p -> k1 = k2.
Proof.
  unfold distinctSubscribers. intros Hnd H1 H2.
  apply elem_of_map_to_list, list_elem_of_lookup in H1 as [i Hi].
  apply elem_of_map_to_list, list_elem_of_lookup in H2 as [j Hj].
  assert (i = j) as ->.
  { eapply (NoDup_lookup _ i j p Hnd); rewrite list_lookup_fmap.
    - by rewrite Hi. - by rewrite Hj. }
  congruence.
Qed.

Lemma servable_frame (w w1 : World) (q : nat) :
  heap w1 !! q = heap w !! q -> length (conns w1) = length (conns w) ->
  servable w q -> servable w1 q.
Proof. unfold servable. intros -> ->. done. Qed.

Lemma fanout_spec (m : Message) (ks : list string) :
  forall (subs : gmap string nat) (w : World),
    NoDup ks ->
    (forall k p, k ∈ ks -> subs !! k = Some p -> servable w p) ->
    injective subs ->
    exists subs' w',
      fanout ks m subs w = Ok (subs', w') /\
      globalTopics w' = globalTopics w /\
      length (heap w') = length (heap w) /\
      length (conns w') = length (conns w) /\
      (forall k, k ∉ ks -> subs' !! k = subs !! k) /\
      (forall q, (forall k, k ∈ ks -> subs !! k <> Some q) -> heap w' !! q = heap w !! q) /\
      (forall c ev, ev ∈ connLog c w -> ev ∈ connLog c w') /\
      (forall k p s, k ∈ ks -> subs !! k = Some p -> heap w !! p = Some s ->
         served m k p s subs' w').
Proof.
  induction ks as [|k ks IH]; intros subs w Hnd Hserv Hinj.
  { exists subs, w. simpl. repeat split; try done.
    intros k p s Hk. by apply not_elem_of_nil in Hk. }
  apply NoDup_cons in Hnd as [Hk Hnd]. simpl.
  destruct (subs !! k) as [p|] eqn:Hp.
  2: { (* nothing registered under [k] *)
    destruct (IH subs w Hnd) as (subs' & w' & -> & Ht & Hh & Hc & Hfr & Hhf & Hlog & Hout);
      [intros; eapply (Hserv k0); [by apply elem_of_cons; right|done] | done |].
    exists subs', w'. repeat split; try done.
    - intros k0 Hk0. apply Hfr. intros ?. apply Hk0, elem_of_cons. by right.
    - intros q Hq. apply Hhf. intros k0 Hk0. apply Hq, elem_of_cons. by right.
    - intros k0 p0 s0 Hk0 Hp0 Hs0. apply elem_of_cons in Hk0 as [->|Hk0]; [congruence|].
      by apply Hout. }
  assert (Hother : forall k0 p0, k0 ∈ ks -> subs !! k0 = Some p0 -> p0 <> p).
  { intros k0 p0 Hk0 Hp0 ->. assert (k0 = k) as -> by by eapply Hinj. done. }
  pose proof (Hserv k p ltac:(by apply elem_of_cons; left) Hp) as Hsv.
  unfold servable in Hsv. unfold deref.
  destruct (heap w !! p) as [s|] eqn:Hs; [|done]. destruct Hsv as (Hopen & Hbuf & Hconn).
  simpl. unfold trySend. rewrite Hopen.
  destruct (length (buf (Sub.send s)) <? cap (Sub.send s))%nat eqn:Hfree; simpl.
  - (* a free slot: the message is queued *)
    set (s1 := Sub.mkSubscriber _ _ _ _).
    destruct (IH subs (store p s1 w) Hnd)
      as (subs' & w' & -> & Ht & Hh & Hc & Hfr & Hhf & Hlog & Hout); [|done|].
    { intros k0 p0 Hk0 Hp0. apply (servable_frame w); [|done|].
      - simpl. apply list_lookup_insert_ne. intros ->. by eapply Hother.
      - apply (Hserv k0); [by apply elem_of_cons; right|done]. }
    assert (Hp' : heap w' !! p = Some s1).
    { rewrite Hhf.
      - simpl. apply list_lookup_insert_eq. by eapply lookup_lt_Some.
      - intros k0 Hk0 Hp0. by eapply Hother. }
    exists subs', w'. split; [done|]. split; [done|].
    split; [by rewrite Hh; simpl; rewrite length_insert|]. split; [done|].
    split; [|split; [|split]].
    + intros k0 Hk0. apply Hfr. intros ?. apply Hk0, elem_of_cons. by right.
    + intros q Hq. rewrite Hhf.
      * simpl. apply list_lookup_insert_ne. intros ->.
        by apply (Hq k); [apply elem_of_cons; left|].
      * intros k0 Hk0. apply Hq, elem_of_cons. by right.
    + done.
    + intros k0 p0 s0 Hk0 Hp0 Hs0. apply elem_of_cons in Hk0 as [->|Hk0].
      * assert (p0 = p) as -> by congruence. assert (s0 = s) as -> by congruence.
        unfold served, atCapacity. rewrite Hfree. simpl.
        split; [by rewrite Hfr|]. exists s1. done.
      * apply Hout; try done. simpl.
        rewrite list_lookup_insert_ne; [done|]. intros <-. by eapply Hother.
  - (* the queue is full: the subscriber is evicted *)
    set (w1 := connWrite (Sub.conn s) slowConsumerFrame w).
    destruct (Close_servable p w1 s Hs Hopen Hbuf) as (w2 & HCl & Hcl2).
    rewrite HCl. simpl.
    destruct (Close_frame _ _ _ HCl) as (Ht2 & Hh2 & Hc2 & Hhf2 & Hlog2).
    assert (Hinj' : injective (delete k subs)).
    { intros k1 k2 q H1 H2. apply lookup_delete_Some in H1 as [_ H1].
      apply lookup_delete_Some in H2 as [_ H2]. by eapply Hinj. }
    destruct (IH (delete k subs) w2 Hnd)
      as (subs' & w' & -> & Ht & Hh & Hc & Hfr & Hhf & Hlog & Hout); [|done|].
    { intros k0 p0 Hk0 Hp0. apply lookup_delete_Some in Hp0 as [Hne Hp0].
      apply (servable_frame w).
      - rewrite Hhf2; [done|]. by eapply Hother.
      - rewrite Hc2. unfold w1, connWrite. simpl. by rewrite length_alter.
      - apply (Hserv k0); [by apply elem_of_cons; right|done]. }
    assert (Hkeep : forall k0, k0 ∈ ks -> delete k subs !! k0 <> Some p).
    { intros k0 Hk0 Hp0. apply lookup_delete_Some in Hp0 as [_ Hp0]. by eapply Hother. }
    exists subs', w'. split; [done|]. split; [by rewrite Ht, Ht2|].
    split; [by rewrite Hh, Hh2|].
    split; [by rewrite Hc, Hc2; unfold w1, connWrite; simpl; rewrite length_alter|].
    split; [|split; [|split]].
    + intros k0 Hk0. rewrite Hfr.
      * apply lookup_delete_ne. intros ->. apply Hk0, elem_of_cons. by left.
      * intros ?. apply Hk0, elem_of_cons. by right.
    + intros q Hq. assert (q <> p).
      { intros ->. by apply (Hq k); [apply elem_of_cons; left|]. }
      rewrite Hhf.
      * by rewrite Hhf2.
      * intros k0 Hk0 Hp0. apply lookup_delete_Some in Hp0 as [_ Hp0].
        apply (Hq k0); [apply elem_of_cons; by right|done].
    + intros c ev Hev. by apply Hlog, Hlog2, connLog_connWrite.
    + intros k0 p0 s0 Hk0 Hp0 Hs0. apply elem_of_cons in Hk0 as [->|Hk0].
      * assert (p0 = p) as -> by congruence. assert (s0 = s) as -> by congruence.
        unfold served, atCapacity. rewrite Hfree. simpl.
        split; [by rewrite Hfr, lookup_delete_eq|]. split.
        -- destruct Hcl2 as (s2 & H2 & H2c). exists s2. by rewrite Hhf.
        -- apply Hlog, Hlog2. by apply connLog_connWrite_new.
      * assert (k0 <> k) by (by intros ->).
        assert (Hs0' : heap w2 !! p0 = Some s0).
        { rewrite Hhf2; [done|]. by eapply Hother. }
        apply (Hout k0 p0 s0 Hk0); [by rewrite lookup_delete_ne|done].
Qed.

Lemma Add_ready (m : Message) (r : Ring.RingBuffer) :
  ringReady r -> exists r', Ring.Add m r = Ok r'.
Proof.
  intros [[Hlo Hhi] Hsz]. unfold Ring.Add, Ring.assign, Ring.goRem.
  destruct (Z.ltb_spec (Ring.next r) 0) as [?|_]; [lia|].
  destruct (Z.leb_spec (Z.of_nat (length (Ring.data r))) (Ring.next r)) as [?|_]; [lia|].
  destruct (Z.eqb_spec (Ring.size r) 0) as [?|_]; [done|].
  simpl. eauto.
Qed.

Lemma rangeOrder_elem {V : Type} (ks : list string) (m : gmap string V) (k : string) (v : V) :
  rangeOrder ks m -> m !! k = Some v -> k ∈ ks.
Proof.
  intros [_ Hdom] Hk.
  apply (elem_of_list_to_set (C := gset string)). rewrite <- Hdom.
  apply elem_of_dom. by exists v.
Qed.

(** The fan-out where it works.  On a topic whose registered subscribers
    all have an open send queue, [publishToTopic] returns without error,
    and for every subscriber registered when it is called: if its queue was
    at capacity it has been written the SLOW_CONSUMER error frame, its
    closed-signal has fired and it is no longer in the topic's map;
    otherwise it is still registered and the message is at the back of its
    queue. *)
Theorem publish_serves_every_subscriber
    (ks : list string) (topicName : string) (m : Message) (w : World) (t : Topic) :
  topics (globalTopics w) !! topicName = Some t ->
  ringReady (history t) ->
  rangeOrder ks (subscribers t) ->
  allServable (subscribers t) w ->
  distinctSubscribers (subscribers t) ->
  exists w' t',
    publishToTopic ks topicName m w = Ok (None, w') /\
    topics (globalTopics w') !! topicName = Some t' /\
    forall k p s,
      subscribers t !! k = Some p -> heap w !! p = Some s ->
      served m k p s (subscribers t') w'.
Proof.
  intros Ht Hring Hord Hserv Hdist.
  unfold publishToTopic, GetTopic. rewrite Ht.
  destruct (Add_ready m _ Hring) as [h ->]. simpl.
  destruct (fanout_spec m ks (subscribers t) w)
    as (subs' & w' & -> & Htop & _ & _ & _ & _ & _ & Hout).
  - by destruct Hord.
  - intros k p _ Hk. by apply (map_Forall_lookup_1 _ _ _ _ Hserv Hk).
  - intros k1 k2 p. by apply distinctSubscribers_inj.
  - simpl. eexists _, _. split; [reflexivity|]. simpl.
    rewrite lookup_insert_eq. split; [reflexivity|]. simpl.
    intros k p s Hk Hs. apply Hout; [|done|done].
    by eapply rangeOrder_elem.
Qed.

Example fullAndFree_state :
  (w ← fullAndFree; Ok (heap w)) =
  Ok [ Sub.mkSubscriber "a" (mkChan [msg "1"] 1 false) 0 (makeChan 0);
       Sub.mkSubscriber "b" (mkChan [] 1 false) 1 (makeChan 0) ].
Proof. vm_compute. reflexivity. Qed.

Lemma publish_serves_every_subscriber_witness :
  exists w' t',
    publishToTopic ["a"; "b"] "t" (msg "2") (stateOf fullAndFree) = Ok (None, w') /\
    topics (globalTopics w') !! "t" = Some t' /\
    (subscribers t' !! "a" = None /\ wasClosed 0 w' /\
     EvWrite slowConsumerFrame ∈ connLog 0 w') /\
    (subscribers t' !! "b" = Some 1%nat /\
     exists s', heap w' !! 1%nat = Some s' /\
       buf (Sub.send s') = [msg "2"] /\ isClosed (Sub.send s') = false).
Proof.
  destruct (publish_serves_every_subscriber ["a"; "b"] "t" (msg "2") (stateOf fullAndFree)
              (topicOf "t" (stateOf fullAndFree)))
    as (w' & t' & Hpub & Ht & Hall).
  - vm_compute. reflexivity.
  - vm_compute. repeat split; discriminate.
  - apply (bool_decide_unpack _). vm_compute. exact I.
  - apply (bool_decide_unpack _). vm_compute. exact I.
  - apply (bool_decide_unpack _). vm_compute. exact I.
  - exists w', t'. split; [exact Hpub|]. split; [exact Ht|]. split.
    + apply (Hall "a" 0%nat (Sub.mkSubscriber "a" (mkChan [msg "1"] 1 false) 0 (makeChan 0)));
        vm_compute; reflexivity.
    + apply (Hall "b" 1%nat (Sub.mkSubscriber "b" (mkChan [] 1 false) 1 (makeChan 0)));
        vm_compute; reflexivity.
Defined.

Example closedAndLive_state :
  (w ← closedAndLive; Ok (heap w, subscribers (topicOf "t" w))) =
  Ok ([ Sub.mkSubscriber "a" (mkChan [msg "1"] 1 true) 1 (mkChan [] 0 true);
        Sub.mkSubscriber "b" (mkChan [] 1 false) 2 (makeChan 0) ],
      {[ "a" := 0%nat; "b" := 1%nat ]}).
Proof. vm_compute. reflexivity. Qed.

(** C3: the code at the failing input.  In the state [closedAndLive]
    topic "t" holds subscriber "a", whose queue is at capacity and whose
    send channel was closed by the replay overflow of its own subscribe
    (which, unlike the eviction in [publishToTopic] and the unsubscribe
    case, closes the subscriber without deleting it from the topic), and
    subscriber "b", whose queue is open and empty.  [publishToTopic] panics
    on the send to "a" in whichever order it visits the two: "a" is neither
    sent the SLOW_CONSUMER frame nor removed, "b" is not left with the
    message, and the call does not return. *)
Theorem publish_on_closed_subscriber_panics :
  let w := stateOf closedAndLive in
  let t := topicOf "t" w in
  topics (globalTopics w) !! "t" = Some t /\
  subscribers t = {[ "a" := 0%nat; "b" := 1%nat ]} /\
  heap w =
    [ Sub.mkSubscriber "a" (mkChan [msg "1"] 1 true) 1 (mkChan [] 0 true);
      Sub.mkSubscriber "b" (mkChan [] 1 false) 2 (makeChan 0) ] /\
  atCapacity (mkChan [msg "1"] 1 true) = true /\
  publishToTopic ["a"; "b"] "t" (msg "3") w = Panic SendOnClosedChannel /\
  publishToTopic ["b"; "a"] "t" (msg "3") w = Panic SendOnClosedChannel /\
  ~ (exists w' t',
       publishToTopic ["a"; "b"] "t" (msg "3") w = Ok (None, w') /\
       topics (globalTopics w') !! "t" = Some t' /\
       forall k p s, subscribers t !! k = Some p -> heap w !! p = Some s ->
                     served (msg "3") k p s (subscribers t') w').
Proof.
  cbv zeta.
  assert (H : publishToTopic ["a"; "b"] "t" (msg "3") (stateOf closedAndLive)
              = Panic SendOnClosedChannel) by (vm_compute; reflexivity).
  split; [vm_compute; reflexivity|]. split; [vm_compute; reflexivity|].
  split; [vm_compute; reflexivity|]. split; [reflexivity|].
  split; [exact H|]. split; [vm_compute; reflexivity|].
  intros (w' & t' & Hpub & _).
  exact (eq_ind (Panic SendOnClosedChannel)
           (fun r => match r with Ok _ => False | Panic _ => True end) I _
           (eq_trans (eq_sym H) Hpub)).
Qed.

(** ** Replay on subscribe *)

Lemma connLog_connWrite_eq (c : nat) (f : Out.ServerToClient) (w : World) :
  (c < length (conns w))%nat ->
  connLog c (connWrite c f w) = connLog c w ++ [EvWrite f].
Proof.
  intros Hc. unfold connLog, connWrite. simpl. rewrite list_lookup_alter_eq.
  by destruct (lookup_lt_is_Some_2 _ _ Hc) as [tr ->].
Qed.

Lemma connLog_connClose_eq (c : nat) (st : Z) (rs : string) (w : World) :
  (c < length (conns w))%nat ->
  connLog c (connClose c st rs w) = connLog c w ++ [EvClose st rs].
Proof.
  intros Hc. unfold connLog, connClose. simpl. rewrite list_lookup_alter_eq.
  by destruct (lookup_lt_is_Some_2 _ _ Hc) as [tr ->].
Qed.

Lemma connLog_store (c p : nat) (s : Sub.Subscriber) (w : World) :
  connLog c (store p s w) = connLog c w.
Proof. reflexivity. Qed.

Lemma store_store (p : nat) (s1 s2 : Sub.Subscriber) (w : World) :
  store p s2 (store p s1 w) = store p s2 w.
Proof. unfold store, setHeap. simpl. by rewrite list_insert_insert_eq. Qed.

Lemma store_same (p : nat) (s : Sub.Subscriber) (w : World) :
  heap w !! p = Some s -> store p s w = w.
Proof. intros H. destruct w. unfold store, setHeap. simpl in *. by rewrite list_insert_id. Qed.

Lemma heap_store (p : nat) (s s0 : Sub.Subscriber) (w : World) :
  heap w !! p = Some s0 -> heap (store p s w) !! p = Some s.
Proof. intros H. simpl. apply list_lookup_insert_eq. by eapply lookup_lt_Some. Qed.

(** The subscriber [s] with [ms] queued behind what its queue holds. *)
Lemma replay_fits (p : nat) (ms : list Message) :
  forall (w : World) (s : Sub.Subscriber),
    heap w !! p = Some s -> isClosed (Sub.send s) = false ->
    (length (buf (Sub.send s)) + length ms <= cap (Sub.send s))%nat ->
    replay p ms w = Ok (store p (queued ms s) w).
Proof.
  induction ms as [|m ms IH]; intros w s Hp Hopen Hlen; simpl.
  - rewrite store_same; [done|]. rewrite Hp. f_equal.
    destruct s as [i [b c cl] cn cd]. unfold queued. simpl in *. subst cl.
    by rewrite app_nil_r.
  - unfold deref. rewrite Hp. simpl. unfold trySend. rewrite Hopen.
    simpl in Hlen.
    destruct (Nat.ltb_spec (length (buf (Sub.send s))) (cap (Sub.send s))) as [_|?]; [|lia].
    simpl. set (s1 := Sub.mkSubscriber _ _ _ _).
    rewrite (IH (store p s1 w) s1).
    + rewrite store_store. unfold queued. simpl. by rewrite <- app_assoc.
    + by eapply heap_store.
    + done.
    + simpl. rewrite length_app. simpl. lia.
Qed.

Lemma replay_app (p : nat) (ms1 ms2 : list Message) :
  forall w, replay p (ms1 ++ ms2) w = replay p ms1 w ≫= replay p ms2.
Proof.
  induction ms1 as [|m ms1 IH]; intros w; simpl; [done|].
  destruct (deref p w) as [s|]; simpl; [|done].
  destruct (trySend m (Sub.send s)) as [[ch|]|]; simpl; [apply IH| |done].
  destruct (CloseWithError p _ _ w); simpl; [apply IH|done].
Qed.

Lemma CloseWithError_live (p : nat) (code reason : string) (w : World) (s : Sub.Subscriber) :
  heap w !! p = Some s -> live s ->
  CloseWithError p code reason w =
    Ok (connClose (Sub.conn s) StatusNormalClosure "subscriber closed"
          (store p (closedOnce s) (connWrite (Sub.conn s) (errorFrame "" code reason) w))).
Proof.
  intros Hp Hl. unfold CloseWithError, deref. rewrite Hp. simpl.
  by apply Close_live.
Qed.

(** A full queue and one message to replay: the subscriber is closed with
    the error frame, and the loop ends. *)
Lemma replay_overflow_last (p : nat) (m : Message) (w : World) (s : Sub.Subscriber) :
  heap w !! p = Some s -> live s -> atCapacity (Sub.send s) = true ->
  replay p [m] w =
    Ok (connClose (Sub.conn s) StatusNormalClosure "subscriber closed"
          (store p (closedOnce s)
             (connWrite (Sub.conn s) (errorFrame "" "SLOW_CONSUMER" "replay overflow") w))).
Proof.
  intros Hp Hl Hfull. simpl. unfold deref. rewrite Hp. simpl.
  unfold trySend. destruct Hl as [Hc Hs]. rewrite Hs.
  unfold atCapacity in Hfull. apply negb_true_iff in Hfull. rewrite Hfull. simpl.
  rewrite (CloseWithError_live p _ _ w s Hp); [done|by split].
Qed.

(** A full queue and two or more messages to replay: the second send is on
    the channel that the first overflow closed. *)
Lemma replay_overflow_more (p : nat) (m m' : Message) (rest : list Message)
    (w : World) (s : Sub.Subscriber) :
  heap w !! p = Some s -> live s -> atCapacity (Sub.send s) = true ->
  replay p (m :: m' :: rest) w = Panic SendOnClosedChannel.
Proof.
  intros Hp Hl Hfull.
  change (m :: m' :: rest) with ([m] ++ m' :: rest). rewrite replay_app.
  rewrite (replay_overflow_last p m w s Hp Hl Hfull). simpl.
  unfold deref. simpl. rewrite list_lookup_insert_eq.
  - done.
  - by eapply lookup_lt_Some.
Qed.

Lemma eqb_empty_false (s : string) : s <> "" -> String.eqb s "" = false.
Proof. intros H. by apply String.eqb_neq. Qed.

Lemma makeMessageChan_fits (n : Z) :
  0 <= n <= makechanLimit -> makeMessageChan n = Ok (makeChan (Z.to_nat n)).
Proof.
  intros [H0 H1]. unfold makeMessageChan.
  destruct (Z.leb_spec 0 n); [|lia]. destruct (Z.leb_spec n makechanLimit); [done|lia].
Qed.

Lemma makeMessageChan_unfit (n : Z) :
  ~ 0 <= n <= makechanLimit -> makeMessageChan n = Panic MakechanSizeOutOfRange.
Proof.
  intros H. unfold makeMessageChan.
  destruct (Z.leb_spec 0 n); [|done]. destruct (Z.leb_spec n makechanLimit); [lia|done].
Qed.

Lemma newSubscriber_fits (cid : string) (c : nat) (w : World) :
  queueFits w -> newSubscriber cid c w = Ok (length (heap w), allocated cid c w).
Proof. intros H. unfold newSubscriber. by rewrite (makeMessageChan_fits _ H). Qed.

Lemma newSubscriber_unfit (cid : string) (c : nat) (w : World) :
  ~ queueFits w -> newSubscriber cid c w = Panic MakechanSizeOutOfRange.
Proof. intros H. unfold newSubscriber. by rewrite (makeMessageChan_unfit _ H). Qed.

Lemma newSubscriber_Ok (cid : string) (c : nat) (w w1 : World) (p : nat) :
  newSubscriber cid c w = Ok (p, w1) ->
  queueFits w /\ p = length (heap w) /\ w1 = allocated cid c w.
Proof.
  intros H. destruct (decide (queueFits w)) as [Hq|Hq].
  - rewrite (newSubscriber_fits _ _ _ Hq) in H. by injection H as <- <-.
  - by rewrite (newSubscriber_unfit _ _ _ Hq) in H.
Qed.

(** A subscribe frame for a client id that the topic does not hold yet,
    with a queue size that [make] accepts: the new subscriber is bound, the
    replay runs, the ack is written. *)
Lemma handleFrame_subscribe_new (ks : list string) (c : nat) (inp : In.ClientToServer)
    (w : World) (topic : Topic) :
  In.Type_ inp = "subscribe" ->
  In.Topic inp <> "" -> In.ClientID inp <> "" ->
  topics (globalTopics w) !! In.Topic inp = Some topic ->
  subscribers topic !! In.ClientID inp = None ->
  queueFits w ->
  handleFrame ks c inp w =
    w3 ← replayLastN topic (In.LastN inp) (length (heap w))
           (bindSubscriber (In.Topic inp) (In.ClientID inp) (length (heap w))
              (allocated (In.ClientID inp) c w));
    Ok (connWrite c (ackFrame (In.RequestID inp) (name topic)) w3).
Proof.
  intros Hty Ht Hc Htopic Hnew Hq. unfold handleFrame. rewrite Hty. simpl.
  unfold handleSubscribe. rewrite (eqb_empty_false _ Ht), (eqb_empty_false _ Hc). simpl.
  unfold GetTopic. rewrite Htopic. simpl.
  rewrite (newSubscriber_fits _ _ _ Hq), Ok_bind.
  unfold register, closeOld. simpl. rewrite Hnew. reflexivity.
Qed.

(** With a queue size that [make] refuses, a subscribe to a registered
    topic stops there. *)
Lemma handleFrame_subscribe_unfit (ks : list string) (c : nat) (inp : In.ClientToServer)
    (w : World) (topic : Topic) :
  In.Type_ inp = "subscribe" ->
  In.Topic inp <> "" -> In.ClientID inp <> "" ->
  topics (globalTopics w) !! In.Topic inp = Some topic ->
  ~ queueFits w ->
  handleFrame ks c inp w = Panic MakechanSizeOutOfRange.
Proof.
  intros Hty Ht Hc Htopic Hq. unfold handleFrame. rewrite Hty. simpl.
  unfold handleSubscribe. rewrite (eqb_empty_false _ Ht), (eqb_empty_false _ Hc). simpl.
  unfold GetTopic. rewrite Htopic. simpl.
  by rewrite (newSubscriber_unfit _ _ _ Hq).
Qed.

Lemma heap_allocated (cid : string) (c : nat) (w : World) :
  heap (allocated cid c w) !! length (heap w) =
    Some (Sub.mkSubscriber cid (makeChan (Z.to_nat (subscriberQueueSize w))) c (makeChan 0)).
Proof. simpl. by rewrite list_lookup_middle. Qed.

Lemma drop_two {A : Type} (n : nat) (l : list A) :
  (n + 2 <= length l)%nat -> exists x y rest, l = take n l ++ x :: y :: rest.
Proof.
  intros H.
  assert (Hd : (2 <= length (drop n l))%nat) by (rewrite length_drop; lia).
  destruct (drop n l) as [|x [|y rest]] eqn:E; simpl in Hd; try lia.
  exists x, y, rest. by rewrite <- E, take_drop.
Qed.

Lemma drop_one {A : Type} (n : nat) (l : list A) :
  length l = S n -> exists x, l = take n l ++ [x].
Proof.
  intros H.
  assert (Hd : length (drop n l) = 1%nat) by (rewrite length_drop; lia).
  destruct (drop n l) as [|x [|y rest]] eqn:E; simpl in Hd; try lia.
  exists x. by rewrite <- E, take_drop.
Qed.

(** C9.  A subscribe whose replay is two or more messages longer than the
    new subscriber's queue panics: with a send on a closed channel whenever
    [make] has accepted the queue size (and at [make] otherwise).  The
    queue fills, the next message overflows and [CloseWithError] closes the
    send channel, and the loop goes on to send the message after it. *)
Theorem subscribe_replay_sends_on_closed
    (ks : list string) (c : nat) (inp : In.ClientToServer) (w : World)
    (topic : Topic) (ms : list Message) :
  In.Type_ inp = "subscribe" ->
  In.Topic inp <> "" -> In.ClientID inp <> "" ->
  topics (globalTopics w) !! In.Topic inp = Some topic ->
  subscribers topic !! In.ClientID inp = None ->
  0 < In.LastN inp ->
  Ring.LastN (In.LastN inp) (history topic) = Ok ms ->
  (Z.to_nat (subscriberQueueSize w) + 2 <= length ms)%nat ->
  handleFrame ks c inp w =
    (_ ← makeMessageChan (subscriberQueueSize w); Panic SendOnClosedChannel).
Proof.
  intros Hty Ht Hc Htopic Hnew Hn Hms Hlen.
  destruct (decide (queueFits w)) as [Hq|Hq].
  2: { rewrite (makeMessageChan_unfit _ Hq).
       by apply (handleFrame_subscribe_unfit ks c inp w topic). }
  rewrite (makeMessageChan_fits _ Hq), Ok_bind.
  rewrite (handleFrame_subscribe_new ks c inp w topic) by done.
  unfold replayLastN. destruct (Z.gtb_spec (In.LastN inp) 0) as [_|?]; [|lia].
  rewrite Hms. rewrite Ok_bind.
  set (q := Z.to_nat (subscriberQueueSize w)) in *.
  set (p := length (heap w)).
  set (w2 := bindSubscriber _ _ _ _).
  set (s := Sub.mkSubscriber (In.ClientID inp) (makeChan q) c (makeChan 0)).
  assert (Hp : heap w2 !! p = Some s) by apply heap_allocated.
  destruct (drop_two q ms Hlen) as (x & y & rest & Hsplit).
  assert (Htake : length (take q ms) = q) by (rewrite length_take; lia).
  rewrite Hsplit, replay_app.
  rewrite (replay_fits p _ w2 s Hp); [|done|simpl; lia].
  rewrite Ok_bind.
  rewrite (replay_overflow_more p x y rest _ (queued (take q ms) s)).
  - done.
  - by eapply heap_store.
  - done.
  - unfold atCapacity. simpl. apply negb_true_iff, Nat.ltb_ge. lia.
Qed.

(** C2.  A subscribe whose replay is exactly one message longer than the
    new subscriber's queue, [make] having accepted the queue size (the
    handler panics there otherwise), returns normally: the socket is written the
    SLOW_CONSUMER / "replay overflow" error frame and closed by the
    subscriber's [Close], and is then written the ack of the request; the
    subscriber stays bound in the topic with its closed-signal fired. *)
Theorem subscribe_replay_overflow_acked
    (ks : list string) (c : nat) (inp : In.ClientToServer) (w : World)
    (topic : Topic) (ms : list Message) :
  In.Type_ inp = "subscribe" ->
  In.Topic inp <> "" -> In.ClientID inp <> "" ->
  topics (globalTopics w) !! In.Topic inp = Some topic ->
  subscribers topic !! In.ClientID inp = None ->
  (c < length (conns w))%nat ->
  0 < In.LastN inp ->
  Ring.LastN (In.LastN inp) (history topic) = Ok ms ->
  length ms = S (Z.to_nat (subscriberQueueSize w)) ->
  match makeMessageChan (subscriberQueueSize w) with
  | Panic e => handleFrame ks c inp w = Panic e
  | Ok _ =>
      exists w',
        handleFrame ks c inp w = Ok w' /\
        connLog c w' =
          connLog c w ++
            [ EvWrite (errorFrame "" "SLOW_CONSUMER" "replay overflow");
              EvClose StatusNormalClosure "subscriber closed";
              EvWrite (ackFrame (In.RequestID inp) (name topic)) ] /\
        wasClosed (length (heap w)) w' /\
        subscribers (topicOf (In.Topic inp) w') !! In.ClientID inp = Some (length (heap w))
  end.
Proof.
  intros Hty Ht Hc Htopic Hnew Hconn Hn Hms Hlen.
  destruct (decide (queueFits w)) as [Hq|Hq].
  2: { rewrite (makeMessageChan_unfit _ Hq).
       by apply (handleFrame_subscribe_unfit ks c inp w topic). }
  rewrite (makeMessageChan_fits _ Hq).
  rewrite (handleFrame_subscribe_new ks c inp w topic) by done.
  unfold replayLastN. destruct (Z.gtb_spec (In.LastN inp) 0) as [_|?]; [|lia].
  rewrite Hms. rewrite Ok_bind.
  set (q := Z.to_nat (subscriberQueueSize w)) in *.
  set (p := length (heap w)).
  set (w2 := bindSubscriber _ _ _ _).
  set (s := Sub.mkSubscriber (In.ClientID inp) (makeChan q) c (makeChan 0)).
  assert (Hp : heap w2 !! p = Some s) by apply heap_allocated.
  destruct (drop_one q ms Hlen) as (x & Hsplit).
  assert (Htake : length (take q ms) = q) by (rewrite length_take; lia).
  rewrite Hsplit, replay_app.
  rewrite (replay_fits p _ w2 s Hp); [|done|simpl; lia].
  rewrite Ok_bind.
  rewrite (replay_overflow_last p x _ (queued (take q ms) s)).
  2: by eapply heap_store.
  2: done.
  2: { unfold atCapacity. simpl. apply negb_true_iff, Nat.ltb_ge. lia. }
  rewrite Ok_bind. change (Sub.conn (queued (take q ms) s)) with c.
  eexists. split; [reflexivity|]. split; [|split].
  - rewrite connLog_connWrite_eq by (simpl; by rewrite !length_alter).
    rewrite connLog_connClose_eq by (simpl; by rewrite !length_alter).
    rewrite connLog_store.
    rewrite connLog_connWrite_eq by done.
    rewrite connLog_store.
    change (connLog c w2) with (connLog c w).
    by rewrite <- !app_assoc.
  - eexists. split.
    + simpl. apply list_lookup_insert_eq. rewrite length_insert, length_app. simpl. lia.
    + done.
  - unfold topicOf. simpl. rewrite lookup_alter_eq, Htopic. simpl.
    apply lookup_insert_eq.
Qed.

Lemma subscribe_replay_sends_on_closed_witness :
  handleFrame [] 1 (subscribeFrame "t" "a" 3 "r1") (connect (stateOf threePublished))
  = Panic SendOnClosedChannel.
Proof.
  assert (Hq : makeMessageChan (subscriberQueueSize (connect (stateOf threePublished)))
               = Ok (makeChan 1)) by (vm_compute; reflexivity).
  rewrite (subscribe_replay_sends_on_closed [] 1 (subscribeFrame "t" "a" 3 "r1")
             (connect (stateOf threePublished))
             (topicOf "t" (connect (stateOf threePublished)))
             [msg "1"; msg "2"; msg "3"]).
  - by rewrite Hq.
  - reflexivity.
  - discriminate.
  - discriminate.
  - vm_compute. reflexivity.
  - vm_compute. reflexivity.
  - reflexivity.
  - vm_compute. reflexivity.
  - vm_compute. lia.
Defined.

Lemma subscribe_replay_overflow_acked_witness :
  exists w',
    handleFrame [] 1 (subscribeFrame "t" "a" 2 "r1") (connect (stateOf twoPublished)) = Ok w' /\
    connLog 1 w' =
      connLog 1 (connect (stateOf twoPublished)) ++
      [ EvWrite (errorFrame "" "SLOW_CONSUMER" "replay overflow");
        EvClose StatusNormalClosure "subscriber closed";
        EvWrite (ackFrame "r1" "t") ].
Proof.
  assert (Hq : makeMessageChan (subscriberQueueSize (connect (stateOf twoPublished)))
               = Ok (makeChan 1)) by (vm_compute; reflexivity).
  pose proof (subscribe_replay_overflow_acked [] 1 (subscribeFrame "t" "a" 2 "r1")
                (connect (stateOf twoPublished))
                (topicOf "t" (connect (stateOf twoPublished)))
                [msg "1"; msg "2"]) as H.
  rewrite Hq in H. destruct H as (w' & Hrun & Hlog & _).
  - reflexivity.
  - discriminate.
  - discriminate.
  - vm_compute. reflexivity.
  - vm_compute. reflexivity.
  - vm_compute. lia.
  - reflexivity.
  - vm_compute. reflexivity.
  - vm_compute. reflexivity.
  - exists w'. split; [exact Hrun|]. rewrite Hlog. f_equal.
Defined.

(** ** Subscribing twice *)

Lemma evolves_refl (s : Sub.Subscriber) : evolves s s.
Proof. by unfold evolves. Qed.

Lemma evolves_trans (s1 s2 s3 : Sub.Subscriber) :
  evolves s1 s2 -> evolves s2 s3 -> evolves s1 s3.
Proof.
  intros (Hi & Hc & Hb & Hcl) (Hi' & Hc' & Hb' & Hcl').
  unfold evolves. repeat split; try congruence. auto.
Qed.

Lemma laterHeap_refl (w : World) : laterHeap w w.
Proof. split; [done|]. intros p s Hp. exists s. split; [done|apply evolves_refl]. Qed.

Lemma laterHeap_trans (w1 w2 w3 : World) :
  laterHeap w1 w2 -> laterHeap w2 w3 -> laterHeap w1 w3.
Proof.
  intros [Hl H12] [Hl' H23]. split; [congruence|]. intros p s Hp.
  destruct (H12 p s Hp) as (s2 & Hp2 & He).
  destruct (H23 p s2 Hp2) as (s3 & Hp3 & He').
  exists s3. split; [done|]. by eapply evolves_trans.
Qed.

Lemma laterHeap_store (p : nat) (s s' : Sub.Subscriber) (w : World) :
  heap w !! p = Some s -> evolves s s' -> laterHeap w (store p s' w).
Proof.
  intros Hp He. split; [simpl; by rewrite length_insert|].
  intros q s0 Hq. simpl. destruct (decide (q = p)) as [->|Hne].
  - exists s'. split; [by eapply heap_store|]. congruence.
  - exists s0. rewrite list_lookup_insert_ne by done. split; [done|apply evolves_refl].
Qed.

Lemma laterHeap_same (w w' : World) : heap w' = heap w -> laterHeap w w'.
Proof. intros H. unfold laterHeap. rewrite H. apply laterHeap_refl. Qed.

Lemma Close_later (p : nat) (w w' : World) :
  Close p w = Ok w' -> laterHeap w w' /\ globalTopics w' = globalTopics w.
Proof.
  unfold Close, deref. destruct (heap w !! p) as [s|] eqn:Hp; [|done]. simpl.
  destruct (tryRecv (Sub.closed s)).
  1,2: intros [= <-]; split; [apply laterHeap_refl|done].
  unfold closeChan.
  destruct (isClosed (Sub.closed s)); [done|]. simpl.
  destruct (isClosed (Sub.send s)); [done|]. simpl.
  intros [= <-]. split; [|done].
  set (s' := Sub.mkSubscriber _ _ _ _).
  apply (laterHeap_trans _ (store p s' w)); [|by apply laterHeap_same].
  apply (laterHeap_store p s); [done|]. by unfold evolves.
Qed.

(** A [Close] that returns has fired the closed-signal, unless something
    was sent on it. *)
Lemma Close_fires (p : nat) (w w' : World) (s : Sub.Subscriber) :
  heap w !! p = Some s -> buf (Sub.closed s) = [] -> Close p w = Ok w' -> wasClosed p w'.
Proof.
  intros Hp Hb. unfold Close, deref. rewrite Hp. simpl. unfold tryRecv. rewrite Hb.
  destruct (isClosed (Sub.closed s)) eqn:Hc.
  - intros [= <-]. by exists s.
  - unfold closeChan. rewrite Hc. simpl.
    destruct (isClosed (Sub.send s)); [done|]. simpl. intros [= <-].
    eexists. split; [by eapply heap_store|done].
Qed.

Lemma laterHeap_wasClosed (w w' : World) (p : nat) :
  laterHeap w w' -> wasClosed p w -> wasClosed p w'.
Proof.
  intros [_ H] (s & Hp & Hc). destruct (H p s Hp) as (s' & Hp' & _ & _ & _ & Hcl).
  exists s'. auto.
Qed.

Lemma replay_later (p : nat) (ms : list Message) :
  forall w w', replay p ms w = Ok w' ->
    laterHeap w w' /\ globalTopics w' = globalTopics w.
Proof.
  induction ms as [|m ms IH]; intros w w' H; simpl in H.
  - injection H as <-. split; [apply laterHeap_refl|done].
  - unfold deref in H. destruct (heap w !! p) as [s|] eqn:Hp; [|done]. simpl in H.
    destruct (trySend m (Sub.send s)) as [[ch|]|]; simpl in H; [| |done].
    + destruct (IH _ _ H) as [Hl Ht]. split; [|by rewrite Ht].
      eapply laterHeap_trans; [|exact Hl].
      apply (laterHeap_store p s _ w Hp). by unfold evolves.
    + apply bind_Ok in H as (w1 & H1 & H2).
      unfold CloseWithError, deref in H1. rewrite Hp in H1. simpl in H1.
      destruct (Close_later _ _ _ H1) as [Hl1 Ht1].
      destruct (IH _ _ H2) as [Hl Ht]. split; [|by rewrite Ht, Ht1].
      eapply laterHeap_trans; [|exact Hl].
      eapply laterHeap_trans; [|exact Hl1]. by apply laterHeap_same.
Qed.

Lemma replayLastN_later (topic : Topic) (n : Z) (p : nat) (w w' : World) :
  replayLastN topic n p w = Ok w' ->
  laterHeap w w' /\ globalTopics w' = globalTopics w.
Proof.
  unfold replayLastN. destruct (n >? 0).
  - intros H. apply bind_Ok in H as (ms & _ & H). by eapply replay_later.
  - intros [= <-]. split; [apply laterHeap_refl|done].
Qed.

Lemma closeOld_later (topic : Topic) (cid : string) (w w' : World) :
  closeOld topic cid w = Ok w' ->
  laterHeap w w' /\ globalTopics w' = globalTopics w.
Proof.
  unfold closeOld. destruct (subscribers topic !! cid).
  - apply Close_later.
  - intros [= <-]. split; [apply laterHeap_refl|done].
Qed.

(** The steps of a subscribe that is answered with the ack. *)
Lemma handleFrame_subscribe_inv (ks : list string) (c : nat) (inp : In.ClientToServer)
    (w w' : World) (topic : Topic) :
  In.Type_ inp = "subscribe" ->
  In.Topic inp <> "" -> In.ClientID inp <> "" ->
  topics (globalTopics w) !! In.Topic inp = Some topic ->
  handleFrame ks c inp w = Ok w' ->
  exists wm w3,
    queueFits w /\
    closeOld topic (In.ClientID inp) (allocated (In.ClientID inp) c w) = Ok wm /\
    replayLastN topic (In.LastN inp) (length (heap w))
      (bindSubscriber (In.Topic inp) (In.ClientID inp) (length (heap w)) wm) = Ok w3 /\
    w' = connWrite c (ackFrame (In.RequestID inp) (name topic)) w3.
Proof.
  intros Hty Ht Hc Htopic. unfold handleFrame. rewrite Hty. simpl.
  unfold handleSubscribe. rewrite (eqb_empty_false _ Ht), (eqb_empty_false _ Hc). simpl.
  unfold GetTopic. rewrite Htopic. simpl. unfold register.
  intros H. apply bind_Ok in H as ([p w1] & Hnew & H).
  apply newSubscriber_Ok in Hnew as (Hq & -> & ->).
  apply bind_Ok in H as (w2 & H2 & H).
  apply bind_Ok in H2 as (wm & Hm & [= <-]).
  apply bind_Ok in H as (w3 & H3 & [= <-]).
  by exists wm, w3.
Qed.

(** What a subscribe that is answered with the ack leaves. *)
Lemma handleFrame_subscribe_result (ks : list string) (c : nat) (inp : In.ClientToServer)
    (w w' : World) :
  In.Type_ inp = "subscribe" ->
  In.Topic inp <> "" -> In.ClientID inp <> "" ->
  is_Some (topics (globalTopics w) !! In.Topic inp) ->
  handleFrame ks c inp w = Ok w' ->
  length (heap w') = S (length (heap w)) /\
  laterHeap (allocated (In.ClientID inp) c w) w' /\
  is_Some (topics (globalTopics w') !! In.Topic inp) /\
  subscribers (topicOf (In.Topic inp) w') !! In.ClientID inp = Some (length (heap w)).
Proof.
  intros Hty Ht Hc [topic Htopic] H.
  destruct (handleFrame_subscribe_inv _ _ _ _ _ _ Hty Ht Hc Htopic H)
    as (wm & w3 & _ & Hm & H3 & ->).
  destruct (closeOld_later _ _ _ _ Hm) as [Hl1 Ht1].
  destruct (replayLastN_later _ _ _ _ _ H3) as [Hl3 Ht3].
  assert (Hlater : laterHeap (allocated (In.ClientID inp) c w) w3).
  { eapply laterHeap_trans; [exact Hl1|].
    eapply laterHeap_trans; [|exact Hl3]. by apply laterHeap_same. }
  assert (Htop : topics (globalTopics w3) !! In.Topic inp =
                 Some (mkTopic (name topic)
                         (<[In.ClientID inp := length (heap w)]> (subscribers topic))
                         (history topic) (msgCount topic))).
  { rewrite Ht3. simpl. rewrite lookup_alter_eq, Ht1. simpl. by rewrite Htopic. }
  split; [|split; [|split]].
  - simpl. destruct Hlater as [-> _]. simpl. rewrite length_app. simpl. lia.
  - eapply laterHeap_trans; [exact Hlater|]. by apply laterHeap_same.
  - simpl. rewrite Htop. eauto.
  - unfold topicOf. simpl. change (topics (globalTopics w3)) with (topics (globalTopics w3)).
    rewrite Htop. simpl. apply lookup_insert_eq.
Qed.

(** C5.  Two subscribe requests for the same topic and client id, handled
    one after the other (on any two sockets) and both answered with the
    ack.  The two subscribers are distinct; after the second request the
    topic binds the client id to the second one; the first one has its
    closed-signal fired; and it was fired in the state [wm], reached from
    the state [wn] in which the second subscriber had been allocated, in
    which the topic still bound the client id to the first one, before the
    second was bound. *)
Theorem resubscribe_replaces
    (ks1 ks2 : list string) (c1 c2 : nat) (inp1 inp2 : In.ClientToServer)
    (w w1 w2 : World) :
  In.Type_ inp1 = "subscribe" -> In.Type_ inp2 = "subscribe" ->
  In.Topic inp1 <> "" -> In.ClientID inp1 <> "" ->
  In.Topic inp2 = In.Topic inp1 -> In.ClientID inp2 = In.ClientID inp1 ->
  is_Some (topics (globalTopics w) !! In.Topic inp1) ->
  handleFrame ks1 c1 inp1 w = Ok w1 ->
  handleFrame ks2 c2 inp2 w1 = Ok w2 ->
  let T := In.Topic inp1 in
  let C := In.ClientID inp1 in
  let p1 := length (heap w) in
  let p2 := length (heap w1) in
  p1 <> p2 /\
  (exists s1, heap w1 !! p1 = Some s1 /\ Sub.id s1 = C /\ Sub.conn s1 = c1) /\
  (exists s2, heap w2 !! p2 = Some s2 /\ Sub.id s2 = C /\ Sub.conn s2 = c2) /\
  subscribers (topicOf T w1) !! C = Some p1 /\
  subscribers (topicOf T w2) !! C = Some p2 /\
  wasClosed p1 w2 /\
  exists wn wm w3,
    newSubscriber C c2 w1 = Ok (p2, wn) /\
    closeOld (topicOf T w1) C wn = Ok wm /\
    wasClosed p1 wm /\
    subscribers (topicOf T wm) !! C = Some p1 /\
    replayLastN (topicOf T w1) (In.LastN inp2) p2 (bindSubscriber T C p2 wm) = Ok w3 /\
    w2 = connWrite c2 (ackFrame (In.RequestID inp2) (name (topicOf T w1))) w3.
Proof.
  intros Hty1 Hty2 HT HC HT2 HC2 Htop H1 H2 T C p1 p2.
  destruct (handleFrame_subscribe_result _ _ _ _ _ Hty1 HT HC Htop H1)
    as (Hlen1 & Hl1 & Htop1 & Hbind1).
  fold T C p1 in Hlen1, Hl1, Htop1, Hbind1.
  (* the first subscriber, as the first request leaves it *)
  destruct Hl1 as [_ Hev1].
  destruct (Hev1 p1 _ (heap_allocated C c1 w)) as (s1 & Hs1 & Hid1 & Hcn1 & Hb1 & _).
  simpl in Hid1, Hcn1, Hb1.
  (* the second request *)
  assert (HT' : In.Topic inp2 <> "") by (by rewrite HT2).
  assert (HC' : In.ClientID inp2 <> "") by (by rewrite HC2).
  assert (Htop1' : is_Some (topics (globalTopics w1) !! In.Topic inp2)) by (by rewrite HT2).
  destruct (handleFrame_subscribe_result _ _ _ _ _ Hty2 HT' HC' Htop1' H2)
    as (Hlen2 & Hl2 & _ & Hbind2).
  rewrite HT2, HC2 in Hbind2. rewrite HC2 in Hl2. fold T C p2 in Hbind2, Hl2.
  destruct Htop1 as [topic1 Htopic1].
  assert (Hof1 : topicOf T w1 = topic1) by (unfold topicOf; by rewrite Htopic1).
  assert (Htopic1' : topics (globalTopics w1) !! In.Topic inp2 = Some topic1)
    by (by rewrite HT2).
  destruct (handleFrame_subscribe_inv _ _ _ _ _ _ Hty2 HT' HC' Htopic1' H2)
    as (wm & w3 & Hq2 & Hm & H3 & Hw2).
  rewrite HC2 in Hm. rewrite HT2, HC2 in H3. fold T C p2 in Hm, H3.
  rewrite <- Hof1 in Hm, H3, Hw2.
  (* closing the first subscriber, still bound *)
  assert (Hold : closeOld (topicOf T w1) C (allocated C c2 w1)
                 = Close p1 (allocated C c2 w1)).
  { unfold closeOld. by rewrite Hbind1. }
  assert (Hs1' : heap (allocated C c2 w1) !! p1 = Some s1).
  { simpl. rewrite lookup_app_l; [done|]. by eapply lookup_lt_Some. }
  assert (Hclm : wasClosed p1 wm).
  { eapply (Close_fires p1 _ wm s1 Hs1'); [done|]. by rewrite <- Hold. }
  destruct (closeOld_later _ _ _ _ Hm) as [_ Htm].
  destruct (replayLastN_later _ _ _ _ _ H3) as [Hl3 _].
  split; [unfold p2; lia|].
  split; [by exists s1|]. split.
  { destruct Hl2 as [_ Hev2].
    destruct (Hev2 p2 _ (heap_allocated C c2 w1)) as (s2 & Hs2 & Hid2 & Hcn2 & _).
    by exists s2. }
  split; [done|]. split; [done|]. split.
  { subst w2. change (wasClosed p1 w3).
    by apply (laterHeap_wasClosed (bindSubscriber T C p2 wm)). }
  exists (allocated C c2 w1), wm, w3.
  split; [by apply newSubscriber_fits|].
  split; [done|]. split; [done|]. split; [|done].
  unfold topicOf. rewrite Htm. simpl. fold (topicOf T w1). exact Hbind1.
Qed.

(** Both sockets are accepted, then each sends its subscribe. *)
Lemma resubscribe_replaces_witness :
  let w := connect (connect (stateOf (postTopic "t" (initWorld ∅ 0)))) in
  let w1 := stateOf (handleFrame [] 0 (subscribeFrame "t" "c" 0 "r1") w) in
  let w2 := stateOf (handleFrame [] 1 (subscribeFrame "t" "c" 5 "r2") w1) in
  subscribers (topicOf "t" w2) !! "c" = Some 1%nat /\ wasClosed 0 w2.
Proof.
  intros w w1 w2.
  destruct (resubscribe_replaces [] [] 0 1
              (subscribeFrame "t" "c" 0 "r1") (subscribeFrame "t" "c" 5 "r2")
              w w1 w2) as (_ & _ & _ & _ & Hbind & Hcl & _).
  - reflexivity.
  - reflexivity.
  - discriminate.
  - discriminate.
  - reflexivity.
  - reflexivity.
  - vm_compute. eexists. reflexivity.
  - vm_compute. reflexivity.
  - vm_compute. reflexivity.
  - split; [exact Hbind|exact Hcl].
Defined.

(** ** The end of a session *)

(** The session's table is never written to, so the cleanup loop closes
    nothing: the exit only closes the socket. *)
Lemma sessionCleanup_empty (cks : list string) (c : nat) (w : World) :
  sessionCleanup cks c ∅ w = Ok (connClose c StatusNormalClosure "bye" w).
Proof.
  unfold sessionCleanup.
  assert (H : closeEach cks ∅ w = Ok w).
  { induction cks as [|k cks IH]; simpl; [done|]. by rewrite lookup_empty. }
  by rewrite H.
Qed.

Lemma wsSession_exit (cks : list string) (frames : list (list string * In.ClientToServer))
    (w w' : World) :
  wsSession cks frames w = Ok w' ->
  exists w1,
    readLoop (length (conns w)) ∅ frames (accept w).2 = Ok w1 /\
    heap w' = heap w1 /\ globalTopics w' = globalTopics w1.
Proof.
  unfold wsSession. simpl. intros H. apply bind_Ok in H as (w1 & H1 & H2).
  rewrite sessionCleanup_empty in H2. injection H2 as <-. by exists w1.
Qed.

(** C1: the code at the failing input.  A session subscribes client "c" to
    topic "t" and then its read fails.  After the session has exited, the
    topic still binds "c" to the subscriber the session created, and that
    subscriber has not been closed: the exit wrote nothing but the close of
    the socket. *)
Theorem session_exit_leaves_subscriber :
  exists w',
    (w ← postTopic "t" (initWorld ∅ 0);
     wsSession [] [([], subscribeFrame "t" "c" 0 "r1")] w) = Ok w' /\
    subscribers (topicOf "t" w') !! "c" = Some 0%nat /\
    heap w' !! 0%nat = Some (Sub.mkSubscriber "c" (makeChan 100) 0 (makeChan 0)) /\
    ~ wasClosed 0 w' /\
    connLog 0 w' = [EvWrite (ackFrame "r1" "t"); EvClose StatusNormalClosure "bye"].
Proof.
  eexists. split; [vm_compute; reflexivity|].
  split; [vm_compute; reflexivity|]. split; [vm_compute; reflexivity|].
  split; [|vm_compute; reflexivity].
  intros (s & Hs & Hc). vm_compute in Hs. injection Hs as <-. discriminate.
Qed.

(** ** Creating topics *)

Lemma CreateTopic_new (nm : string) (tm : TopicsManager) :
  topics tm !! nm = None ->
  CreateTopic nm tm =
    Ok (None,
        mkTopicsManager
          (<[nm := mkTopic nm ∅ (Ring.mkRing (replicate 100 zeroMessage) 100 0 false) 0]>
             (topics tm))
          (start tm)).
Proof. intros H. unfold CreateTopic. rewrite H. reflexivity. Qed.

Lemma CreateTopic_exists (nm : string) (tm : TopicsManager) :
  is_Some (topics tm !! nm) -> CreateTopic nm tm = Ok (Some ErrTopicExists, tm).
Proof. intros [t H]. unfold CreateTopic. by rewrite H. Qed.

(** C6: the code, for every environment.  In a process started with the
    environment [env], whatever it sets RING_BUFFER_SIZE to, the topic that
    [CreateTopic] registers has a ring buffer of capacity 100. *)
Theorem CreateTopic_capacity_ignores_environment
    (env : gmap string string) (now : Z) (nm : string) :
  exists tm' t,
    CreateTopic nm (globalTopics (initWorld env now)) = Ok (None, tm') /\
    topics tm' !! nm = Some t /\
    Ring.size (history t) = 100 /\
    length (Ring.data (history t)) = 100%nat.
Proof.
  eexists _, _. split; [by apply CreateTopic_new|].
  simpl. rewrite lookup_insert_eq. split; [reflexivity|]. split; [reflexivity|].
  reflexivity.
Qed.

Example CreateTopic_capacity_with_5 :
  (w ← postTopic "t" (initWorld {[ "RING_BUFFER_SIZE" := "5" ]} 0);
   Ok (Getenv (environ w) "RING_BUFFER_SIZE", Ring.size (history (topicOf "t" w)))) =
  Ok ("5", 100).
Proof. vm_compute. reflexivity. Qed.

(** C7, as stated, fails: POST /topics with the name " t " and then with
    the name "t" answers 201 both times and registers two topics. *)
Lemma post_topics_trim_counterexample :
  exists r1 w1 r2 w2,
    topicsCollectionHandler [] "POST" (Body " t ") (initWorld ∅ 0) = Ok (r1, w1) /\
    topicsCollectionHandler [] "POST" (Body "t") w1 = Ok (r2, w2) /\
    r1 = mkResponse 201 (CreatedJSON " t ") /\
    r2 = mkResponse 201 (CreatedJSON "t") /\
    status r2 <> 409 /\
    dom (topics (globalTopics w2)) = {[ " t "; "t" ]} /\
    size (topics (globalTopics w2)) = 2%nat.
Proof.
  eexists _, _, _, _. split; [vm_compute; reflexivity|].
  split; [vm_compute; reflexivity|].
  split; [reflexivity|]. split; [reflexivity|]. split; [discriminate|].
  split; vm_compute; reflexivity.
Qed.

(** C7, as amended.  POST /topics trims the name only to test it for
    emptiness and registers it exactly as given: a name that is empty after
    trimming is answered 400 BAD_REQUEST and nothing is registered; a name
    that is registered already, character for character, is answered 409
    CONFLICT and nothing changes; any other name is answered 201 and is
    registered, untrimmed, next to the topics there were. *)
Theorem post_topics_registers_name_as_given (ks : list string) (nm : string) (w : World) :
  (TrimSpace nm = "" ->
     topicsCollectionHandler ks "POST" (Body nm) w =
       Ok (writeError 400 "BAD_REQUEST" "name is required", w)) /\
  (TrimSpace nm <> "" -> is_Some (topics (globalTopics w) !! nm) ->
     topicsCollectionHandler ks "POST" (Body nm) w =
       Ok (writeError 409 "CONFLICT" "topic already exists", w)) /\
  (TrimSpace nm <> "" -> topics (globalTopics w) !! nm = None ->
     exists w',
       topicsCollectionHandler ks "POST" (Body nm) w =
         Ok (mkResponse 201 (CreatedJSON nm), w') /\
       name (topicOf nm w') = nm /\
       dom (topics (globalTopics w')) = {[ nm ]} ∪ dom (topics (globalTopics w)) /\
       forall other, other <> nm ->
         topics (globalTopics w') !! other = topics (globalTopics w) !! other).
Proof.
  split; [|split].
  - intros H. unfold topicsCollectionHandler. simpl. by rewrite H.
  - intros H Hreg. unfold topicsCollectionHandler. simpl.
    rewrite (eqb_empty_false _ H). by rewrite (CreateTopic_exists _ _ Hreg).
  - intros H Hnew. unfold topicsCollectionHandler. simpl.
    rewrite (eqb_empty_false _ H), (CreateTopic_new _ _ Hnew). simpl.
    eexists. split; [reflexivity|]. split; [|split].
    + unfold topicOf. simpl. by rewrite lookup_insert_eq.
    + simpl. by rewrite dom_insert_L.
    + intros other Hne. simpl. by rewrite lookup_insert_ne.
Qed.

Lemma post_topics_registers_name_as_given_witness :
  topicsCollectionHandler [] "POST" (Body "   ") (initWorld ∅ 0) =
    Ok (writeError 400 "BAD_REQUEST" "name is required", initWorld ∅ 0) /\
  topicsCollectionHandler [] "POST" (Body "t") (stateOf (postTopic "t" (initWorld ∅ 0))) =
    Ok (writeError 409 "CONFLICT" "topic already exists",
        stateOf (postTopic "t" (initWorld ∅ 0))) /\
  exists w',
    topicsCollectionHandler [] "POST" (Body "t") (stateOf (postTopic " t " (initWorld ∅ 0))) =
      Ok (mkResponse 201 (CreatedJSON "t"), w') /\
    dom (topics (globalTopics w')) = {[ " t "; "t" ]}.
Proof.
  split; [|split].
  - apply (post_topics_registers_name_as_given [] "   " (initWorld ∅ 0)).
    vm_compute. reflexivity.
  - apply (post_topics_registers_name_as_given [] "t" (stateOf (postTopic "t" (initWorld ∅ 0)))).
    + vm_compute. discriminate.
    + vm_compute. eexists. reflexivity.
  - destruct (post_topics_registers_name_as_given [] "t"
                (stateOf (postTopic " t " (initWorld ∅ 0)))) as (_ & _ & H).
    destruct H as (w' & Hrun & _ & Hdom & _).
    + vm_compute. discriminate.
    + vm_compute. reflexivity.
    + exists w'. split; [exact Hrun|]. rewrite Hdom. vm_compute. reflexivity.
Defined.

(** ** Instances of the closing theorems *)

Lemma Close_idempotent_witness :
  CloseTimes 3 0 (stateOf oneSubscriber) =
    Ok (connClose 0 StatusNormalClosure "subscriber closed"
          (store 0 (closedOnce (Sub.mkSubscriber "c" (makeChan 1) 0 (makeChan 0)))
             (stateOf oneSubscriber))).
Proof.
  apply (proj2 (Close_idempotent 2 0 (stateOf oneSubscriber))).
  - vm_compute. reflexivity.
  - split; reflexivity.
Defined.

Lemma CloseGracefully_on_closed_witness :
  CloseGracefully 3 0 (stateOf replayOverflow) = Panic CloseOfClosedChannel /\
  exists e,
    CloseAllGracefully 3 ["t"] (fun _ => ["a"]) (stateOf replayOverflow) = Panic e.
Proof.
  assert (Hcl : wasClosed 0 (stateOf replayOverflow)).
  { exists (Sub.mkSubscriber "a" (mkChan [msg "1"] 1 true) 1 (mkChan [] 0 true)).
    split; [vm_compute; reflexivity|reflexivity]. }
  destruct (CloseGracefully_on_closed 3 0 (stateOf replayOverflow) Hcl) as [H1 H2].
  split; [exact H1|].
  apply (H2 ["t"] (fun _ => ["a"]) "t" (topicOf "t" (stateOf replayOverflow)) "a").
  - apply list_elem_of_singleton. reflexivity.
  - vm_compute. reflexivity.
  - apply list_elem_of_singleton. reflexivity.
  - vm_compute. reflexivity.
Defined.

(** * Further properties of the code *)

(** ** The ring buffer on its own *)

Lemma ringWf_ready (r : Ring.RingBuffer) : ringWf r -> ringReady r.
Proof. intros (Hs & Hl & Hn). unfold ringReady. lia. Qed.

Lemma Add_wf (m : Message) (r : Ring.RingBuffer) :
  ringWf r ->
  exists r', Ring.Add m r = Ok r' /\ ringWf r' /\ Ring.size r' = Ring.size r /\
             length (Ring.data r') = length (Ring.data r).
Proof.
  intros (Hs & Hl & Hn). unfold Ring.Add, Ring.assign, Ring.goRem.
  destruct (Z.ltb_spec (Ring.next r) 0) as [?|_]; [lia|].
  destruct (Z.leb_spec (Z.of_nat (length (Ring.data r))) (Ring.next r)) as [?|_]; [lia|].
  destruct (Z.eqb_spec (Ring.size r) 0) as [?|_]; [lia|].
  simpl. eexists. split; [reflexivity|].
  assert (Hrem : 0 <= Z.rem (Ring.next r + 1) (Ring.size r) < Ring.size r).
  { rewrite Z.rem_mod_nonneg by lia. apply Z.mod_pos_bound. lia. }
  unfold ringWf. simpl. rewrite length_insert. repeat split; lia.
Qed.

(** X1.  [Add] on a well-formed ring buffer never fails and leaves a
    well-formed ring buffer of the same capacity: the slice keeps its
    length and [next] stays inside it. *)
Theorem Add_keeps_ring (m : Message) (r : Ring.RingBuffer) :
  ringWf r ->
  exists r', Ring.Add m r = Ok r' /\ ringWf r' /\ Ring.size r' = Ring.size r /\
             length (Ring.data r') = length (Ring.data r).
Proof. apply Add_wf. Qed.

Lemma Add_keeps_ring_witness :
  exists r', Ring.Add (msg "4") (Ring.mkRing [msg "1"; msg "2"; msg "3"] 3 0 true) = Ok r' /\
             ringWf r'.
Proof.
  destruct (Add_keeps_ring (msg "4") (Ring.mkRing [msg "1"; msg "2"; msg "3"] 3 0 true))
    as (r' & H & Hwf & _).
  - unfold ringWf. simpl. lia.
  - exists r'. split; [exact H|exact Hwf].
Defined.

Lemma copyRange_total (d : list Message) (from : Z) (cnt : nat) :
  0 <= from -> from + Z.of_nat cnt <= Z.of_nat (length d) ->
  Ring.copyRange d from cnt [] = Ok (take cnt (drop (Z.to_nat from) d)).
Proof.
  intros Hfrom Hlen.
  rewrite (copyRange_spec d cnt from [] (take cnt (drop (Z.to_nat from) d))); try done.
  - rewrite length_take, length_drop. lia.
  - intros j Hj. rewrite lookup_take_lt by done. by rewrite lookup_drop.
Qed.

(** The messages a wrapped copy reads, as a list. *)
Lemma copyWrapped_total (d : list Message) (sz start : Z) (cnt : nat) :
  0 < sz -> 0 <= start -> Z.of_nat (length d) = sz ->
  exists l, Ring.copyWrapped d sz start 0 cnt [] = Ok l /\ length l = cnt /\
    forall j : nat, (j < cnt)%nat ->
      l !! j = d !! Z.to_nat ((start + Z.of_nat j) mod sz).
Proof.
  intros Hsz Hstart Hlen.
  set (f := fun j : nat => default zeroMessage (d !! Z.to_nat ((start + Z.of_nat j) mod sz))).
  assert (Hf : forall j : nat, d !! Z.to_nat ((start + Z.of_nat j) mod sz) = Some (f j)).
  { intros j. unfold f.
    destruct (lookup_lt_is_Some_2 d (Z.to_nat ((start + Z.of_nat j) mod sz))) as [x ->]; [|done].
    pose proof (Z.mod_pos_bound (start + Z.of_nat j) sz Hsz). lia. }
  exists (f <$> seq 0 cnt). split; [|split].
  - rewrite (copyWrapped_spec d sz start cnt 0 [] (f <$> seq 0 cnt)); try done.
    + lia.
    + by rewrite length_fmap, length_seq.
    + intros j Hj. rewrite list_lookup_fmap, lookup_seq_lt by done. simpl.
      rewrite Z.add_0_r. apply Hf.
  - by rewrite length_fmap, length_seq.
  - intros j Hj. rewrite list_lookup_fmap, lookup_seq_lt by done. simpl.
    symmetry. apply Hf.
Qed.

Lemma LastN_wf (n : Z) (r : Ring.RingBuffer) :
  ringWf r ->
  exists l, Ring.LastN n r = Ok l /\
            Z.of_nat (length l) = Z.max 0 (Z.min n (stored r)) /\
            Z.of_nat (length l) <= Ring.size r.
Proof.
  intros (Hs & Hl & Hn). unfold Ring.LastN, stored.
  destruct (Z.leb_spec n 0) as [Hn0|Hn0]; simpl.
  { exists []. split; [done|]. simpl. destruct (Ring.full r); lia. }
  destruct (Z.eqb_spec (Ring.size r) 0) as [?|_]; [lia|].
  destruct (Ring.full r); simpl.
  - set (c := if n >? Ring.size r then Ring.size r else n).
    assert (Hc : c = Z.min n (Ring.size r)) by (unfold c; destruct (Z.gtb_spec n (Ring.size r)); lia).
    unfold Ring.goRem. destruct (Z.eqb_spec (Ring.size r) 0) as [?|_]; [lia|]. simpl.
    destruct (copyWrapped_total (Ring.data r) (Ring.size r)
                (Z.rem (Ring.next r - c + Ring.size r) (Ring.size r)) (Z.to_nat c))
      as (l & -> & Hlen & _); try done.
    + rewrite Z.rem_mod_nonneg by lia. apply Z.mod_pos_bound. lia.
    + exists l. split; [done|]. lia.
  - set (c := if n >? Ring.next r then Ring.next r else n).
    assert (Hc : c = Z.min n (Ring.next r)) by (unfold c; destruct (Z.gtb_spec n (Ring.next r)); lia).
    rewrite copyRange_total by lia.
    eexists. split; [reflexivity|]. rewrite length_take, length_drop. lia.
Qed.

(** X2.  [LastN] on a well-formed ring buffer never fails, and the number
    of messages it returns is the smaller of [n] and the number the buffer
    holds (none for [n <= 0]): never more than asked for, never more than
    the capacity. *)
Theorem LastN_length (n : Z) (r : Ring.RingBuffer) :
  ringWf r ->
  exists l, Ring.LastN n r = Ok l /\
            Z.of_nat (length l) = Z.max 0 (Z.min n (stored r)) /\
            Z.of_nat (length l) <= Ring.size r.
Proof. apply LastN_wf. Qed.

Lemma LastN_length_witness :
  exists l, Ring.LastN 5 (Ring.mkRing [msg "4"; msg "2"; msg "3"] 3 1 true) = Ok l /\
            Z.of_nat (length l) = 3.
Proof.
  destruct (LastN_length 5 (Ring.mkRing [msg "4"; msg "2"; msg "3"] 3 1 true))
    as (l & H & Hlen & _).
  - unfold ringWf. simpl. lia.
  - exists l. split; [exact H|exact Hlen].
Defined.

Lemma rem_back (a s x : Z) :
  0 < s -> 0 <= a < s -> x = a \/ x = a + s -> Z.rem (Z.rem x s + 0) s = a.
Proof.
  intros Hs Ha Hx. rewrite Z.add_0_r.
  assert (Hin : Z.rem x s = a).
  { rewrite Z.rem_mod_nonneg by lia. destruct Hx as [->| ->].
    - apply Z.mod_small. lia.
    - replace (a + s) with (a + 1 * s) by lia. rewrite Z_mod_plus_full.
      apply Z.mod_small. lia. }
  rewrite Hin. apply Z.rem_small. lia.
Qed.

Lemma Add_last (m : Message) (r r' : Ring.RingBuffer) :
  ringWf r -> Ring.Add m r = Ok r' -> Ring.LastN 1 r' = Ok [m].
Proof.
  intros (Hs & Hl & Hn). unfold Ring.Add, Ring.assign, Ring.goRem.
  destruct (Z.ltb_spec (Ring.next r) 0) as [?|_]; [lia|].
  destruct (Z.leb_spec (Z.of_nat (length (Ring.data r))) (Ring.next r)) as [?|_]; [lia|].
  destruct (Z.eqb_spec (Ring.size r) 0) as [?|_]; [lia|].
  simpl. intros [= <-].
  assert (Hrem : Z.rem (Ring.next r + 1) (Ring.size r) = (Ring.next r + 1) mod Ring.size r)
    by (apply Z.rem_mod_nonneg; lia).
  assert (Hslot : Ring.index (<[Z.to_nat (Ring.next r) := m]> (Ring.data r)) (Ring.next r)
                  = Ok m).
  { unfold Ring.index. destruct (Z.ltb_spec (Ring.next r) 0) as [?|_]; [lia|].
    rewrite list_lookup_insert_eq by lia. done. }
  unfold Ring.LastN. simpl.
  destruct (Z.eqb_spec (Ring.size r) 0) as [?|_]; [lia|].
  rewrite Hrem.
  assert (Hfull : forall nx,
            0 <= nx < Ring.size r -> nx = Ring.next r + 1 \/ nx + Ring.size r = Ring.next r + 1 ->
            (Ring.goRem (nx - (if 1 >? Ring.size r then Ring.size r else 1) + Ring.size r)
                        (Ring.size r)
             ≫= fun start =>
                Ring.copyWrapped (<[Z.to_nat (Ring.next r) := m]> (Ring.data r))
                  (Ring.size r) start 0
                  (Z.to_nat (if 1 >? Ring.size r then Ring.size r else 1)) [])
            = Ok [m]).
  { intros nx Hnx Hcase.
    destruct (Z.gtb_spec 1 (Ring.size r)) as [?|_]; [lia|].
    unfold Ring.goRem. destruct (Z.eqb_spec (Ring.size r) 0) as [?|_]; [lia|]. simpl.
    unfold Ring.goRem. destruct (Z.eqb_spec (Ring.size r) 0) as [?|_]; [lia|]. simpl.
    rewrite (rem_back (Ring.next r) (Ring.size r)) by lia.
    by rewrite Hslot. }
  destruct (Z.eq_dec (Ring.next r + 1) (Ring.size r)) as [Hwrap|Hno].
  - (* the write filled the last slot: the buffer is full from now on *)
    rewrite Hwrap, Z_mod_same_full. simpl. apply Hfull; lia.
  - rewrite Z.mod_small by lia.
    destruct (Z.eqb_spec (Ring.next r + 1) 0) as [?|_]; [lia|].
    destruct (Ring.full r); simpl.
    + apply Hfull; lia.
    + destruct (Z.gtb_spec 1 (Ring.next r + 1)) as [?|_]; [lia|].
      replace (Ring.next r + 1 - 1) with (Ring.next r) by lia. simpl.
      by rewrite Hslot.
Qed.

(** X3.  On a well-formed ring buffer, the message just added is the one
    [LastN 1] returns, whether or not the buffer has wrapped. *)
Theorem Add_then_LastN_1 (m : Message) (r r' : Ring.RingBuffer) :
  ringWf r -> Ring.Add m r = Ok r' -> Ring.LastN 1 r' = Ok [m].
Proof. apply Add_last. Qed.

Lemma Add_then_LastN_1_witness :
  Ring.LastN 1 (Ring.mkRing [msg "4"; msg "2"; msg "3"] 3 1 true) = Ok [msg "4"].
Proof.
  apply (Add_then_LastN_1 (msg "4") (Ring.mkRing [msg "1"; msg "2"; msg "3"] 3 0 true)).
  - unfold ringWf. simpl. lia.
  - reflexivity.
Defined.

(** ** The invariant of the process *)

(** Split the conjunctions that are written in the goal, without
    unfolding definitions. *)
Ltac splits := repeat match goal with |- _ /\ _ => split end.

Lemma consistent_conns (w w' : World) :
  heap w' = heap w -> globalTopics w' = globalTopics w ->
  (length (conns w) <= length (conns w'))%nat ->
  consistent w -> consistent w'.
Proof.
  intros Hh Ht Hc [Hsub Htop]. split.
  - intros p s Hp. rewrite Hh in Hp. destruct (Hsub p s Hp) as (H1 & H2 & H3 & H4).
    unfold subscriberOk. repeat split; try done. lia.
  - intros nm t Hnm. rewrite Ht in Hnm. destruct (Htop nm t Hnm) as (H1 & H2 & H3).
    unfold topicOk. rewrite Hh. done.
Qed.

Lemma consistent_connWrite (c : nat) (f : Out.ServerToClient) (w : World) :
  consistent w -> consistent (connWrite c f w).
Proof. apply consistent_conns; try done. simpl. by rewrite length_alter. Qed.

Lemma consistent_connClose (c : nat) (st : Z) (rs : string) (w : World) :
  consistent w -> consistent (connClose c st rs w).
Proof. apply consistent_conns; try done. simpl. by rewrite length_alter. Qed.

Lemma consistent_accept (w : World) : consistent w -> consistent (accept w).2.
Proof. apply consistent_conns; try done. simpl. rewrite length_app. lia. Qed.

(** Overwriting a subscriber with a later state of itself. *)
Lemma consistent_store (p : nat) (s s' : Sub.Subscriber) (w : World) :
  consistent w -> heap w !! p = Some s -> Sub.id s' = Sub.id s -> subscriberOk w s' ->
  consistent (store p s' w).
Proof.
  intros [Hsub Htop] Hp Hid Hok. split.
  - intros q s0 Hq. simpl in Hq. destruct (decide (q = p)) as [->|Hne].
    + rewrite list_lookup_insert_eq in Hq by (by eapply lookup_lt_Some).
      injection Hq as <-. exact Hok.
    + rewrite list_lookup_insert_ne in Hq by done. by apply (Hsub q).
  - intros nm t Hnm. destruct (Htop nm t Hnm) as (H1 & H2 & H3).
    split; [done|]. split; [done|]. intros k q Hk.
    destruct (H3 k q Hk) as (s0 & Hq & Hid0). simpl.
    destruct (decide (q = p)) as [->|Hne].
    + exists s'. split; [by eapply heap_store|]. congruence.
    + exists s0. by rewrite list_lookup_insert_ne.
Qed.

(** In a consistent state [Close] on an allocated subscriber returns, and
    the state stays consistent. *)
Lemma Close_consistent (p : nat) (w : World) (s : Sub.Subscriber) :
  consistent w -> heap w !! p = Some s ->
  exists w', Close p w = Ok w' /\ consistent w' /\ wasClosed p w' /\
             globalTopics w' = globalTopics w /\
             length (heap w') = length (heap w) /\
             length (conns w') = length (conns w) /\
             (forall q, q <> p -> heap w' !! q = heap w !! q).
Proof.
  intros Hw Hp. pose proof Hw as [Hsub _].
  destruct (Hsub p s Hp) as (Hb & Hcl & Hlen & Hcn).
  unfold Close, deref. rewrite Hp. simpl. unfold tryRecv. rewrite Hb.
  destruct (isClosed (Sub.closed s)) eqn:Hc.
  - exists w. split; [done|]. split; [done|]. split; [by exists s|]. done.
  - unfold closeChan. rewrite Hc.
    destruct (isClosed (Sub.send s)) eqn:Hs; [by specialize (Hcl eq_refl)|]. simpl.
    eexists. split; [reflexivity|]. split; [|split].
    + apply consistent_connClose. by apply (consistent_store p s).
    + eexists. split; [by eapply heap_store|done].
    + simpl. rewrite length_insert, length_alter. repeat split; try done.
      intros q Hq. by rewrite list_lookup_insert_ne.
Qed.

Lemma closeEach_consistent (ks : list string) (subs : gmap string nat) :
  forall w,
    consistent w ->
    (forall k p, subs !! k = Some p -> is_Some (heap w !! p)) ->
    exists w', closeEach ks subs w = Ok w' /\ consistent w' /\
               globalTopics w' = globalTopics w /\
               length (heap w') = length (heap w) /\
               length (conns w') = length (conns w) /\
               (forall q, wasClosed q w -> wasClosed q w') /\
               (forall k p, k ∈ ks -> subs !! k = Some p -> wasClosed p w').
Proof.
  induction ks as [|k ks IH]; intros w Hw Hval; simpl.
  { exists w. splits; try done. intros k0 p0 Hk. by apply not_elem_of_nil in Hk. }
  destruct (subs !! k) as [p|] eqn:Hk.
  - destruct (Hval k p Hk) as [s Hp].
    destruct (Close_consistent p w s Hw Hp) as (w1 & -> & Hw1 & Hcl1 & Ht1 & Hh1 & Hc1 & Hfr1).
    simpl.
    destruct (IH w1 Hw1) as (w' & -> & Hw' & Ht & Hh & Hc & Hmono & Hall).
    { intros k0 p0 Hk0. destruct (Hval k0 p0 Hk0) as [s0 Hp0].
      apply lookup_lt_is_Some. rewrite Hh1. by eapply lookup_lt_Some. }
    assert (Hmono1 : forall q, wasClosed q w -> wasClosed q w1).
    { intros q (s0 & Hq & Hc0). destruct (decide (q = p)) as [->|Hne]; [done|].
      exists s0. by rewrite Hfr1. }
    exists w'. split; [done|]. split; [done|]. split; [congruence|].
    split; [congruence|]. split; [congruence|]. split; [by auto|].
    intros k0 p0 Hin Hk0. apply elem_of_cons in Hin as [->|Hin].
    + assert (p0 = p) as -> by congruence. by apply Hmono.
    + by apply (Hall k0).
  - destruct (IH w Hw Hval) as (w' & -> & Hw' & Ht & Hh & Hc & Hmono & Hall).
    exists w'. splits; try done.
    intros k0 p0 Hin Hk0. apply elem_of_cons in Hin as [->|Hin]; [congruence|].
    by apply (Hall k0).
Qed.

(** The bindings of a subscriber map point at allocated subscribers that
    carry the client id they are bound to. *)
Lemma bindings_later (subs : gmap string nat) (w w' : World) :
  laterHeap w w' ->
  (forall k p, subs !! k = Some p -> exists s, heap w !! p = Some s /\ Sub.id s = k) ->
  (forall k p, subs !! k = Some p -> exists s, heap w' !! p = Some s /\ Sub.id s = k).
Proof.
  intros [_ Hev] Hb k p Hk. destruct (Hb k p Hk) as (s & Hp & Hid).
  destruct (Hev p s Hp) as (s' & Hp' & Hid' & _). exists s'. split; [done|congruence].
Qed.

Lemma consistent_allocated (cid : string) (c : nat) (w : World) :
  consistent w -> (c < length (conns w))%nat -> consistent (allocated cid c w).
Proof.
  intros [Hsub Htop] Hc. split.
  - intros p s Hp. simpl in Hp. apply lookup_app_Some in Hp as [Hp|[_ Hp]].
    + apply (Hsub p s Hp).
    + apply list_lookup_singleton_Some in Hp as [_ <-].
      unfold subscriberOk. simpl. splits; try done. lia.
  - intros nm t Hnm. destruct (Htop nm t Hnm) as (H1 & H2 & H3).
    split; [done|]. split; [done|]. intros k p Hk.
    destruct (H3 k p Hk) as (s & Hp & Hid). exists s. split; [|done].
    simpl. by apply lookup_app_l_Some.
Qed.

Lemma consistent_bindSubscriber (topicName cid : string) (p : nat) (s : Sub.Subscriber)
    (w : World) :
  consistent w -> heap w !! p = Some s -> Sub.id s = cid ->
  consistent (bindSubscriber topicName cid p w).
Proof.
  intros [Hsub Htop] Hp Hid. split; [exact Hsub|].
  intros nm t Hnm. simpl in Hnm. rewrite lookup_alter in Hnm.
  destruct (decide (topicName = nm)) as [->|Hne].
  - destruct (topics (globalTopics w) !! nm) as [t0|] eqn:Ht0; [|done].
    simpl in Hnm. injection Hnm as <-.
    destruct (Htop nm t0 Ht0) as (H1 & H2 & H3).
    split; [done|]. split; [done|]. simpl. intros k q Hk.
    destruct (decide (cid = k)) as [->|Hnk].
    + rewrite lookup_insert_eq in Hk. injection Hk as <-. by exists s.
    + rewrite lookup_insert_ne in Hk by done. by apply H3.
  - by apply Htop.
Qed.

Lemma consistent_unbindSubscriber (topicName cid : string) (w : World) :
  consistent w -> consistent (unbindSubscriber topicName cid w).
Proof.
  intros [Hsub Htop]. split; [exact Hsub|].
  intros nm t Hnm. simpl in Hnm. rewrite lookup_alter in Hnm.
  destruct (decide (topicName = nm)) as [->|Hne].
  - destruct (topics (globalTopics w) !! nm) as [t0|] eqn:Ht0; [|done].
    simpl in Hnm. injection Hnm as <-.
    destruct (Htop nm t0 Ht0) as (H1 & H2 & H3).
    split; [done|]. split; [done|]. simpl. intros k q Hk.
    apply lookup_delete_Some in Hk as [_ Hk]. by apply H3.
  - by apply Htop.
Qed.

(** The replay loop in a consistent state: it returns a consistent state or
    stops on a send on a closed channel. *)
Lemma replay_sound (p : nat) (ms : list Message) :
  forall (w : World) (s : Sub.Subscriber),
    consistent w -> heap w !! p = Some s -> sound (replay p ms w).
Proof.
  induction ms as [|m ms IH]; intros w s Hw Hp; simpl; [done|].
  unfold deref. rewrite Hp. simpl. unfold trySend.
  destruct (isClosed (Sub.send s)) eqn:Hopen; [done|].
  pose proof Hw as [Hsub _]. destruct (Hsub p s Hp) as (Hb & Hcl & Hlen & Hcn).
  destruct (Nat.ltb_spec (length (buf (Sub.send s))) (cap (Sub.send s))) as [Hfree|Hfull]; simpl.
  - set (s1 := Sub.mkSubscriber _ _ _ _).
    apply (IH _ s1); [|by eapply heap_store].
    apply (consistent_store p s); try done.
    unfold subscriberOk. simpl. splits; try done. rewrite length_app. simpl. lia.
  - unfold CloseWithError, deref. rewrite Hp. simpl.
    set (w1 := connWrite _ _ w).
    destruct (Close_consistent p w1 s) as (w2 & -> & Hw2 & (s2 & Hp2 & _) & _);
      [by apply consistent_connWrite|done|].
    simpl. by apply (IH w2 s2).
Qed.

(** The fan-out loop in a consistent state. *)
Lemma fanout_sound (m : Message) (ks : list string) :
  forall (subs : gmap string nat) (w : World),
    consistent w ->
    (forall k p, subs !! k = Some p -> exists s, heap w !! p = Some s /\ Sub.id s = k) ->
    match fanout ks m subs w with
    | Ok (subs', w') =>
        consistent w' /\ globalTopics w' = globalTopics w /\
        (forall k p, subs' !! k = Some p -> exists s, heap w' !! p = Some s /\ Sub.id s = k)
    | Panic e => e = SendOnClosedChannel
    end.
Proof.
  induction ks as [|k ks IH]; intros subs w Hw Hb; simpl; [done|].
  destruct (subs !! k) as [p|] eqn:Hk; [|by apply IH].
  destruct (Hb k p Hk) as (s & Hp & Hid).
  unfold deref. rewrite Hp. simpl. unfold trySend.
  destruct (isClosed (Sub.send s)) eqn:Hopen; [done|].
  pose proof Hw as [Hsub _]. destruct (Hsub p s Hp) as (Hbuf & Hcl & Hlen & Hcn).
  destruct (Nat.ltb_spec (length (buf (Sub.send s))) (cap (Sub.send s))) as [Hfree|Hfull]; simpl.
  - set (s1 := Sub.mkSubscriber _ _ _ _).
    assert (Hw1 : consistent (store p s1 w)).
    { apply (consistent_store p s); try done.
      unfold subscriberOk. simpl. splits; try done. rewrite length_app. simpl. lia. }
    assert (Hb1 : forall k0 p0, subs !! k0 = Some p0 ->
                    exists s0, heap (store p s1 w) !! p0 = Some s0 /\ Sub.id s0 = k0).
    { apply (bindings_later subs w); [|done].
      apply (laterHeap_store p s); [done|]. by unfold evolves. }
    specialize (IH subs (store p s1 w) Hw1 Hb1).
    by destruct (fanout ks m subs (store p s1 w)) as [[subs' w']|e].
  - set (w1 := connWrite _ _ w).
    assert (Hw1 : consistent w1) by (by apply consistent_connWrite).
    destruct (Close_consistent p w1 s Hw1 Hp) as (w2 & HCl & Hw2 & _ & Ht2 & _).
    rewrite HCl. simpl.
    destruct (Close_later _ _ _ HCl) as [Hl2 _].
    assert (Hb2 : forall k0 p0, delete k subs !! k0 = Some p0 ->
                    exists s0, heap w2 !! p0 = Some s0 /\ Sub.id s0 = k0).
    { intros k0 p0 Hk0. apply lookup_delete_Some in Hk0 as [_ Hk0].
      apply (bindings_later subs w1 w2 Hl2); [|done]. exact Hb. }
    specialize (IH (delete k subs) w2 Hw2 Hb2).
    destruct (fanout ks m (delete k subs) w2) as [[subs' w']|e]; [|done].
    destruct IH as (Hw' & Ht' & Hb'). split; [done|]. split; [|done].
    by rewrite Ht', Ht2.
Qed.

Lemma Close_conns (p : nat) (w w' : World) :
  Close p w = Ok w' -> length (conns w') = length (conns w).
Proof. intros H. by destruct (Close_frame _ _ _ H) as (_ & _ & ? & _). Qed.

Lemma fanout_conns (m : Message) (ks : list string) :
  forall (subs : gmap string nat) (w : World),
    match fanout ks m subs w with
    | Ok (_, w') => length (conns w') = length (conns w)
    | Panic _ => True
    end.
Proof.
  induction ks as [|k ks IH]; intros subs w; simpl; [done|].
  destruct (subs !! k) as [p|]; [|apply IH].
  destruct (deref p w) as [s|]; simpl; [|done].
  destruct (trySend m (Sub.send s)) as [[ch|]|]; simpl; [| |done].
  - apply (IH subs (store p _ w)).
  - destruct (Close p _) as [w1|] eqn:HCl; simpl; [|done].
    apply Close_conns in HCl. simpl in HCl. rewrite length_alter in HCl.
    specialize (IH (delete k subs) w1).
    destruct (fanout ks m (delete k subs) w1) as [[subs' w']|]; [|done]. congruence.
Qed.

Lemma sound_then_write (c : nat) (f : Out.ServerToClient) (r : Result World) :
  sound r -> sound (r ≫= fun w => Ok (connWrite c f w)).
Proof. destruct r as [w|e]; simpl; [apply consistent_connWrite|done]. Qed.

Lemma closeOld_consistent (topic : Topic) (cid : string) (w : World) :
  consistent w ->
  (forall p, subscribers topic !! cid = Some p -> is_Some (heap w !! p)) ->
  exists w', closeOld topic cid w = Ok w' /\ consistent w'.
Proof.
  intros Hw Hval. unfold closeOld. destruct (subscribers topic !! cid) as [old|].
  - destruct (Hval old eq_refl) as [s Hs].
    destruct (Close_consistent old w s Hw Hs) as (w' & H & Hw' & _). by exists w'.
  - by exists w.
Qed.

(** A subscribe stops at [make] when the queue size is out of range;
    otherwise it returns a consistent state or stops on a send on a closed
    channel. *)
Lemma handleSubscribe_sound (c : nat) (inp : In.ClientToServer) (w : World) :
  consistent w -> (c < length (conns w))%nat ->
  sound (handleSubscribe c inp w) \/
  (handleSubscribe c inp w = Panic MakechanSizeOutOfRange /\ ~ queueFits w).
Proof.
  intros Hw Hc. unfold handleSubscribe.
  destruct (_ || _); [left; by apply consistent_connWrite|].
  unfold GetTopic.
  destruct (topics (globalTopics w) !! In.Topic inp) as [topic|] eqn:Htopic;
    [|left; by apply consistent_connWrite].
  pose proof Hw as [_ Htop]. destruct (Htop _ _ Htopic) as (Hname & Hring & Hbind).
  set (cid := In.ClientID inp). set (p := length (heap w)).
  destruct (decide (queueFits w)) as [Hq|Hq].
  2: { right. by rewrite (newSubscriber_unfit _ _ _ Hq). }
  left. rewrite (newSubscriber_fits _ _ _ Hq), Ok_bind. fold p.
  set (w1 := allocated cid c w).
  assert (Hw1 : consistent w1) by (by apply consistent_allocated).
  destruct (closeOld_consistent topic cid w1 Hw1) as (w2 & Hold & Hw2).
  { intros old Hold. destruct (Hbind cid old Hold) as (s & Hs & _).
    exists s. simpl. by apply lookup_app_l_Some. }
  unfold register. rewrite Hold. simpl.
  destruct (closeOld_later _ _ _ _ Hold) as [[_ Hev] _].
  destruct (Hev p _ (heap_allocated cid c w)) as (s2 & Hp2 & Hid2 & _).
  simpl in Hid2.
  set (w3 := bindSubscriber _ _ _ w2).
  assert (Hw3 : consistent w3) by (by apply (consistent_bindSubscriber _ _ _ s2)).
  apply sound_then_write. unfold replayLastN.
  destruct (In.LastN inp >? 0); [|done].
  destruct (LastN_wf (In.LastN inp) (history topic) Hring) as (ms & -> & _).
  simpl. by apply (replay_sound p ms w3 s2).
Qed.

Lemma handleUnsubscribe_sound (c : nat) (inp : In.ClientToServer) (w : World) :
  consistent w -> exists w', handleUnsubscribe c inp w = Ok w' /\ consistent w'.
Proof.
  intros Hw. unfold handleUnsubscribe.
  destruct (_ || _); [eexists; split; [reflexivity|by apply consistent_connWrite]|].
  unfold GetTopic.
  destruct (topics (globalTopics w) !! In.Topic inp) as [topic|] eqn:Htopic; simpl.
  2: { eexists; split; [reflexivity|by apply consistent_connWrite]. }
  pose proof Hw as [_ Htop]. destruct (Htop _ _ Htopic) as (_ & _ & Hbind).
  destruct (subscribers topic !! In.ClientID inp) as [p|] eqn:Hk; simpl.
  2: { eexists; split; [reflexivity|by apply consistent_connWrite]. }
  destruct (Hbind _ _ Hk) as (s & Hs & _).
  destruct (Close_consistent p w s Hw Hs) as (w1 & -> & Hw1 & _). simpl.
  eexists; split; [reflexivity|].
  by apply consistent_connWrite, consistent_unbindSubscriber.
Qed.

Lemma publishToTopic_sound (ks : list string) (topicName : string) (m : Message) (w : World) :
  consistent w ->
  match publishToTopic ks topicName m w with
  | Ok (_, w') => consistent w' /\ length (conns w') = length (conns w)
  | Panic e => e = SendOnClosedChannel
  end.
Proof.
  intros Hw. unfold publishToTopic, GetTopic.
  destruct (topics (globalTopics w) !! topicName) as [t|] eqn:Ht; [|done].
  pose proof Hw as [_ Htop]. destruct (Htop _ _ Ht) as (Hname & Hring & Hbind).
  destruct (Add_wf m (history t) Hring) as (h & -> & Hh & _). simpl.
  pose proof (fanout_sound m ks (subscribers t) w Hw Hbind) as Hf.
  pose proof (fanout_conns m ks (subscribers t) w) as Hc.
  destruct (fanout ks m (subscribers t) w) as [[subs' w']|e]; [|done]. simpl.
  destruct Hf as ([Hsub' Htop'] & Ht' & Hb'). split; [|by apply Hc].
  split; [exact Hsub'|].
  intros nm t0 Hnm. simpl in Hnm.
  destruct (decide (topicName = nm)) as [->|Hne].
  - rewrite lookup_insert_eq in Hnm. injection Hnm as <-. by split.
  - rewrite lookup_insert_ne in Hnm by done. by apply Htop'.
Qed.

Lemma handlePublish_sound (ks : list string) (c : nat) (inp : In.ClientToServer) (w : World) :
  consistent w -> sound (handlePublish ks c inp w).
Proof.
  intros Hw. unfold handlePublish.
  destruct (In.Message inp) as [m|]; [|by apply consistent_connWrite].
  destruct (String.eqb (In.Topic inp) ""); [by apply consistent_connWrite|].
  pose proof (publishToTopic_sound ks (In.Topic inp) m w Hw) as H.
  destruct (publishToTopic ks (In.Topic inp) m w) as [[[e|] w']|e]; simpl; [| |done].
  - apply consistent_connWrite, H.
  - apply consistent_connWrite, H.
Qed.

Lemma handleFrame_sound (ks : list string) (c : nat) (inp : In.ClientToServer) (w : World) :
  consistent w -> (c < length (conns w))%nat ->
  sound (handleFrame ks c inp w) \/
  (handleFrame ks c inp w = Panic MakechanSizeOutOfRange /\
   In.Type_ inp = "subscribe" /\ ~ queueFits w).
Proof.
  intros Hw Hc. unfold handleFrame.
  destruct (String.eqb (In.Type_ inp) "ping"); [left; by apply consistent_connWrite|].
  destruct (String.eqb_spec (In.Type_ inp) "subscribe") as [Hty|_].
  { destruct (handleSubscribe_sound c inp w Hw Hc) as [H|[H Hq]]; [by left|by right]. }
  left.
  destruct (String.eqb (In.Type_ inp) "unsubscribe").
  { destruct (handleUnsubscribe_sound c inp w Hw) as (w' & -> & Hw'). exact Hw'. }
  destruct (String.eqb (In.Type_ inp) "publish"); [by apply handlePublish_sound|].
  by apply consistent_connWrite.
Qed.

Lemma consistent_init (env : gmap string string) (now : Z) : consistent (initWorld env now).
Proof. split; [intros p s Hp|intros nm t Hnm]; simpl in *; done. Qed.

Lemma ringWf_new : ringWf (Ring.mkRing (replicate 100 zeroMessage) 100 0 false).
Proof. unfold ringWf. cbn [Ring.size Ring.data Ring.next]. rewrite length_replicate. lia. Qed.

Lemma topicsCollectionHandler_consistent (ks : list string) (method : string) (req : Decoded)
    (w : World) :
  consistent w ->
  exists resp w', topicsCollectionHandler ks method req w = Ok (resp, w') /\ consistent w'.
Proof.
  intros Hw. unfold topicsCollectionHandler.
  destruct (String.eqb method "POST").
  - destruct req as [|nm]; [by eexists _, _|].
    destruct (String.eqb (TrimSpace nm) ""); [by eexists _, _|].
    destruct (topics (globalTopics w) !! nm) as [t|] eqn:Hnm.
    + rewrite (CreateTopic_exists nm _ (ex_intro _ t Hnm)). simpl. by eexists _, _.
    + rewrite (CreateTopic_new nm _ Hnm). cbn [mbind Result_bind].
      eexists _, _. split; [reflexivity|].
      destruct Hw as [Hsub Htop]. split; [exact Hsub|].
      intros nm0 t0 H0. cbn [globalTopics setTopics topics] in H0.
      destruct (decide (nm = nm0)) as [->|Hne].
      * rewrite lookup_insert_eq in H0. injection H0 as <-.
        split; [done|]. split; [exact ringWf_new|]. intros k p Hk.
        cbn [subscribers] in Hk. by rewrite lookup_empty in Hk.
      * rewrite lookup_insert_ne in H0 by done. by apply Htop.
  - destruct (String.eqb method "GET"); by eexists _, _.
Qed.

Lemma DeleteTopic_consistent (ks : list string) (nm : string) (w : World) :
  consistent w ->
  exists r w', DeleteTopic ks nm w = Ok (r, w') /\ consistent w' /\
    length (conns w') = length (conns w) /\
    match topics (globalTopics w) !! nm with
    | None => r = Some ErrTopicNotFound /\ w' = w
    | Some t =>
        r = None /\
        topics (globalTopics w') = delete nm (topics (globalTopics w)) /\
        forall k p, k ∈ ks -> subscribers t !! k = Some p -> wasClosed p w'
    end.
Proof.
  intros Hw. unfold DeleteTopic.
  destruct (topics (globalTopics w) !! nm) as [t|] eqn:Hnm; [|by eexists _, _].
  pose proof Hw as [_ Htop]. destruct (Htop _ _ Hnm) as (_ & _ & Hbind).
  destruct (closeEach_consistent ks (subscribers t) w Hw)
    as (w1 & -> & [Hsub1 Htop1] & Ht1 & _ & Hc1 & _ & Hall).
  { intros k p Hk. destruct (Hbind k p Hk) as (s & -> & _). eauto. }
  simpl. eexists _, _. split; [reflexivity|]. splits; try done.
  - split; [exact Hsub1|]. intros nm0 t0 H0. simpl in H0.
    apply lookup_delete_Some in H0 as [_ H0]. by apply Htop1.
  - simpl. by rewrite Ht1.
Qed.

Lemma topicsItemHandler_consistent (ks : list string) (method path : string) (w : World) :
  consistent w ->
  exists resp w', topicsItemHandler ks method path w = Ok (resp, w') /\ consistent w'.
Proof.
  intros Hw. unfold topicsItemHandler.
  destruct (negb _); [by eexists _, _|].
  destruct (Split _ _) as [|nm parts]; [by eexists _, _|].
  destruct (String.eqb nm ""); [by eexists _, _|].
  destruct (DeleteTopic_consistent ks nm w Hw) as (r & w' & -> & Hw' & _). simpl.
  destruct r as [[|]|]; by eexists _, _.
Qed.

Lemma subscriberWriteStep_consistent (ctxDone writeFails : bool) (topicName : string)
    (p : nat) (w : World) (s : Sub.Subscriber) :
  consistent w -> heap w !! p = Some s ->
  exists goesOn w',
    subscriberWriteStep ctxDone writeFails topicName p w = Ok (goesOn, w') /\ consistent w'.
Proof.
  intros Hw Hp. unfold subscriberWriteStep.
  destruct ctxDone; [by eexists _, _|].
  unfold deref. rewrite Hp. simpl.
  pose proof Hw as [Hsub _]. destruct (Hsub p s Hp) as (Hb & Hcl & Hlen & Hcn).
  unfold tryRecv. destruct (buf (Sub.send s)) as [|m rest] eqn:Hbuf.
  { destruct (isClosed (Sub.send s)); by eexists _, _. }
  set (s1 := Sub.mkSubscriber _ _ _ _).
  assert (Hw1 : consistent (connWrite (Sub.conn s) (eventFrame topicName m) (store p s1 w))).
  { apply consistent_connWrite, (consistent_store p s); try done.
    unfold subscriberOk. simpl. splits; try done. simpl in Hlen. lia. }
  destruct writeFails; [|by eexists _, _].
  destruct (Close_consistent p _ s1 Hw1) as (w2 & -> & Hw2 & _).
  - simpl. by eapply heap_store.
  - simpl. by eexists _, _.
Qed.

Lemma subscriberWriteStep_allocated (ctxDone writeFails goesOn : bool) (topicName : string)
    (p : nat) (w w' : World) :
  consistent w ->
  subscriberWriteStep ctxDone writeFails topicName p w = Ok (goesOn, w') -> consistent w'.
Proof.
  intros Hw H. destruct (heap w !! p) as [s|] eqn:Hp.
  - destruct (subscriberWriteStep_consistent ctxDone writeFails topicName p w s Hw Hp)
      as (g & w1 & H1 & Hw1). congruence.
  - unfold subscriberWriteStep in H. destruct ctxDone; [by injection H as _ <-|].
    unfold deref in H. by rewrite Hp in H.
Qed.

(** The invariant holds in every state of the process. *)
Lemma reachable_is_consistent (w : World) : reachable w -> consistent w.
Proof.
  induction 1 as [env now|w _ IH|w w' ks method req resp _ IH H
                 |w w' ks method path resp _ IH H|w w' ks c inp _ IH Hc H
                 |w w' ctxDone writeFails goesOn topicName p _ IH H
                 |w w' cks c _ IH Hc H].
  - apply consistent_init.
  - by apply consistent_accept.
  - destruct (topicsCollectionHandler_consistent ks method req w IH) as (r1 & w1 & H1 & Hw1).
    congruence.
  - destruct (topicsItemHandler_consistent ks method path w IH) as (r1 & w1 & H1 & Hw1).
    congruence.
  - destruct (handleFrame_sound ks c inp w IH Hc) as [Hs|[Hs _]]; by rewrite H in Hs.
  - by eapply subscriberWriteStep_allocated.
  - rewrite sessionCleanup_empty in H. injection H as <-. by apply consistent_connClose.
Qed.

(** X4.  The invariant of the process.  In every state reached from
    start-up: each subscriber's queue holds no more messages than its
    capacity, nothing was ever sent on its closed-signal, its send queue is
    closed only if its closed-signal has fired, and its socket is an
    accepted one; each topic is registered under its own name, has a
    well-formed ring buffer, and binds each client id to an allocated
    subscriber that carries that client id. *)
Theorem reachable_consistent (w : World) : reachable w -> consistent w.
Proof. apply reachable_is_consistent. Qed.

Lemma reachable_oneSubscriber : reachable (stateOf oneSubscriber).
Proof.
  apply (reach_frame (connect (stateOf (postTopic "t" (initWorld smallQueues 0))))
           _ [] 0 (subscribeFrame "t" "c" 0 "r1")).
  - apply reach_accept.
    apply (reach_collection (initWorld smallQueues 0) _ [] "POST" (Body "t")
             (mkResponse 201 (CreatedJSON "t"))).
    + apply reach_start.
    + vm_compute. reflexivity.
  - vm_compute. lia.
  - vm_compute. reflexivity.
Qed.

Lemma reachable_consistent_witness : consistent (stateOf oneSubscriber).
Proof. apply reachable_consistent. exact reachable_oneSubscriber. Defined.

Lemma clampInt_range (z : Z) : - 2 ^ 63 <= clampInt z <= 2 ^ 63 - 1.
Proof.
  unfold clampInt. destruct (Z.gtb_spec z (2 ^ 63 - 1)); [lia|].
  destruct (Z.ltb_spec z (- 2 ^ 63)); lia.
Qed.

Lemma Atoi_range (s : string) : - 2 ^ 63 <= Atoi s <= 2 ^ 63 - 1.
Proof.
  unfold Atoi.
  match goal with |- context [let '(n, b) := ?X in _] => destruct X as [neg body] end.
  destruct body as [|a body]; [lia|].
  destruct (parseDigits (String a body) 0); [apply clampInt_range|lia].
Qed.

Lemma initSubscriberQueueSize_range (env : gmap string string) :
  0 < initSubscriberQueueSize env <= 2 ^ 63 - 1.
Proof.
  unfold initSubscriberQueueSize.
  pose proof (Atoi_range (Getenv env "SUBSCRIBER_QUEUE_SIZE")) as Hr.
  destruct (negb _ && (Atoi _ >? 0)) eqn:E; [|lia].
  apply andb_true_iff in E as [_ E]. apply Z.gtb_lt in E. lia.
Qed.

(** The queue size is fixed at start-up: no operation writes to it. *)
Lemma Close_queueSize (p : nat) (w w' : World) :
  Close p w = Ok w' -> subscriberQueueSize w' = subscriberQueueSize w.
Proof.
  unfold Close. intros H. apply bind_Ok in H as (s & _ & H).
  destruct (tryRecv (Sub.closed s)); try (by injection H as <-).
  apply bind_Ok in H as (cl & _ & H). apply bind_Ok in H as (sd & _ & H).
  by injection H as <-.
Qed.

Lemma closeEach_queueSize (ks : list string) (subs : gmap string nat) :
  forall w w', closeEach ks subs w = Ok w' -> subscriberQueueSize w' = subscriberQueueSize w.
Proof.
  induction ks as [|k ks IH]; intros w w' H; simpl in H; [by injection H as <-|].
  destruct (subs !! k) as [p|]; [|by apply IH].
  apply bind_Ok in H as (w1 & H1 & H). rewrite (IH _ _ H). by apply (Close_queueSize p).
Qed.

Lemma replay_queueSize (p : nat) (ms : list Message) :
  forall w w', replay p ms w = Ok w' -> subscriberQueueSize w' = subscriberQueueSize w.
Proof.
  induction ms as [|m ms IH]; intros w w' H; simpl in H; [by injection H as <-|].
  apply bind_Ok in H as (s & _ & H). apply bind_Ok in H as ([ch|] & _ & H).
  - by rewrite (IH _ _ H).
  - apply bind_Ok in H as (w1 & H1 & H). rewrite (IH _ _ H).
    unfold CloseWithError in H1. apply bind_Ok in H1 as (s1 & _ & H1).
    by rewrite (Close_queueSize _ _ _ H1).
Qed.

Lemma fanout_queueSize (m : Message) (ks : list string) :
  forall subs w subs' w',
    fanout ks m subs w = Ok (subs', w') -> subscriberQueueSize w' = subscriberQueueSize w.
Proof.
  induction ks as [|k ks IH]; intros subs w subs' w' H; simpl in H; [by injection H as _ <-|].
  destruct (subs !! k) as [p|]; [|by eapply IH].
  apply bind_Ok in H as (s & _ & H). apply bind_Ok in H as ([ch|] & _ & H).
  - by rewrite (IH _ _ _ _ H).
  - apply bind_Ok in H as (w1 & H1 & H). rewrite (IH _ _ _ _ H).
    by rewrite (Close_queueSize _ _ _ H1).
Qed.

Lemma handleFrame_queueSize (ks : list string) (c : nat) (inp : In.ClientToServer)
    (w w' : World) :
  handleFrame ks c inp w = Ok w' -> subscriberQueueSize w' = subscriberQueueSize w.
Proof.
  unfold handleFrame.
  destruct (String.eqb (In.Type_ inp) "ping"); [by intros [= <-]|].
  destruct (String.eqb (In.Type_ inp) "subscribe").
  { unfold handleSubscribe. destruct (_ || _); [by intros [= <-]|].
    destruct (GetTopic _ _) as [topic|]; [|by intros [= <-]].
    intros H. apply bind_Ok in H as ([p w1] & Hnew & H).
    apply newSubscriber_Ok in Hnew as (_ & -> & ->).
    apply bind_Ok in H as (w2 & H2 & H). apply bind_Ok in H as (w3 & H3 & [= <-]).
    unfold register in H2. apply bind_Ok in H2 as (wm & Hm & [= <-]).
    assert (Hq3 : subscriberQueueSize w3 = subscriberQueueSize wm).
    { unfold replayLastN in H3. destruct (In.LastN inp >? 0); [|by injection H3 as <-].
      apply bind_Ok in H3 as (ms & _ & H3). by rewrite (replay_queueSize _ _ _ _ H3). }
    simpl. rewrite Hq3. unfold closeOld in Hm.
    destruct (subscribers topic !! In.ClientID inp) as [old|].
    - by rewrite (Close_queueSize _ _ _ Hm).
    - by injection Hm as <-. }
  destruct (String.eqb (In.Type_ inp) "unsubscribe").
  { unfold handleUnsubscribe. destruct (_ || _); [by intros [= <-]|].
    intros H. apply bind_Ok in H as (w1 & H1 & [= <-]). simpl.
    destruct (GetTopic _ _) as [topic|]; [|by injection H1 as <-].
    destruct (subscribers topic !! In.ClientID inp) as [p|]; [|by injection H1 as <-].
    apply bind_Ok in H1 as (w2 & H2 & [= <-]). simpl. by apply (Close_queueSize p). }
  destruct (String.eqb (In.Type_ inp) "publish"); [|by intros [= <-]].
  unfold handlePublish. destruct (In.Message inp) as [m|]; [|by intros [= <-]].
  destruct (String.eqb (In.Topic inp) ""); [by intros [= <-]|].
  intros H. apply bind_Ok in H as ([r w1] & Hp & H).
  assert (Hq1 : subscriberQueueSize w1 = subscriberQueueSize w).
  { unfold publishToTopic in Hp. destruct (GetTopic _ _) as [t|]; [|by injection Hp as _ <-].
    apply bind_Ok in Hp as (h & _ & Hp). apply bind_Ok in Hp as ([subs w2] & Hf & [= _ <-]).
    simpl. by apply (fanout_queueSize m ks (subscribers t) w subs). }
  destruct r as [e|]; injection H as <-; exact Hq1.
Qed.

(** In every reachable state the queue size is the one computed at
    start-up: positive, and an [int]. *)
Lemma reachable_queueSize (w : World) :
  reachable w -> 0 < subscriberQueueSize w <= 2 ^ 63 - 1.
Proof.
  induction 1 as [env now|w _ IH|w w' ks method req resp _ IH H
                 |w w' ks method path resp _ IH H|w w' ks c inp _ IH Hc H
                 |w w' ctxDone writeFails goesOn topicName p _ IH H
                 |w w' cks c _ IH Hc H].
  - apply initSubscriberQueueSize_range.
  - exact IH.
  - replace (subscriberQueueSize w') with (subscriberQueueSize w); [exact IH|].
    unfold topicsCollectionHandler in H.
    destruct (String.eqb method "POST").
    + destruct req as [|nm]; [by injection H as _ <-|].
      destruct (String.eqb (TrimSpace nm) ""); [by injection H as _ <-|].
      apply bind_Ok in H as ([r tm] & _ & H).
      destruct r as [[]|]; by injection H as _ <-.
    + destruct (String.eqb method "GET"); by injection H as _ <-.
  - replace (subscriberQueueSize w') with (subscriberQueueSize w); [exact IH|].
    unfold topicsItemHandler in H.
    destruct (negb _); [by injection H as _ <-|].
    destruct (Split _ _) as [|nm rest]; [by injection H as _ <-|].
    destruct (String.eqb nm ""); [by injection H as _ <-|].
    apply bind_Ok in H as ([r w1] & Hd & H).
    assert (Hq1 : r = None -> subscriberQueueSize w1 = subscriberQueueSize w).
    { intros ->. unfold DeleteTopic in Hd.
      destruct (topics (globalTopics w) !! nm) as [t|]; [|done].
      apply bind_Ok in Hd as (w2 & H2 & [= <-]). simpl.
      by apply (closeEach_queueSize ks (subscribers t)). }
    destruct r as [[]|]; injection H as _ <-; try done. symmetry. by apply Hq1.
  - by rewrite (handleFrame_queueSize _ _ _ _ _ H).
  - replace (subscriberQueueSize w') with (subscriberQueueSize w); [exact IH|].
    unfold subscriberWriteStep in H. destruct ctxDone; [by injection H as _ <-|].
    apply bind_Ok in H as (s & _ & H).
    destruct (tryRecv (Sub.send s)) as [m ch| |]; try (by injection H as _ <-).
    destruct writeFails; [|by injection H as _ <-].
    apply bind_Ok in H as (w2 & H2 & [= _ <-]).
    by rewrite (Close_queueSize _ _ _ H2).
  - rewrite sessionCleanup_empty in H. by injection H as <-.
Qed.

(** X5.  In a reachable state, handling a frame read from an accepted
    socket either returns or panics in one of two ways: with a send on a
    closed channel, or, for a subscribe frame when the queue size taken
    from SUBSCRIBER_QUEUE_SIZE is larger than [make] accepts, with
    "makechan: size out of range".  It never dereferences a missing
    subscriber, never closes a closed channel and never indexes the ring
    buffer out of range; and with a queue size that [make] accepts the only
    fault is the send on a closed channel. *)
Theorem handleFrame_only_fault
    (ks : list string) (c : nat) (inp : In.ClientToServer) (w : World) (e : PanicKind) :
  reachable w -> (c < length (conns w))%nat ->
  handleFrame ks c inp w = Panic e ->
  e = SendOnClosedChannel \/
  (e = MakechanSizeOutOfRange /\ In.Type_ inp = "subscribe" /\
   makechanLimit < subscriberQueueSize w).
Proof.
  intros Hr Hc H.
  destruct (handleFrame_sound ks c inp w (reachable_is_consistent w Hr) Hc)
    as [Hs|(Hs & Hty & Hq)].
  - left. by rewrite H in Hs.
  - right. rewrite H in Hs. injection Hs as ->. split; [done|]. split; [done|].
    pose proof (reachable_queueSize w Hr) as Hpos. unfold queueFits in Hq. lia.
Qed.

Lemma reachable_twoPublished : reachable (stateOf twoPublished).
Proof.
  apply (reach_frame
           (stateOf (handleFrame [] 0 (publishFrame "t" (msg "1") "p1")
                       (connect (stateOf (postTopic "t" (initWorld smallQueues 0))))))
           _ [] 0 (publishFrame "t" (msg "2") "p2")).
  - apply (reach_frame (connect (stateOf (postTopic "t" (initWorld smallQueues 0))))
             _ [] 0 (publishFrame "t" (msg "1") "p1")).
    + apply reach_accept.
      apply (reach_collection (initWorld smallQueues 0) _ [] "POST" (Body "t")
               (mkResponse 201 (CreatedJSON "t"))).
      * apply reach_start.
      * vm_compute. reflexivity.
    + vm_compute. lia.
    + vm_compute. reflexivity.
  - vm_compute. lia.
  - vm_compute. reflexivity.
Qed.

Lemma reachable_threePublished : reachable (connect (stateOf threePublished)).
Proof.
  apply reach_accept.
  apply (reach_frame (stateOf twoPublished) _ [] 0 (publishFrame "t" (msg "3") "p3")).
  - exact reachable_twoPublished.
  - vm_compute. lia.
  - vm_compute. reflexivity.
Qed.

Lemma reachable_hugeQueueTopic : reachable (stateOf hugeQueueTopic).
Proof.
  apply (reach_accept (stateOf (postTopic "t" (initWorld hugeQueues 0)))).
  apply (reach_collection (initWorld hugeQueues 0) _ [] "POST" (Body "t")
           (mkResponse 201 (CreatedJSON "t"))).
  - apply reach_start.
  - vm_compute. reflexivity.
Qed.

(** Both faults occur: the send on a closed channel with queues of one
    message, the refused [make] with SUBSCRIBER_QUEUE_SIZE set to the
    largest [int]. *)
Lemma handleFrame_only_fault_witness :
  handleFrame [] 1 (subscribeFrame "t" "a" 3 "r1") (connect (stateOf threePublished))
    = Panic SendOnClosedChannel /\
  handleFrame [] 0 (subscribeFrame "t" "a" 0 "r1") (stateOf hugeQueueTopic)
    = Panic MakechanSizeOutOfRange /\
  makechanLimit < subscriberQueueSize (stateOf hugeQueueTopic).
Proof.
  assert (H1 : handleFrame [] 1 (subscribeFrame "t" "a" 3 "r1")
                 (connect (stateOf threePublished)) = Panic SendOnClosedChannel)
    by (vm_compute; reflexivity).
  assert (H2 : handleFrame [] 0 (subscribeFrame "t" "a" 0 "r1")
                 (stateOf hugeQueueTopic) = Panic MakechanSizeOutOfRange)
    by (vm_compute; reflexivity).
  split; [exact H1|]. split; [exact H2|].
  destruct (handleFrame_only_fault [] 0 (subscribeFrame "t" "a" 0 "r1")
              (stateOf hugeQueueTopic) MakechanSizeOutOfRange)
    as [Hbad|(_ & _ & Hlim)].
  - exact reachable_hugeQueueTopic.
  - vm_compute. lia.
  - exact H2.
  - discriminate Hbad.
  - exact Hlim.
Defined.

(** X6.  In a reachable state the two REST handlers of /topics never
    panic, whatever the method, body or path. *)
Theorem topics_handlers_return
    (ks ks' : list string) (method method' path : string) (req : Decoded) (w : World) :
  reachable w ->
  (exists resp w', topicsCollectionHandler ks method req w = Ok (resp, w')) /\
  (exists resp w', topicsItemHandler ks' method' path w = Ok (resp, w')).
Proof.
  intros Hr. pose proof (reachable_is_consistent w Hr) as Hw. split.
  - destruct (topicsCollectionHandler_consistent ks method req w Hw) as (r & w' & H & _).
    by exists r, w'.
  - destruct (topicsItemHandler_consistent ks' method' path w Hw) as (r & w' & H & _).
    by exists r, w'.
Qed.

Lemma topics_handlers_return_witness :
  (exists resp w', topicsCollectionHandler [] "POST" (Body "u") (stateOf oneSubscriber)
                   = Ok (resp, w')) /\
  (exists resp w', topicsItemHandler ["c"] "DELETE" "/topics/t" (stateOf oneSubscriber)
                   = Ok (resp, w')).
Proof.
  apply (topics_handlers_return [] ["c"] "POST" "DELETE" "/topics/t" (Body "u")
           (stateOf oneSubscriber)).
  exact reachable_oneSubscriber.
Defined.

(** ** DELETE /topics/{name} *)

Lemma stripPrefix_append (pre s : string) : stripPrefix pre (String.append pre s) = Some s.
Proof. induction pre as [|a pre IH]; simpl; [by destruct s|]. by rewrite Ascii.eqb_refl. Qed.

Lemma Split_without (sep : ascii) (s : string) :
  contains sep s = false -> Split s sep = [s].
Proof.
  induction s as [|a s IH]; simpl; [done|]. intros H.
  apply orb_false_iff in H as [Ha Hs]. rewrite Ha, (IH Hs). done.
Qed.

(** The first piece of a split holds no separator. *)
Lemma Split_head (sep : ascii) (s : string) :
  exists h tl, Split s sep = h :: tl /\ contains sep h = false.
Proof.
  induction s as [|a s (h & tl & IH & Hh)]; simpl; [by exists EmptyString, []|].
  destruct (Ascii.eqb a sep) eqn:Ha.
  - by exists EmptyString, (Split s sep).
  - rewrite IH. exists (String a h), tl. split; [done|]. simpl. by rewrite Ha, Hh.
Qed.

(** X7.  DELETE /topics/{name} in a reachable state, for a non-empty name
    without a slash: if no such topic is registered the answer is 404
    TOPIC_NOT_FOUND and nothing changes; otherwise the answer is 200, the
    topic is gone from the registry (so that [GetTopic] fails for it), the
    other topics are untouched, and every subscriber that was registered
    on it has its closed-signal fired. *)
Theorem delete_topic_request (ks : list string) (nm : string) (w : World) :
  reachable w -> nm <> "" -> contains "/" nm = false ->
  (topics (globalTopics w) !! nm = None ->
     topicsItemHandler ks "DELETE" (String.append "/topics/" nm) w =
       Ok (mkItemResponse 404 (ItemErrorJSON "TOPIC_NOT_FOUND" "topic not found"), w)) /\
  (forall t, topics (globalTopics w) !! nm = Some t -> rangeOrder ks (subscribers t) ->
     exists w',
       topicsItemHandler ks "DELETE" (String.append "/topics/" nm) w =
         Ok (mkItemResponse 200 (DeletedJSON nm), w') /\
       topics (globalTopics w') = delete nm (topics (globalTopics w)) /\
       GetTopic nm (globalTopics w') = inr ErrTopicNotFound /\
       forall k p, subscribers t !! k = Some p -> wasClosed p w').
Proof.
  intros Hr Hne Hslash. pose proof (reachable_is_consistent w Hr) as Hw.
  assert (Hparts : Split (TrimPrefix (String.append "/topics/" nm) "/topics/") "/" = [nm]).
  { unfold TrimPrefix. rewrite stripPrefix_append. by apply Split_without. }
  unfold topicsItemHandler. cbn [String.eqb Ascii.eqb Bool.eqb negb].
  rewrite Hparts, (eqb_empty_false _ Hne).
  destruct (DeleteTopic_consistent ks nm w Hw) as (r & w' & -> & _ & _ & Hcase).
  cbn [mbind Result_bind]. split.
  - intros Hnone. rewrite Hnone in Hcase. by destruct Hcase as [-> ->].
  - intros t Ht Hord. rewrite Ht in Hcase. destruct Hcase as (-> & Htop & Hall).
    exists w'. split; [done|]. split; [done|]. split.
    + unfold GetTopic. by rewrite Htop, lookup_delete_eq.
    + intros k p Hk. apply (Hall k p); [|done]. by eapply rangeOrder_elem.
Qed.

Lemma delete_topic_request_witness :
  exists w',
    topicsItemHandler ["c"] "DELETE" "/topics/t" (stateOf oneSubscriber) =
      Ok (mkItemResponse 200 (DeletedJSON "t"), w') /\
    GetTopic "t" (globalTopics w') = inr ErrTopicNotFound /\
    wasClosed 0 w'.
Proof.
  destruct (delete_topic_request ["c"] "t" (stateOf oneSubscriber)) as [_ H].
  - exact reachable_oneSubscriber.
  - discriminate.
  - reflexivity.
  - destruct (H (topicOf "t" (stateOf oneSubscriber))) as (w' & Hrun & _ & Hget & Hall).
    + vm_compute. reflexivity.
    + apply (bool_decide_unpack _). vm_compute. exact I.
    + exists w'. split; [exact Hrun|]. split; [exact Hget|].
      apply (Hall "c"). vm_compute. reflexivity.
Defined.

(** X8.  No request to the item handler removes, or otherwise changes the
    registration of, a topic whose name contains a slash: the handler only
    ever deletes the first piece of the path after "/topics/", and that
    piece holds no slash. *)
Theorem slash_topic_survives_delete
    (ks : list string) (method path nm : string) (resp : ItemResponse) (w w' : World) :
  reachable w -> contains "/" nm = true ->
  topicsItemHandler ks method path w = Ok (resp, w') ->
  topics (globalTopics w') !! nm = topics (globalTopics w) !! nm.
Proof.
  intros Hr Hslash. pose proof (reachable_is_consistent w Hr) as Hw.
  unfold topicsItemHandler.
  destruct (negb _); [by intros [= _ <-]|].
  destruct (Split_head "/" (TrimPrefix path "/topics/")) as (h & tl & -> & Hh).
  destruct (String.eqb h ""); [by intros [= _ <-]|].
  destruct (DeleteTopic_consistent ks h w Hw) as (r & w1 & -> & _ & _ & Hcase).
  cbn [mbind Result_bind].
  destruct (topics (globalTopics w) !! h) as [t|] eqn:Ht.
  - destruct Hcase as (-> & Htop & _). intros [= _ <-]. rewrite Htop.
    apply lookup_delete_ne. intros ->. congruence.
  - destruct Hcase as [-> ->]. by intros [= _ <-].
Qed.

Lemma reachable_slashTopic : reachable (stateOf slashTopics).
Proof.
  apply (reach_collection (stateOf (postTopic "a" (initWorld ∅ 0))) _ [] "POST" (Body "a/b")
           (mkResponse 201 (CreatedJSON "a/b"))).
  - apply (reach_collection (initWorld ∅ 0) _ [] "POST" (Body "a")
             (mkResponse 201 (CreatedJSON "a"))).
    + apply reach_start.
    + vm_compute. reflexivity.
  - vm_compute. reflexivity.
Qed.

(** With the topics "a" and "a/b" registered, DELETE /topics/a/b deletes
    the topic "a"; the topic "a/b" stays. *)
Lemma slash_topic_survives_delete_witness :
  exists w',
    topicsItemHandler [] "DELETE" "/topics/a/b" (stateOf slashTopics)
      = Ok (mkItemResponse 200 (DeletedJSON "a"), w') /\
    topics (globalTopics w') !! "a/b" = topics (globalTopics (stateOf slashTopics)) !! "a/b".
Proof.
  set (w' := (stateOf (r ← topicsItemHandler [] "DELETE" "/topics/a/b" (stateOf slashTopics);
                       Ok r.2))).
  assert (H : topicsItemHandler [] "DELETE" "/topics/a/b" (stateOf slashTopics)
              = Ok (mkItemResponse 200 (DeletedJSON "a"), w'))
    by (vm_compute; reflexivity).
  exists w'. split; [exact H|].
  exact (slash_topic_survives_delete [] "DELETE" "/topics/a/b" "a/b" _ _ w'
           reachable_slashTopic eq_refl H).
Defined.

(** ** Replies *)

Lemma replay_conns (p : nat) (ms : list Message) :
  forall w w', replay p ms w = Ok w' -> length (conns w') = length (conns w).
Proof.
  induction ms as [|m ms IH]; intros w w' H; simpl in H; [by injection H as <-|].
  destruct (deref p w) as [s|]; simpl in H; [|done].
  destruct (trySend m (Sub.send s)) as [[ch|]|]; simpl in H; [| |done].
  - by rewrite (IH _ _ H).
  - apply bind_Ok in H as (w1 & H1 & H2).
    unfold CloseWithError in H1. destruct (deref p w) as [s0|]; simpl in H1; [|done].
    apply Close_conns in H1. simpl in H1. rewrite length_alter in H1.
    rewrite (IH _ _ H2). done.
Qed.

Lemma publishToTopic_conns (ks : list string) (topicName : string) (m : Message)
    (w w' : World) (r : option error) :
  publishToTopic ks topicName m w = Ok (r, w') -> length (conns w') = length (conns w).
Proof.
  unfold publishToTopic. destruct (GetTopic topicName (globalTopics w)) as [t|e].
  - intros H. apply bind_Ok in H as (h & _ & H).
    pose proof (fanout_conns m ks (subscribers t) w) as Hc.
    destruct (fanout ks m (subscribers t) w) as [[subs' w1]|]; simpl in H; [|done].
    by injection H as _ <-.
  - by intros [= _ <-].
Qed.

(** A frame that is handled ends with one write to the session's socket. *)
Lemma handleFrame_reply (ks : list string) (c : nat) (inp : In.ClientToServer) (w w' : World) :
  handleFrame ks c inp w = Ok w' ->
  exists f w0,
    w' = connWrite c f w0 /\ length (conns w0) = length (conns w) /\
    Out.RequestID f = In.RequestID inp /\
    Out.Type_ f ∈ ["pong"; "ack"; "error"].
Proof.
  assert (Hpong : "pong" ∈ ["pong"; "ack"; "error"]) by (apply list_elem_of_here).
  assert (Hack : "ack" ∈ ["pong"; "ack"; "error"])
    by (apply list_elem_of_further, list_elem_of_here).
  assert (Herr : "error" ∈ ["pong"; "ack"; "error"])
    by (do 2 apply list_elem_of_further; apply list_elem_of_here).
  unfold handleFrame.
  destruct (String.eqb (In.Type_ inp) "ping"); [intros [= <-]; by eexists _, _|].
  destruct (String.eqb (In.Type_ inp) "subscribe").
  { unfold handleSubscribe.
    destruct (_ || _); [intros [= <-]; by eexists _, _|].
    destruct (GetTopic _ _) as [topic|]; [|intros [= <-]; by eexists _, _].
    intros H. apply bind_Ok in H as ([p w1] & Hnew & H).
    apply newSubscriber_Ok in Hnew as (_ & -> & ->).
    apply bind_Ok in H as (w2 & H2 & H).
    apply bind_Ok in H as (w3 & H3 & [= <-]).
    unfold register in H2. apply bind_Ok in H2 as (wm & Hm & [= <-]).
    eexists _, w3. splits; try done.
    assert (Hc3 : length (conns w3) = length (conns (bindSubscriber (In.Topic inp)
                    (In.ClientID inp) (length (heap w)) wm))).
    { unfold replayLastN in H3. destruct (In.LastN inp >? 0); [|by injection H3 as <-].
      apply bind_Ok in H3 as (ms & _ & H3). by apply replay_conns in H3. }
    rewrite Hc3. simpl.
    unfold closeOld in Hm. destruct (subscribers topic !! In.ClientID inp).
    - by apply Close_conns in Hm.
    - by injection Hm as <-. }
  destruct (String.eqb (In.Type_ inp) "unsubscribe").
  { unfold handleUnsubscribe.
    destruct (_ || _); [intros [= <-]; by eexists _, _|].
    intros H. apply bind_Ok in H as (w1 & H1 & [= <-]).
    eexists _, w1. splits; try done.
    destruct (GetTopic _ _) as [topic|]; [|by injection H1 as <-].
    destruct (subscribers topic !! In.ClientID inp); [|by injection H1 as <-].
    apply bind_Ok in H1 as (w2 & H2 & [= <-]). by apply Close_conns in H2. }
  destruct (String.eqb (In.Type_ inp) "publish").
  { unfold handlePublish.
    destruct (In.Message inp) as [m|]; [|intros [= <-]; by eexists _, _].
    destruct (String.eqb (In.Topic inp) ""); [intros [= <-]; by eexists _, _|].
    intros H. apply bind_Ok in H as ([r w1] & H1 & H).
    apply publishToTopic_conns in H1.
    destruct r as [e|]; injection H as <-; by eexists _, w1. }
  intros [= <-]. by eexists _, _.
Qed.

(** X9.  Every frame that is handled is answered on the socket it was read
    from, as the last thing the handler does: the log of that socket ends
    with the write of a pong, ack or error frame that carries the request
    id of the frame. *)
Theorem reply_echoes_request_id
    (ks : list string) (c : nat) (inp : In.ClientToServer) (w w' : World) :
  (c < length (conns w))%nat ->
  handleFrame ks c inp w = Ok w' ->
  exists pre f,
    connLog c w' = pre ++ [EvWrite f] /\
    Out.RequestID f = In.RequestID inp /\
    Out.Type_ f ∈ ["pong"; "ack"; "error"].
Proof.
  intros Hc H. destruct (handleFrame_reply ks c inp w w' H) as (f & w0 & -> & Hc0 & Hid & Hty).
  exists (connLog c w0), f. split; [|done].
  apply connLog_connWrite_eq. by rewrite Hc0.
Qed.

Lemma reply_echoes_request_id_witness :
  exists pre f,
    connLog 1 (stateOf replayOverflow) = pre ++ [EvWrite f] /\
    Out.RequestID f = "r1" /\ Out.Type_ f ∈ ["pong"; "ack"; "error"].
Proof.
  apply (reply_echoes_request_id [] 1 (subscribeFrame "t" "a" 2 "r1")
           (connect (stateOf twoPublished)) (stateOf replayOverflow)).
  - vm_compute. lia.
  - vm_compute. reflexivity.
Defined.

(** ** Unsubscribing *)

Lemma handleFrame_unsubscribe (ks : list string) (c : nat) (inp : In.ClientToServer) (w : World) :
  In.Type_ inp = "unsubscribe" -> In.Topic inp <> "" -> In.ClientID inp <> "" ->
  handleFrame ks c inp w =
    w1 ← match topics (globalTopics w) !! In.Topic inp with
         | Some topic =>
             match subscribers topic !! In.ClientID inp with
             | Some p => w' ← Close p w;
                         Ok (unbindSubscriber (In.Topic inp) (In.ClientID inp) w')
             | None => Ok w
             end
         | None => Ok w
         end;
    Ok (connWrite c (ackFrame (In.RequestID inp) (In.Topic inp)) w1).
Proof.
  intros Hty Ht Hc. unfold handleFrame. rewrite Hty. simpl.
  unfold handleUnsubscribe. rewrite (eqb_empty_false _ Ht), (eqb_empty_false _ Hc). simpl.
  unfold GetTopic. by destruct (topics (globalTopics w) !! In.Topic inp).
Qed.

Lemma Close_open (p : nat) (w : World) (s : Sub.Subscriber) :
  heap w !! p = Some s -> buf (Sub.closed s) = [] ->
  isClosed (Sub.closed s) = false -> isClosed (Sub.send s) = false ->
  exists s',
    Close p w = Ok (connClose (Sub.conn s) StatusNormalClosure "subscriber closed"
                      (store p s' w)) /\
    isClosed (Sub.send s') = true /\ isClosed (Sub.closed s') = true.
Proof.
  intros Hp Hb Hc Hs. unfold Close, deref. rewrite Hp. simpl.
  unfold tryRecv, closeChan. rewrite Hb, Hc, Hs. simpl. by eexists.
Qed.

(** X10.  An unsubscribe frame with a topic and a client id, in a
    reachable state.  If the topic does not exist or does not hold the
    client id, the only effect is the ack.  Otherwise the handler returns
    with the ack written, the client id no longer bound in the topic, the
    other bindings of the topic as they were, and the subscriber's
    closed-signal fired; if the subscriber had not been closed before, its
    socket has been closed; and the same frame handled again only adds
    another ack. *)
Theorem unsubscribe_request
    (ks : list string) (c : nat) (inp : In.ClientToServer) (w : World) :
  reachable w ->
  In.Type_ inp = "unsubscribe" -> In.Topic inp <> "" -> In.ClientID inp <> "" ->
  let T := In.Topic inp in
  let C := In.ClientID inp in
  let ack := ackFrame (In.RequestID inp) T in
  (subscribers (topicOf T w) !! C = None ->
     handleFrame ks c inp w = Ok (connWrite c ack w)) /\
  (forall t p, topics (globalTopics w) !! T = Some t -> subscribers t !! C = Some p ->
     exists w',
       handleFrame ks c inp w = Ok w' /\
       subscribers (topicOf T w') !! C = None /\
       (forall k, k <> C -> subscribers (topicOf T w') !! k = subscribers t !! k) /\
       wasClosed p w' /\
       (forall s, heap w !! p = Some s -> isClosed (Sub.closed s) = false ->
          EvClose StatusNormalClosure "subscriber closed" ∈ connLog (Sub.conn s) w') /\
       handleFrame ks c inp w' = Ok (connWrite c ack w')).
Proof.
  intros Hr Hty HT HC T C ack. pose proof (reachable_is_consistent w Hr) as Hw. split.
  - intros Hnone. rewrite (handleFrame_unsubscribe ks c inp w Hty HT HC).
    unfold topicOf in Hnone. fold T C.
    destruct (topics (globalTopics w) !! T) as [t|]; [|done].
    simpl in Hnone. by rewrite Hnone.
  - intros t p Ht Hp. rewrite (handleFrame_unsubscribe ks c inp w Hty HT HC).
    fold T C. rewrite Ht, Hp.
    pose proof Hw as [Hsub Htop]. destruct (Htop _ _ Ht) as (_ & _ & Hbind).
    destruct (Hbind _ _ Hp) as (s & Hs & _).
    destruct (Close_consistent p w s Hw Hs) as (w1 & HCl & Hw1 & Hcl1 & Ht1 & _ & Hc1 & _).
    rewrite HCl. cbn [mbind Result_bind].
    exists (connWrite c ack (unbindSubscriber T C w1)). split; [reflexivity|].
    assert (Htopic' : topics (globalTopics (connWrite c ack (unbindSubscriber T C w1))) !! T
                      = Some (mkTopic (name t) (delete C (subscribers t)) (history t)
                                (msgCount t))).
    { simpl. by rewrite lookup_alter_eq, Ht1, Ht. }
    assert (Hof : topicOf T (connWrite c ack (unbindSubscriber T C w1))
                  = mkTopic (name t) (delete C (subscribers t)) (history t) (msgCount t)).
    { unfold topicOf. by rewrite Htopic'. }
    rewrite Hof. cbn [subscribers]. splits.
    + apply lookup_delete_eq.
    + intros k Hk. by apply lookup_delete_ne.
    + exact Hcl1.
    + intros s0 Hs0 Hopen. assert (s0 = s) as -> by congruence.
      apply connLog_connWrite. change (connLog (Sub.conn s) (unbindSubscriber T C w1))
        with (connLog (Sub.conn s) w1).
      destruct (Hsub p s Hs) as (Hb & Hsc & _ & Hcn).
      assert (Hsend : isClosed (Sub.send s) = false).
      { destruct (isClosed (Sub.send s)) eqn:E; [|done]. by rewrite Hsc in Hopen. }
      destruct (Close_open p w s Hs Hb Hopen Hsend) as (s' & HCl' & _).
      rewrite HCl' in HCl. injection HCl as <-.
      rewrite connLog_connClose_eq by (simpl; done).
      apply elem_of_app. right. apply list_elem_of_here.
    + rewrite (handleFrame_unsubscribe ks c inp _ Hty HT HC). fold T C.
      rewrite Htopic'. cbn [subscribers]. by rewrite lookup_delete_eq.
Qed.

Lemma unsubscribe_request_witness :
  exists w',
    handleFrame [] 0 (unsubscribeFrame "t" "c" "u1") (stateOf oneSubscriber) = Ok w' /\
    subscribers (topicOf "t" w') !! "c" = None /\
    wasClosed 0 w' /\
    EvClose StatusNormalClosure "subscriber closed" ∈ connLog 0 w'.
Proof.
  destruct (unsubscribe_request [] 0 (unsubscribeFrame "t" "c" "u1") (stateOf oneSubscriber))
    as [_ H].
  - exact reachable_oneSubscriber.
  - reflexivity.
  - discriminate.
  - discriminate.
  - destruct (H (topicOf "t" (stateOf oneSubscriber)) 0%nat)
      as (w' & Hrun & Hgone & _ & Hcl & Hsock & _).
    + vm_compute. reflexivity.
    + vm_compute. reflexivity.
    + exists w'. split; [exact Hrun|]. split; [exact Hgone|]. split; [exact Hcl|].
      apply (Hsock (Sub.mkSubscriber "c" (makeChan 1) 0 (makeChan 0))).
      * vm_compute. reflexivity.
      * reflexivity.
Defined.

(** ** Publishing: the bookkeeping *)

Lemma fanout_topics (m : Message) (ks : list string) :
  forall (subs : gmap string nat) (w : World),
    match fanout ks m subs w with
    | Ok (_, w') => globalTopics w' = globalTopics w
    | Panic _ => True
    end.
Proof.
  induction ks as [|k ks IH]; intros subs w; simpl; [done|].
  destruct (subs !! k) as [p|]; [|apply IH].
  destruct (deref p w) as [s|]; simpl; [|done].
  destruct (trySend m (Sub.send s)) as [[ch|]|]; simpl; [| |done].
  - apply (IH subs (store p _ w)).
  - destruct (Close p _) as [w1|] eqn:HCl; simpl; [|done].
    apply Close_frame in HCl as (Ht & _). simpl in Ht.
    specialize (IH (delete k subs) w1).
    destruct (fanout ks m (delete k subs) w1) as [[subs' w']|]; [|done]. congruence.
Qed.

Lemma handleFrame_publish (ks : list string) (c : nat) (inp : In.ClientToServer) (w : World)
    (m : Message) :
  In.Type_ inp = "publish" -> In.Topic inp <> "" -> In.Message inp = Some m ->
  handleFrame ks c inp w =
    r ← publishToTopic ks (In.Topic inp) m w;
    match r with
    | (Some e, w') =>
        Ok (connWrite c (errorFrame (In.RequestID inp)
                           match e with
                           | ErrTopicNotFound => "TOPIC_NOT_FOUND"
                           | _ => "INTERNAL"
                           end (errorText e)) w')
    | (None, w') => Ok (connWrite c (ackOf inp) w')
    end.
Proof.
  intros Hty Ht Hm. unfold handleFrame. rewrite Hty. simpl.
  unfold handlePublish. by rewrite Hm, (eqb_empty_false _ Ht).
Qed.

(** X11.  A publish frame with a topic and a message, in a reachable
    state.  For an unknown topic the only effect is the TOPIC_NOT_FOUND
    error frame.  For a registered topic, if the handler returns, then
    whatever happened to the subscribers the reply is the ack, the topic's
    counter has gone up by exactly one (as an int64), its history is the
    old one with the message added once, so that [LastN 1] is the message,
    and every other topic is as it was. *)
Theorem publish_bookkeeping
    (ks : list string) (c : nat) (inp : In.ClientToServer) (m : Message) (w : World) :
  reachable w ->
  In.Type_ inp = "publish" -> In.Topic inp <> "" -> In.Message inp = Some m ->
  (topics (globalTopics w) !! In.Topic inp = None ->
     handleFrame ks c inp w = Ok (connWrite c (notFoundOf inp) w)) /\
  (forall t w', topics (globalTopics w) !! In.Topic inp = Some t ->
     handleFrame ks c inp w = Ok w' ->
     exists t' w0,
       w' = connWrite c (ackOf inp) w0 /\
       topics (globalTopics w') !! In.Topic inp = Some t' /\
       name t' = name t /\
       msgCount t' = wrap64 (msgCount t + 1) /\
       Ring.Add m (history t) = Ok (history t') /\
       Ring.LastN 1 (history t') = Ok [m] /\
       forall other, other <> In.Topic inp ->
         topics (globalTopics w') !! other = topics (globalTopics w) !! other).
Proof.
  intros Hr Hty HT Hm. pose proof (reachable_is_consistent w Hr) as Hw.
  rewrite (handleFrame_publish ks c inp w m Hty HT Hm). split.
  - intros Hnone. unfold publishToTopic, GetTopic. by rewrite Hnone.
  - intros t w' Ht. unfold publishToTopic, GetTopic. rewrite Ht.
    pose proof Hw as [_ Htop]. destruct (Htop _ _ Ht) as (_ & Hring & _).
    destruct (Add_wf m (history t) Hring) as (h & Hadd & _). rewrite Hadd.
    cbn [mbind Result_bind].
    pose proof (fanout_topics m ks (subscribers t) w) as Hft.
    destruct (fanout ks m (subscribers t) w) as [[subs' w1]|]; [|done].
    cbn [mbind Result_bind]. intros [= <-].
    eexists _, _. split; [reflexivity|]. simpl.
    rewrite lookup_insert_eq. split; [reflexivity|]. simpl.
    split; [done|]. split; [done|]. split; [done|].
    split; [by apply (Add_last m (history t))|].
    intros other Hne. rewrite lookup_insert_ne by done. by rewrite Hft.
Qed.

Lemma publish_bookkeeping_witness :
  exists t',
    topics (globalTopics (stateOf threePublished)) !! "t" = Some t' /\
    msgCount t' = 3 /\ Ring.LastN 1 (history t') = Ok [msg "3"].
Proof.
  destruct (publish_bookkeeping [] 0 (publishFrame "t" (msg "3") "p3") (msg "3")
              (stateOf twoPublished)) as [_ H].
  - exact reachable_twoPublished.
  - reflexivity.
  - discriminate.
  - reflexivity.
  - destruct (H (topicOf "t" (stateOf twoPublished)) (stateOf threePublished))
      as (t' & w0 & _ & Ht' & _ & Hcount & _ & Hlast & _).
    + vm_compute. reflexivity.
    + vm_compute. reflexivity.
    + exists t'. split; [exact Ht'|]. split; [|exact Hlast].
      rewrite Hcount. vm_compute. reflexivity.
Defined.

(** ** The writer of a subscriber *)

Lemma withQueue_same (s : Sub.Subscriber) : withQueue (buf (Sub.send s)) s = s.
Proof. by destruct s as [i [b c cl] cn cd]. Qed.

Lemma writer_loop_drains (topicName : string) (p : nat) (q : list Message) :
  forall (w : World) (s : Sub.Subscriber),
    heap w !! p = Some s -> buf (Sub.send s) = q ->
    subscriberWriteLoop (length q) topicName p w =
      Ok (setConns (alter (fun tr => tr ++ eventsOf topicName q) (Sub.conn s) (conns w))
            (store p (withQueue [] s) w)).
Proof.
  induction q as [|m q IH]; intros w s Hp Hq; simpl.
  - f_equal. destruct w as [en qs hp cs tm]. unfold setConns, store, setHeap. simpl in *.
    f_equal.
    + rewrite <- Hq, withQueue_same. by rewrite list_insert_id.
    + symmetry. apply list_alter_id. intros tr. apply app_nil_r.
  - unfold deref. rewrite Hp. simpl. unfold tryRecv. rewrite Hq. simpl.
    set (s1 := Sub.mkSubscriber _ _ _ _).
    set (w1 := connWrite _ _ _).
    rewrite (IH w1 s1); [|subst w1; simpl; by eapply heap_store|done].
    f_equal. subst w1 s1. destruct w as [en qs hp cs tm].
    unfold setConns, store, setHeap, connWrite, withQueue. simpl in *.
    f_equal.
    + by rewrite list_insert_insert_eq.
    + rewrite list_alter_alter_eq. apply list_alter_ext; [|done].
      intros tr _. simpl. by rewrite <- app_assoc.
Qed.

(** X12.  The writer delivers in queue order.  With the session context
    live and the socket writes succeeding, as many turns of the writer loop
    as the subscriber has queued messages write exactly the event frames of
    those messages to the subscriber's socket, oldest first, and leave the
    queue empty and everything else as it was (the other subscribers, the
    logs of the other sockets, the topics, the configuration); this also
    holds for a queue that has been closed.  The next turn ends the loop if
    the queue has been closed and waits otherwise. *)
Theorem writer_delivers_in_order (topicName : string) (p : nat) (w : World) (s : Sub.Subscriber) :
  heap w !! p = Some s -> (Sub.conn s < length (conns w))%nat ->
  exists w',
    subscriberWriteLoop (length (buf (Sub.send s))) topicName p w = Ok w' /\
    w' = setConns (alter (fun tr => tr ++ eventsOf topicName (buf (Sub.send s)))
                     (Sub.conn s) (conns w))
           (store p (withQueue [] s) w) /\
    connLog (Sub.conn s) w' = connLog (Sub.conn s) w ++ eventsOf topicName (buf (Sub.send s)) /\
    (forall c, c <> Sub.conn s -> connLog c w' = connLog c w) /\
    heap w' = <[p := withQueue [] s]> (heap w) /\
    globalTopics w' = globalTopics w /\
    subscriberWriteStep false false topicName p w' = Ok (negb (isClosed (Sub.send s)), w').
Proof.
  intros Hp Hc. eexists. split; [by apply writer_loop_drains|].
  split; [reflexivity|]. splits; try done.
  - unfold connLog. simpl. rewrite list_lookup_alter_eq.
    destruct (lookup_lt_is_Some_2 _ _ Hc) as [tr Htr]. by rewrite Htr.
  - intros c Hne. unfold connLog. simpl. by rewrite list_lookup_alter_ne.
  - unfold subscriberWriteStep, deref. simpl.
    rewrite list_lookup_insert_eq by (by eapply lookup_lt_Some). simpl.
    unfold tryRecv. simpl. by destruct (isClosed (Sub.send s)).
Qed.

Lemma writer_delivers_in_order_witness :
  exists w',
    subscriberWriteLoop 2 "t" 0 (stateOf twoQueued) = Ok w' /\
    connLog 1 w' =
      connLog 1 (stateOf twoQueued) ++
        [EvWrite (eventFrame "t" (msg "1")); EvWrite (eventFrame "t" (msg "2"))] /\
    connLog 0 w' = connLog 0 (stateOf twoQueued).
Proof.
  destruct (writer_delivers_in_order "t" 0 (stateOf twoQueued)
              (Sub.mkSubscriber "a" (mkChan [msg "1"; msg "2"] 100 false) 1 (makeChan 0)))
    as (w' & Hrun & _ & Hlog & Hother & _).
  - vm_compute. reflexivity.
  - vm_compute. lia.
  - exists w'. split; [exact Hrun|]. split; [exact Hlog|].
    apply (Hother 0%nat). discriminate.
Defined.

(** ** Graceful close of one subscriber *)

Lemma drain_open (expiry : nat) :
  forall ch : Chan Message,
    isClosed ch = false ->
    drain expiry ch = mkChan (drop (S expiry) (buf ch)) (cap ch) false.
Proof.
  induction expiry as [|e IH]; intros [b c cl] Hcl; simpl in Hcl; subst cl.
  - destruct b as [|m b]; simpl; [done|]. unfold tryRecv. simpl. by rewrite drop_0.
  - destruct b as [|m b]; [done|].
    change (drain (S e) (mkChan (m :: b) c false)) with (drain e (mkChan b c false)).
    by rewrite IH.
Qed.

(** X13.  [CloseGracefully] on a subscriber that has not been closed fires
    its closed-signal and takes up to [expiry + 1] messages off the front
    of its queue without writing them anywhere: no socket is written to or
    closed, and the send queue itself stays open.  [CloseGracefully] calls
    no [Close] itself; a [Close] called on the subscriber afterwards (by an
    unsubscribe, a topic deletion or an eviction) finds the closed-signal
    fired and returns at once, leaving the state as it is, so that the send
    queue and the socket stay open. *)
Theorem CloseGracefully_drops (expiry : nat) (p : nat) (w : World) (s : Sub.Subscriber) :
  heap w !! p = Some s ->
  buf (Sub.closed s) = [] -> isClosed (Sub.closed s) = false ->
  isClosed (Sub.send s) = false ->
  exists w' s',
    CloseGracefully expiry p w = Ok w' /\
    conns w' = conns w /\ globalTopics w' = globalTopics w /\
    heap w' = <[p := s']> (heap w) /\
    buf (Sub.send s') = drop (S expiry) (buf (Sub.send s)) /\
    isClosed (Sub.send s') = false /\
    isClosed (Sub.closed s') = true /\
    Close p w' = Ok w'.
Proof.
  intros Hp Hb Hc Hs. unfold CloseGracefully, deref. rewrite Hp. simpl.
  unfold closeChan. rewrite Hc. simpl.
  eexists _, _. split; [reflexivity|]. simpl. rewrite (drain_open expiry _ Hs). simpl.
  splits; try done.
  eapply Close_closed.
  - simpl. apply list_lookup_insert_eq. by eapply lookup_lt_Some.
  - simpl. unfold tryRecv. simpl. by rewrite Hb.
Qed.

Lemma CloseGracefully_drops_witness :
  exists w' s',
    CloseGracefully 5 0 (stateOf fullAndFree) = Ok w' /\
    heap w' !! 0%nat = Some s' /\ buf (Sub.send s') = [] /\
    isClosed (Sub.send s') = false /\ conns w' = conns (stateOf fullAndFree) /\
    Close 0 w' = Ok w'.
Proof.
  destruct (CloseGracefully_drops 5 0 (stateOf fullAndFree)
              (Sub.mkSubscriber "a" (mkChan [msg "1"] 1 false) 0 (makeChan 0)))
    as (w' & s' & Hrun & Hconns & _ & Hheap & Hbuf & Hopen & _ & Hclose).
  - vm_compute. reflexivity.
  - reflexivity.
  - reflexivity.
  - reflexivity.
  - exists w', s'. split; [exact Hrun|]. split.
    + rewrite Hheap. vm_compute. reflexivity.
    + split; [exact Hbuf|]. split; [exact Hopen|]. split; [exact Hconns|exact Hclose].
Defined.

(** ** Hard shutdown *)

Lemma CloseAllFrom_consistent (sks : string -> list string) (tks : list string) :
  forall w,
    consistent w ->
    exists w', CloseAllFrom tks sks w = Ok w' /\ consistent w' /\
      globalTopics w' = globalTopics w /\
      (forall q, wasClosed q w -> wasClosed q w') /\
      (forall nm t k p,
         nm ∈ tks -> topics (globalTopics w) !! nm = Some t ->
         k ∈ sks nm -> subscribers t !! k = Some p -> wasClosed p w').
Proof.
  induction tks as [|nm0 tks IH]; intros w Hw; simpl.
  { exists w. splits; try done. intros nm t k p Hnm. by apply not_elem_of_nil in Hnm. }
  destruct (topics (globalTopics w) !! nm0) as [t0|] eqn:Ht0.
  - pose proof Hw as [_ Htop]. destruct (Htop _ _ Ht0) as (_ & _ & Hbind).
    destruct (closeEach_consistent (sks nm0) (subscribers t0) w Hw)
      as (w1 & -> & Hw1 & Ht1 & _ & _ & Hmono1 & Hall1).
    { intros k p Hk. destruct (Hbind k p Hk) as (s & -> & _). eauto. }
    cbn [mbind Result_bind].
    destruct (IH w1 Hw1) as (w' & -> & Hw' & Ht' & Hmono' & Hall').
    exists w'. splits; try done.
    + congruence.
    + auto.
    + intros nm t k p Hnm Ht Hk Hp. apply elem_of_cons in Hnm as [->|Hnm].
      * assert (t = t0) as -> by congruence. apply Hmono'. by apply (Hall1 k).
      * apply (Hall' nm t k p); try done. by rewrite Ht1.
  - destruct (IH w Hw) as (w' & -> & Hw' & Ht' & Hmono' & Hall').
    exists w'. splits; try done.
    intros nm t k p Hnm Ht Hk Hp. apply elem_of_cons in Hnm as [->|Hnm]; [congruence|].
    by apply (Hall' nm t k p).
Qed.

(** X14.  [CloseAll] in a reachable state never panics; it leaves the
    registry as it was, so the subscribers stay registered, and it fires
    the closed-signal of every subscriber it visits: all of them when the
    orders cover every topic and every client id. *)
Theorem CloseAll_closes_everyone (tks : list string) (sks : string -> list string) (w : World) :
  reachable w ->
  exists w',
    CloseAll tks sks w = Ok w' /\
    globalTopics w' = globalTopics w /\
    forall nm t k p,
      nm ∈ tks -> topics (globalTopics w) !! nm = Some t ->
      k ∈ sks nm -> subscribers t !! k = Some p -> wasClosed p w'.
Proof.
  intros Hr. unfold CloseAll.
  destruct (CloseAllFrom_consistent sks tks w (reachable_is_consistent w Hr))
    as (w' & H & _ & Ht & _ & Hall).
  by exists w'.
Qed.

Lemma CloseAll_closes_everyone_witness :
  exists w',
    CloseAll ["t"] (fun _ => ["c"]) (stateOf oneSubscriber) = Ok w' /\
    subscribers (topicOf "t" w') !! "c" = Some 0%nat /\ wasClosed 0 w'.
Proof.
  destruct (CloseAll_closes_everyone ["t"] (fun _ => ["c"]) (stateOf oneSubscriber)
              reachable_oneSubscriber) as (w' & Hrun & Htop & Hall).
  exists w'. split; [exact Hrun|]. split.
  - unfold topicOf. rewrite Htop. vm_compute. reflexivity.
  - apply (Hall "t" (topicOf "t" (stateOf oneSubscriber)) "c").
    + apply list_elem_of_here.
    + vm_compute. reflexivity.
    + apply list_elem_of_here.
    + vm_compute. reflexivity.
Defined.

(** ** The middleware *)

Lemma getEnv_empty_default (env : gmap string string) (key : string) :
  getEnv env key "" = Getenv env key.
Proof. unfold getEnv. destruct (String.eqb_spec (Getenv env key) ""); congruence. Qed.

(** X15.  What the middleware lets through.  A request other than OPTIONS
    is answered 401 exactly when its path is neither "/health" nor "/",
    API_KEY is set to a non-empty value and the X-API-Key header differs
    from it; otherwise it reaches the router.  So a request that reaches
    [wsHandler] on "/ws" always passes the key check that [wsHandler]
    repeats.  An OPTIONS request is answered 204 before any key check. *)
Theorem middleware_gate (env : gmap string string) (r : Request) :
  (Method r = "OPTIONS" -> setupRouter env r = Answered 204) /\
  (Method r <> "OPTIONS" ->
     (setupRouter env r = Answered 401 <->
        Path r <> "/health" /\ Path r <> "/" /\
        Getenv env "API_KEY" <> "" /\ XAPIKey r <> Getenv env "API_KEY") /\
     (setupRouter env r <> Answered 401 -> setupRouter env r = CallsNext)) /\
  (setupRouter env r = CallsNext -> Path r = "/ws" -> wsHandlerAuthorized env r = true).
Proof.
  unfold setupRouter, corsMiddleware, requireAPIKey, wsHandlerAuthorized.
  rewrite getEnv_empty_default.
  destruct (String.eqb_spec (Method r) "OPTIONS") as [Hm|Hm];
    destruct (String.eqb_spec (Path r) "/health") as [Hh|Hh];
    destruct (String.eqb_spec (Path r) "/") as [Hs|Hs];
    destruct (String.eqb_spec (Getenv env "API_KEY") "") as [Hk|Hk];
    destruct (String.eqb_spec (XAPIKey r) (Getenv env "API_KEY")) as [Hx|Hx];
    simpl; splits; try done; try (intros; congruence);
    try (intros _; split; [split; [intros ?; try done; try congruence|intros (?&?&?&?); done] |
                           intros ?; done]).
Qed.

Lemma middleware_gate_witness :
  setupRouter {[ "API_KEY" := "secret" ]} (mkRequest "GET" "/stats" "") = Answered 401 /\
  setupRouter {[ "API_KEY" := "secret" ]} (mkRequest "OPTIONS" "/stats" "") = Answered 204 /\
  wsHandlerAuthorized {[ "API_KEY" := "secret" ]} (mkRequest "GET" "/ws" "secret") = true.
Proof.
  split; [|split].
  - apply (proj1 (proj2 (middleware_gate {[ "API_KEY" := "secret" ]}
                           (mkRequest "GET" "/stats" ""))));
      [discriminate|]. repeat split; discriminate.
  - apply (proj1 (middleware_gate {[ "API_KEY" := "secret" ]}
                    (mkRequest "OPTIONS" "/stats" ""))). reflexivity.
  - apply (proj2 (proj2 (middleware_gate {[ "API_KEY" := "secret" ]}
                           (mkRequest "GET" "/ws" "secret")))); reflexivity.
Defined.

(** ** Publishing in reachable states *)

Lemma consistent_servable (w : World) (t : Topic) (nm : string) :
  consistent w -> topics (globalTopics w) !! nm = Some t ->
  (forall k p s, subscribers t !! k = Some p -> heap w !! p = Some s ->
                 isClosed (Sub.send s) = false) ->
  (forall k p, subscribers t !! k = Some p -> servable w p) /\ injective (subscribers t).
Proof.
  intros [Hsub Htop] Ht Hopen. destruct (Htop _ _ Ht) as (_ & _ & Hbind). split.
  - intros k p Hk. destruct (Hbind k p Hk) as (s & Hs & _).
    unfold servable. rewrite Hs. destruct (Hsub p s Hs) as (Hb & _ & _ & Hc).
    split; [by eapply Hopen|]. done.
  - intros k1 k2 p H1 H2.
    destruct (Hbind k1 p H1) as (s1 & Hs1 & Hid1).
    destruct (Hbind k2 p H2) as (s2 & Hs2 & Hid2). congruence.
Qed.

(** X16.  Publishing in a reachable state to a topic none of whose
    registered subscribers has a closed send queue returns without error,
    whatever the order of the fan-out; every subscriber whose queue was at
    capacity has been written the SLOW_CONSUMER frame, closed and removed
    from the topic, and every other subscriber is still registered with
    the message at the back of its queue. *)
Theorem publish_reachable
    (ks : list string) (topicName : string) (m : Message) (w : World) (t : Topic) :
  reachable w ->
  topics (globalTopics w) !! topicName = Some t ->
  rangeOrder ks (subscribers t) ->
  (forall k p s, subscribers t !! k = Some p -> heap w !! p = Some s ->
                 isClosed (Sub.send s) = false) ->
  exists w' t',
    publishToTopic ks topicName m w = Ok (None, w') /\
    topics (globalTopics w') !! topicName = Some t' /\
    forall k p s,
      subscribers t !! k = Some p -> heap w !! p = Some s ->
      served m k p s (subscribers t') w'.
Proof.
  intros Hr Ht Hord Hopen. pose proof (reachable_is_consistent w Hr) as Hw.
  destruct (consistent_servable w t topicName Hw Ht Hopen) as [Hserv Hinj].
  pose proof Hw as [_ Htop]. destruct (Htop _ _ Ht) as (_ & Hring & _).
  unfold publishToTopic, GetTopic. rewrite Ht.
  destruct (Add_wf m (history t) Hring) as (h & -> & _). cbn [mbind Result_bind].
  destruct (fanout_spec m ks (subscribers t) w)
    as (subs' & w' & -> & _ & _ & _ & _ & _ & _ & Hout).
  - by destruct Hord.
  - intros k p _ Hk. by apply Hserv in Hk.
  - exact Hinj.
  - cbn [mbind Result_bind]. eexists _, _. split; [reflexivity|]. simpl.
    rewrite lookup_insert_eq. split; [reflexivity|]. simpl.
    intros k p s Hk Hs. apply Hout; [|done|done]. by eapply rangeOrder_elem.
Qed.

Lemma reachable_fullAndFree : reachable (stateOf fullAndFree).
Proof.
  set (w0 := connect (stateOf (postTopic "t" (initWorld smallQueues 0)))).
  set (w1 := connect (stateOf (handleFrame [] 0 (subscribeFrame "t" "a" 0 "r1") w0))).
  set (w2 := connect (stateOf (handleFrame [] 1 (subscribeFrame "t" "b" 0 "r2") w1))).
  set (w3 := stateOf (handleFrame ["a"; "b"] 2 (publishFrame "t" (msg "1") "p1") w2)).
  apply (reach_writer w3 _ false false true "t" 1).
  - apply (reach_frame w2 _ ["a"; "b"] 2 (publishFrame "t" (msg "1") "p1")).
    + apply reach_accept.
      apply (reach_frame w1 _ [] 1 (subscribeFrame "t" "b" 0 "r2")).
      * apply reach_accept.
        apply (reach_frame w0 _ [] 0 (subscribeFrame "t" "a" 0 "r1")).
        -- apply reach_accept.
           apply (reach_collection (initWorld smallQueues 0) _ [] "POST" (Body "t")
                    (mkResponse 201 (CreatedJSON "t"))).
           ++ apply reach_start.
           ++ vm_compute. reflexivity.
        -- vm_compute. lia.
        -- vm_compute. reflexivity.
      * vm_compute. lia.
      * vm_compute. reflexivity.
    + vm_compute. lia.
    + vm_compute. reflexivity.
  - vm_compute. reflexivity.
Qed.

Lemma publish_reachable_witness :
  exists w' t',
    publishToTopic ["b"; "a"] "t" (msg "2") (stateOf fullAndFree) = Ok (None, w') /\
    topics (globalTopics w') !! "t" = Some t' /\
    subscribers t' !! "a" = None /\ subscribers t' !! "b" = Some 1%nat.
Proof.
  destruct (publish_reachable ["b"; "a"] "t" (msg "2") (stateOf fullAndFree)
              (topicOf "t" (stateOf fullAndFree)) reachable_fullAndFree)
    as (w' & t' & Hrun & Ht' & Hall).
  - vm_compute. reflexivity.
  - apply (bool_decide_unpack _). vm_compute. exact I.
  - assert (Hheap : heap (stateOf fullAndFree) =
                    [ Sub.mkSubscriber "a" (mkChan [msg "1"] 1 false) 0 (makeChan 0);
                      Sub.mkSubscriber "b" (mkChan [] 1 false) 1 (makeChan 0) ])
      by (vm_compute; reflexivity).
    intros k p s _ Hs. rewrite Hheap in Hs.
    destruct p as [|[|p]]; simpl in Hs; [| |done]; by injection Hs as <-.
  - exists w', t'. split; [exact Hrun|]. split; [exact Ht'|]. split.
    + apply (Hall "a" 0%nat (Sub.mkSubscriber "a" (mkChan [msg "1"] 1 false) 0 (makeChan 0)));
        vm_compute; reflexivity.
    + apply (Hall "b" 1%nat (Sub.mkSubscriber "b" (mkChan [] 1 false) 1 (makeChan 0)));
        vm_compute; reflexivity.
Defined.

(** A subscriber with a closed send queue stops the fan-out when the loop
    reaches it. *)
Lemma fanout_closed_panics (m : Message) (p : nat) (s : Sub.Subscriber) (ks : list string) :
  forall (subs : gmap string nat) (w : World) (k : string),
    k ∈ ks -> subs !! k = Some p -> heap w !! p = Some s ->
    isClosed (Sub.send s) = true ->
    exists e, fanout ks m subs w = Panic e.
Proof.
  induction ks as [|k0 ks IH]; intros subs w k Hk Hsub Hp Hcl.
  { by apply not_elem_of_nil in Hk. }
  simpl. destruct (subs !! k0) as [p0|] eqn:Hk0.
  2: { apply elem_of_cons in Hk as [->|Hk]; [congruence|]. by apply (IH subs w k). }
  unfold deref. destruct (heap w !! p0) as [s0|] eqn:Hp0; simpl; [|by eexists].
  unfold trySend. destruct (isClosed (Sub.send s0)) eqn:Hopen; simpl; [by eexists|].
  assert (Hne : p0 <> p) by (intros ->; congruence).
  assert (Hkne : k <> k0) by (intros ->; congruence).
  apply elem_of_cons in Hk as [->|Hk]; [done|].
  destruct (length (buf (Sub.send s0)) <? cap (Sub.send s0))%nat; simpl.
  - apply (IH subs _ k); try done. simpl. by rewrite list_lookup_insert_ne.
  - destruct (Close p0 _) as [w1|e] eqn:HCl; simpl; [|by eexists].
    apply Close_frame in HCl as (_ & _ & _ & Hfr & _).
    apply (IH (delete k0 subs) w1 k); try done.
    + by rewrite lookup_delete_ne.
    + rewrite Hfr by done. done.
Qed.

Lemma publish_closed_queue
    (ks : list string) (topicName k : string) (m : Message) (w : World) (t : Topic)
    (p : nat) (s : Sub.Subscriber) :
  consistent w ->
  topics (globalTopics w) !! topicName = Some t ->
  k ∈ ks -> subscribers t !! k = Some p -> heap w !! p = Some s ->
  isClosed (Sub.send s) = true ->
  publishToTopic ks topicName m w = Panic SendOnClosedChannel.
Proof.
  intros Hw Ht Hk Hsub Hp Hcl.
  pose proof (publishToTopic_sound ks topicName m w Hw) as Hsound.
  assert (Hpanic : exists e, publishToTopic ks topicName m w = Panic e).
  { unfold publishToTopic, GetTopic. rewrite Ht.
    destruct (Ring.Add m (history t)) as [h|e]; simpl; [|by eexists].
    destruct (fanout_closed_panics m p s ks (subscribers t) w k Hk Hsub Hp Hcl) as [e ->].
    by eexists. }
  destruct Hpanic as [e He]. rewrite He in Hsound. by rewrite Hsound in He.
Qed.

(** X17.  In a reachable state, publishing to a topic panics with a send
    on a closed channel as soon as one of the subscribers that the fan-out
    visits has a closed send queue: a closed subscriber that is still
    registered makes every publish on its topic fail. *)
Theorem publish_panics_on_closed_queue
    (ks : list string) (topicName k : string) (m : Message) (w : World) (t : Topic)
    (p : nat) (s : Sub.Subscriber) :
  reachable w ->
  topics (globalTopics w) !! topicName = Some t ->
  k ∈ ks -> subscribers t !! k = Some p -> heap w !! p = Some s ->
  isClosed (Sub.send s) = true ->
  publishToTopic ks topicName m w = Panic SendOnClosedChannel.
Proof.
  intros Hr. apply publish_closed_queue. by apply reachable_is_consistent.
Qed.

Lemma reachable_closedAndLive : reachable (stateOf closedAndLive).
Proof.
  apply (reach_frame (connect (stateOf replayOverflow)) _ [] 2 (subscribeFrame "t" "b" 0 "r2")).
  - apply reach_accept.
    apply (reach_frame (connect (stateOf twoPublished)) _ [] 1 (subscribeFrame "t" "a" 2 "r1")).
    + apply reach_accept. exact reachable_twoPublished.
    + vm_compute. lia.
    + vm_compute. reflexivity.
  - vm_compute. lia.
  - vm_compute. reflexivity.
Qed.

Lemma publish_panics_on_closed_queue_witness :
  publishToTopic ["b"; "a"] "t" (msg "3") (stateOf closedAndLive) = Panic SendOnClosedChannel.
Proof.
  apply (publish_panics_on_closed_queue ["b"; "a"] "t" "a" (msg "3") (stateOf closedAndLive)
           (topicOf "t" (stateOf closedAndLive)) 0
           (Sub.mkSubscriber "a" (mkChan [msg "1"] 1 true) 1 (mkChan [] 0 true))).
  - exact reachable_closedAndLive.
  - vm_compute. reflexivity.
  - apply list_elem_of_further, list_elem_of_here.
  - vm_compute. reflexivity.
  - vm_compute. reflexivity.
  - reflexivity.
Defined.

(** X18.  A failed socket write poisons the topic.  In a reachable state,
    when the writer of a registered subscriber that has not been closed
    takes a message and the socket write fails, the writer closes the
    subscriber and ends, but the subscriber stays registered in its topic;
    from then on every publish on that topic whose fan-out visits it
    panics with a send on a closed channel. *)
Theorem write_failure_poisons_topic
    (ks : list string) (topicName k : string) (m : Message) (w : World) (t : Topic)
    (p : nat) (s : Sub.Subscriber) :
  reachable w ->
  topics (globalTopics w) !! topicName = Some t ->
  subscribers t !! k = Some p -> heap w !! p = Some s ->
  buf (Sub.send s) <> [] -> isClosed (Sub.closed s) = false ->
  k ∈ ks ->
  exists w',
    subscriberWriteStep false true topicName p w = Ok (false, w') /\
    topics (globalTopics w') !! topicName = Some t /\
    wasClosed p w' /\
    publishToTopic ks topicName m w' = Panic SendOnClosedChannel.
Proof.
  intros Hr Ht Hsub Hp Hbuf Hopen Hk.
  pose proof (reachable_is_consistent w Hr) as Hw.
  pose proof Hw as [Hok _]. destruct (Hok p s Hp) as (Hb & Hsc & _ & Hcn).
  assert (Hsend : isClosed (Sub.send s) = false).
  { destruct (isClosed (Sub.send s)) eqn:E; [|done]. by rewrite Hsc in Hopen. }
  unfold subscriberWriteStep, deref. rewrite Hp. cbn [mbind Result_bind].
  unfold tryRecv. destruct (buf (Sub.send s)) as [|m0 rest] eqn:Hq; [done|].
  set (s1 := Sub.mkSubscriber _ _ _ _).
  set (w1 := connWrite _ _ _).
  assert (Hp1 : heap w1 !! p = Some s1) by (subst w1; simpl; by eapply heap_store).
  destruct (Close_open p w1 s1 Hp1 Hb Hopen Hsend) as (s2 & HCl & Hs2 & Hc2).
  assert (Hstep : subscriberWriteStep false true topicName p w
                  = Ok (false, connClose (Sub.conn s1) StatusNormalClosure "subscriber closed"
                                 (store p s2 w1))).
  { unfold subscriberWriteStep, deref. rewrite Hp. cbn [mbind Result_bind].
    unfold tryRecv. rewrite Hq. fold s1 w1. by rewrite HCl. }
  rewrite HCl. cbn [mbind Result_bind]. eexists. split; [reflexivity|].
  set (w' := connClose _ _ _ _) in *.
  assert (Hw' : consistent w').
  { apply reachable_is_consistent. by apply (reach_writer w w' false true false topicName p). }
  assert (Hp' : heap w' !! p = Some s2).
  { subst w'. simpl. rewrite list_lookup_insert_eq; [done|].
    rewrite length_insert. by eapply lookup_lt_Some. }
  split; [done|]. split; [by exists s2|].
  by apply (publish_closed_queue ks topicName k m w' t p _ Hw' Ht Hk Hsub Hp').
Qed.

Lemma write_failure_poisons_topic_witness :
  exists w',
    subscriberWriteStep false true "t" 0 (stateOf fullAndFree) = Ok (false, w') /\
    subscribers (topicOf "t" w') !! "a" = Some 0%nat /\
    publishToTopic ["a"; "b"] "t" (msg "2") w' = Panic SendOnClosedChannel.
Proof.
  destruct (write_failure_poisons_topic ["a"; "b"] "t" "a" (msg "2") (stateOf fullAndFree)
              (topicOf "t" (stateOf fullAndFree)) 0
              (Sub.mkSubscriber "a" (mkChan [msg "1"] 1 false) 0 (makeChan 0)))
    as (w' & Hstep & Htop & _ & Hpub).
  - exact reachable_fullAndFree.
  - vm_compute. reflexivity.
  - vm_compute. reflexivity.
  - vm_compute. reflexivity.
  - discriminate.
  - reflexivity.
  - apply list_elem_of_here.
  - exists w'. split; [exact Hstep|]. split; [|exact Hpub].
    unfold topicOf. rewrite Htop. vm_compute. reflexivity.
Defined.

(** ** A replay that fits *)



(** ** Listing topics *)

(** X20.  In a reachable state, [ListTopics] visiting the registry in an
    order that covers it returns one entry for each registered topic, in
    that order: the name the topic is registered under and the number of
    client ids bound in it (closed subscribers that are still bound
    included). *)
Theorem ListTopics_entries (ks : list string) (w : World) :
  reachable w -> rangeOrder ks (topics (globalTopics w)) ->
  ListTopics ks (globalTopics w) =
    (fun nm => (nm, size (subscribers (topicOf nm w)))) <$> ks.
Proof.
  intros Hr [_ Hdom]. pose proof (reachable_is_consistent w Hr) as [_ Htop].
  assert (Hin : forall k, k ∈ ks -> is_Some (topics (globalTopics w) !! k)).
  { intros k Hk. apply elem_of_dom. rewrite Hdom. by apply elem_of_list_to_set. }
  unfold ListTopics. clear Hdom.
  induction ks as [|k ks IH]; [done|]. simpl.
  destruct (Hin k) as [t Ht]; [apply list_elem_of_here|].
  unfold topicOf at 1. rewrite Ht. simpl.
  destruct (Htop _ _ Ht) as (-> & _). f_equal.
  apply IH. intros k0 Hk0. apply Hin. by apply list_elem_of_further.
Qed.

Lemma ListTopics_entries_witness :
  ListTopics ["t"] (globalTopics (stateOf closedAndLive)) = [("t", 2%nat)].
Proof.
  rewrite (ListTopics_entries ["t"] (stateOf closedAndLive) reachable_closedAndLive).
  - vm_compute. reflexivity.
  - apply (bool_decide_unpack _). vm_compute. exact I.
Defined.

Ltac is_error := left; eexists; split; [|reflexivity]; reflexivity.
Ltac not_error w0 :=
  right; eexists _, w0; split; [|split]; [|reflexivity|]; [discriminate|].

Lemma handleFrame_error_or_not (ks : list string) (c : nat) (inp : In.ClientToServer)
    (w w' : World) :
  handleFrame ks c inp w = Ok w' ->
  (exists f, Out.Type_ f = "error" /\ w' = connWrite c f w) \/
  (exists f w0, Out.Type_ f <> "error" /\ w' = connWrite c f w0 /\
                length (conns w0) = length (conns w)).
Proof.
  unfold handleFrame.
  destruct (String.eqb (In.Type_ inp) "ping").
  { intros [= <-]. not_error w. done. }
  destruct (String.eqb (In.Type_ inp) "subscribe").
  { unfold handleSubscribe.
    destruct (_ || _); [intros [= <-]; is_error|].
    destruct (GetTopic _ _) as [topic|]; [|intros [= <-]; is_error].
    intros H. apply bind_Ok in H as ([p w1] & Hnew & H).
    apply newSubscriber_Ok in Hnew as (_ & -> & ->).
    apply bind_Ok in H as (w2 & H2 & H).
    apply bind_Ok in H as (w3 & H3 & [= <-]).
    not_error w3.
    unfold register in H2. apply bind_Ok in H2 as (wm & Hm & [= <-]).
    assert (Hc3 : length (conns w3) = length (conns wm)).
    { unfold replayLastN in H3. destruct (In.LastN inp >? 0); [|by injection H3 as <-].
      apply bind_Ok in H3 as (ms & _ & H3). by apply replay_conns in H3. }
    rewrite Hc3. unfold closeOld in Hm. destruct (subscribers topic !! In.ClientID inp).
    - by apply Close_conns in Hm.
    - by injection Hm as <-. }
  destruct (String.eqb (In.Type_ inp) "unsubscribe").
  { unfold handleUnsubscribe.
    destruct (_ || _); [intros [= <-]; is_error|].
    intros H. apply bind_Ok in H as (w1 & H1 & [= <-]).
    not_error w1.
    destruct (GetTopic _ _) as [topic|]; [|by injection H1 as <-].
    destruct (subscribers topic !! In.ClientID inp); [|by injection H1 as <-].
    apply bind_Ok in H1 as (w2 & H2 & [= <-]). by apply Close_conns in H2. }
  destruct (String.eqb (In.Type_ inp) "publish").
  { unfold handlePublish.
    destruct (In.Message inp) as [m|]; [|intros [= <-]; is_error].
    destruct (String.eqb (In.Topic inp) ""); [intros [= <-]; is_error|].
    unfold publishToTopic.
    destruct (GetTopic (In.Topic inp) (globalTopics w)) as [t|e].
    - intros H. apply bind_Ok in H as ([r w1] & H1 & H).
      apply bind_Ok in H1 as (h & _ & H1).
      pose proof (fanout_conns m ks (subscribers t) w) as Hc.
      destruct (fanout ks m (subscribers t) w) as [[subs' w2]|]; simpl in H1; [|done].
      injection H1 as <- <-. simpl in H. injection H as <-.
      not_error (setTopics (<[In.Topic inp := mkTopic (name t) subs' h
                                                 (wrap64 (msgCount t + 1))]>
                              (topics (globalTopics w2))) w2).
      done.
    - simpl. intros [= <-]. is_error. }
  intros [= <-]. is_error.
Qed.

(** X22.  When the reply to a frame is an error frame, the frame changed
    nothing: the state after the handler is the state before it with that
    one error frame written to the session's socket.  No subscriber was
    allocated, closed or queued to, and no topic was touched. *)
Theorem error_reply_changes_nothing
    (ks : list string) (c : nat) (inp : In.ClientToServer) (w w' : World)
    (pre : list ConnEvent) (f : Out.ServerToClient) :
  (c < length (conns w))%nat ->
  handleFrame ks c inp w = Ok w' ->
  connLog c w' = pre ++ [EvWrite f] -> Out.Type_ f = "error" ->
  w' = connWrite c f w.
Proof.
  intros Hc H Hlog Hty.
  destruct (handleFrame_error_or_not ks c inp w w' H)
    as [(f0 & Hty0 & ->)|(f0 & w0 & Hty0 & -> & Hlen)].
  - rewrite connLog_connWrite_eq in Hlog by done.
    apply app_inj_tail in Hlog as [_ [= ->]]. done.
  - rewrite connLog_connWrite_eq in Hlog by (by rewrite Hlen).
    apply app_inj_tail in Hlog as [_ [= ->]]. done.
Qed.

Lemma error_reply_changes_nothing_witness :
  stateOf (handleFrame [] 0 (subscribeFrame "nope" "c" 0 "r9") (stateOf oneSubscriber))
  = connWrite 0 (errorFrame "r9" "TOPIC_NOT_FOUND" "topic not found") (stateOf oneSubscriber).
Proof.
  apply (error_reply_changes_nothing [] 0 (subscribeFrame "nope" "c" 0 "r9")
           (stateOf oneSubscriber) _ (connLog 0 (stateOf oneSubscriber))).
  - vm_compute. lia.
  - vm_compute. reflexivity.
  - vm_compute. reflexivity.
  - reflexivity.
Defined.

(** ** The registry *)

(** X23.  [CreateTopic] never fails.  For a name that is not registered it
    returns no error and registers, under that name, a topic with that
    name, no subscribers, a count of 0 and an empty history; afterwards
    [GetTopic] finds that topic, and finds for every other name what it
    found before.  For a registered name it returns ErrTopicExists and
    leaves the registry, and so the subscribers and history of the
    existing topic, as they were. *)
Theorem CreateTopic_GetTopic (nm : string) (tm : TopicsManager) :
  exists r tm',
    CreateTopic nm tm = Ok (r, tm') /\
    match GetTopic nm tm with
    | inl _ => r = Some ErrTopicExists /\ tm' = tm
    | inr _ =>
        r = None /\
        (exists t, GetTopic nm tm' = inl t /\ name t = nm /\ subscribers t = ∅ /\
                   msgCount t = 0 /\ Ring.LastN 100 (history t) = Ok []) /\
        forall other, other <> nm -> GetTopic other tm' = GetTopic other tm
    end.
Proof.
  unfold GetTopic. destruct (topics tm !! nm) as [t|] eqn:Hnm.
  - rewrite (CreateTopic_exists nm tm (ex_intro _ t Hnm)). by eexists _, _.
  - rewrite (CreateTopic_new nm tm Hnm). eexists _, _. split; [reflexivity|].
    split; [done|]. simpl. rewrite lookup_insert_eq. split.
    + eexists. split; [reflexivity|]. simpl. done.
    + intros other Hne. by rewrite lookup_insert_ne.
Qed.

(** ** The queue size *)

(** X24.  Whatever the environment, the queue size the process starts with
    is positive and fits an [int]; it is 100 when SUBSCRIBER_QUEUE_SIZE is
    unset or empty. *)
Theorem subscriberQueueSize_positive (env : gmap string string) (now : Z) :
  0 < subscriberQueueSize (initWorld env now) <= 2 ^ 63 - 1 /\
  (Getenv env "SUBSCRIBER_QUEUE_SIZE" = "" -> subscriberQueueSize (initWorld env now) = 100).
Proof.
  simpl. split.
  - apply initSubscriberQueueSize_range.
  - unfold initSubscriberQueueSize. intros ->. reflexivity.
Qed.

Lemma CreateTopic_GetTopic_witness :
  exists tm' t,
    CreateTopic "t" (NewTopicsManager 0) = Ok (None, tm') /\
    GetTopic "t" tm' = inl t /\ subscribers t = ∅.
Proof.
  destruct (CreateTopic_GetTopic "t" (NewTopicsManager 0)) as (r & tm' & Hrun & Hcase).
  change (GetTopic "t" (NewTopicsManager 0)) with (@inr Topic error ErrTopicNotFound) in Hcase.
  destruct Hcase as (-> & (t & Hget & _ & Hsubs & _) & _).
  exists tm', t. split; [exact Hrun|]. split; [exact Hget|exact Hsubs].
Defined.

Lemma subscriberQueueSize_positive_witness :
  subscriberQueueSize (initWorld ∅ 0) = 100 /\
  0 < subscriberQueueSize (initWorld smallQueues 0) <= 2 ^ 63 - 1.
Proof.
  split.
  - apply (proj2 (subscriberQueueSize_positive ∅ 0)). reflexivity.
  - apply (proj1 (subscriberQueueSize_positive smallQueues 0)).
Defined.
